(** * SubSentry detection engine: a shallow embedding and its properties

    The development follows the layout of [src/subsentry]:

    - [Stats]      core/stats.py      (median, mad, robust_z)
    - [Normalize]  core/normalize.py  (clean_merchant, canonical_hint)
    - [Recurring]  core/recurring.py  (detect_recurring)
    - [Anomalies]  core/anomalies.py  (the three batch detectors)
    - [Repo]       db/models.py and db/repo.py (tables and accessors)
    - [Engine]     core/engine.py     (resolve_merchants, recompute)

    Numbers.  Python [float] values are modelled twice.  The series
    detector, the batch detectors and the engine are followed over exact
    rationals [Q] (equality is [Qeq], written [==]), where rounding,
    infinities and NaN do not occur.  core/stats.py and the scoring of
    core/anomalies.py are followed again over the IEEE 754 binary64
    numbers of [PrimFloat] ([Stats64], [Anomalies64]), with their
    rounding, infinities and NaN.  Python [int] values are [Z] or [nat].

    Time.  A naive [datetime] is its number of microseconds on the
    proleptic Gregorian time line, counted from [datetime.min], a [Z]; a
    [timedelta] is a difference of two of them.  [Recurring] and [Engine]
    add days without a bound; [Datetime] has the range from
    [datetime.min] to [datetime.max], and [Checked] the detector and the
    recompute with the [OverflowError] of an addition that leaves it.

    Text.  A Python [str] is the list of its characters, read as 7-bit
    ASCII; [chars] turns a literal into such a list.

    Libraries.  [rapidfuzz.fuzz.ratio] and the AES-GCM decryption are
    parameters of the engine ([Repo.Externals]); [Rapidfuzz] gives the
    ratio as the library documents it, for use on sample ledgers. *)

From Stdlib Require Import Ascii String.
From Stdlib Require Import List Bool Arith ZArith QArith Qabs Qminmax Lia Lqa.
From Stdlib Require Import Permutation Sorted.
From Stdlib Require Floats.
Import ListNotations.

Set Implicit Arguments.
Set Warnings "-abstract-large-number".

(* ================================================================== *)
(** * Python built-ins used by the sources *)
(* ================================================================== *)

Module Py.

(** [sorted(xs, key=...)] is a stable sort: elements whose keys compare
    equal keep their input order.  [leb a b] decides [key a <= key b]. *)
Section Sorted.
Variable A : Type.
Variable leb : A -> A -> bool.

(** [x] comes from earlier in the input than every element of the
    sorted list [l]: it is placed in front of the first element that
    is not smaller, hence in front of its equals. *)
Fixpoint insert (x : A) (l : list A) : list A :=
  match l with
  | [] => [x]
  | y :: l' => if leb x y then x :: l else y :: insert x l'
  end.

Fixpoint sorted (l : list A) : list A :=
  match l with
  | [] => []
  | x :: l' => insert x (sorted l')
  end.
End Sorted.

End Py.

(* ================================================================== *)
(** * core/stats.py *)
(* ================================================================== *)

Module Stats.

Local Open Scope Q_scope.

Definition Qltb (a b : Q) : bool := negb (Qle_bool b a).

(** [np.median] on a one-dimensional array of at least one element: the
    middle element of the sorted data, or the mean of the two middle
    elements when their number is even. *)
Definition np_median (x : list Q) : Q :=
  let s := Py.sorted Qle_bool x in
  let n := length s in
  if Nat.even n
  then (nth (n / 2 - 1) s 0 + nth (n / 2) s 0) / 2
  else nth (n / 2) s 0.

(** [median(x)]: [float(np.median(...)) if x else 0.0]. *)
Definition median (x : list Q) : Q :=
  match x with
  | [] => 0
  | _ => np_median x
  end.

Definition default_scale : Q := 14826 # 10000.

(** [mad(x, scale=1.4826)]. *)
Definition mad_scaled (x : list Q) (scale : Q) : Q :=
  match x with
  | [] => 0
  | _ =>
      let med := np_median x in
      let val := np_median (map (fun a => Qabs (a - med)) x) in
      val * scale
  end.

Definition mad (x : list Q) : Q := mad_scaled x default_scale.

(** [robust_z(x, med, mad_val)]; the guard constant is [1e-9]. *)
Definition robust_z (x med mad_val : Q) : Q :=
  let denom := if Qltb (1 # 1000000000) mad_val then mad_val else 1 in
  (x - med) / denom.

(** Python's [min(l)] and [max(l)] on a non-empty list. *)
Definition list_min (l : list Q) : Q :=
  match l with
  | [] => 0
  | x :: l' => fold_left (fun m y => if Qltb y m then y else m) l' x
  end.

Definition list_max (l : list Q) : Q :=
  match l with
  | [] => 0
  | x :: l' => fold_left (fun m y => if Qltb m y then y else m) l' x
  end.

End Stats.

(* ================================================================== *)
(** * Strings and the regular expressions of core/normalize.py *)
(* ================================================================== *)

Module Str.

(** A Python [str], character by character. *)
Definition str := list ascii.

Definition chars (s : string) : str := list_ascii_of_string s.

Definition code (c : ascii) : nat := nat_of_ascii c.

Definition in_range (lo hi : nat) (c : ascii) : bool :=
  (lo <=? code c)%nat && (code c <=? hi)%nat.

(** [str.isspace] and the regex class [\s] below code point 128:
    TAB, LF, VT, FF, CR, the separators 0x1c..0x1f and the blank. *)
Definition is_space (c : ascii) : bool :=
  in_range 9 13 c || in_range 28 31 c || (code c =? 32)%nat.

Definition is_digit (c : ascii) : bool := in_range 48 57 c.   (* \d *)
Definition is_AZ (c : ascii) : bool := in_range 65 90 c.
Definition is_az (c : ascii) : bool := in_range 97 122 c.

(** The regex class [\w]: letters, digits and the underscore. *)
Definition is_word (c : ascii) : bool :=
  is_AZ c || is_az c || is_digit c || (code c =? 95)%nat.

Definition upper_char (c : ascii) : ascii :=
  if is_az c then ascii_of_nat (code c - 32) else c.

(** [s.upper()]. *)
Definition upper (s : str) : str := map upper_char s.

Fixpoint drop_while (p : ascii -> bool) (s : str) : str :=
  match s with
  | [] => []
  | c :: s' => if p c then drop_while p s' else s
  end.

Fixpoint take_while (p : ascii -> bool) (s : str) : str :=
  match s with
  | [] => []
  | c :: s' => if p c then c :: take_while p s' else []
  end.

Definition lstrip (s : str) : str := drop_while is_space s.
Definition rstrip (s : str) : str := rev (drop_while is_space (rev s)).

(** [s.strip()]. *)
Definition strip (s : str) : str := rstrip (lstrip s).

Fixpoint str_eqb (a b : str) : bool :=
  match a, b with
  | [], [] => true
  | x :: a', y :: b' => Ascii.eqb x y && str_eqb a' b'
  | _, _ => false
  end.

(** Ordering of [str] values by code point, as [<=] on Python strings
    and SQLite's BINARY collation on ASCII text. *)
Fixpoint str_leb (a b : str) : bool :=
  match a, b with
  | [], _ => true
  | _ :: _, [] => false
  | x :: a', y :: b' =>
      if (code x <? code y)%nat then true
      else if (code y <? code x)%nat then false
      else str_leb a' b'
  end.

(** [s.startswith(p)]; on success the text after the prefix. *)
Fixpoint strip_prefix (p s : str) : option str :=
  match p, s with
  | [], _ => Some s
  | x :: p', c :: s' =>
      if Ascii.eqb x c then strip_prefix p' s' else None
  | _ :: _, [] => None
  end.

Definition startswith (s p : str) : bool :=
  match strip_prefix p s with Some _ => true | None => false end.

(** As [strip_prefix], for an upper-case literal [p] under the regex
    flag [(?i)]. *)
Fixpoint strip_prefix_ci (p s : str) : option str :=
  match p, s with
  | [], _ => Some s
  | x :: p', c :: s' =>
      if Ascii.eqb x (upper_char c) then strip_prefix_ci p' s' else None
  | _ :: _, [] => None
  end.

(** [sub in s] for strings. *)
Fixpoint contains (sub s : str) : bool :=
  match s with
  | [] => match sub with [] => true | _ => false end
  | _ :: s' => startswith s sub || contains sub s'
  end.

(** ** Substitution

    [pattern.sub(repl, s)] and [s.replace(old, new)] scan [s] from the
    left; at each position not inside an earlier match the pattern is
    tried, and a match is replaced by [repl] and skipped.  The matcher
    [m prev rest] receives the character in front of the position (for
    [\b]) and the text from the position on, and answers the length of
    the match.  Every pattern of this program matches at least one
    character. *)
Section Sub.
Variable m : option ascii -> str -> option nat.
Variable repl : str.

Fixpoint sub_from (prev : option ascii) (skip : nat) (s : str) : str :=
  match s with
  | [] => []
  | c :: s' =>
      match skip with
      | S k => sub_from (Some c) k s'
      | O =>
          match m prev s with
          | Some (S k) => repl ++ sub_from (Some c) k s'
          | _ => c :: sub_from (Some c) 0 s'
          end
      end
  end.

Definition sub (s : str) : str := sub_from None 0 s.
End Sub.

End Str.

(* ================================================================== *)
(** * core/normalize.py *)
(* ================================================================== *)

Module Normalize.
Import Str.

Definition star : ascii := "*"%char.

Definition is_word_opt (c : option ascii) : bool :=
  match c with Some c => is_word c | None => false end.

(** [PAYPAL_PREFIX = re.compile(r"(?i)\bPAYPAL\b\s*\*\s*")] tried at
    one position.  Both [\b] stand next to a letter of the literal, so
    each holds when the neighbour on the other side is no word
    character (or is missing).  [\s*] is greedy and the character it
    stops at must be the asterisk. *)
Definition PAYPAL_PREFIX (prev : option ascii) (s : str) : option nat :=
  if is_word_opt prev then None
  else
    match strip_prefix_ci (chars "PAYPAL") s with
    | None => None
    | Some r1 =>
        if is_word_opt (hd_error r1) then None
        else
          let ws1 := take_while is_space r1 in
          match drop_while is_space r1 with
          | c :: r2 =>
              if Ascii.eqb c star
              then Some (6 + length ws1 + 1
                         + length (take_while is_space r2))%nat
              else None
          | [] => None
          end
    end.

(** [\d{2,6}] in front of [\s*$]: the whole run of digits is taken, and
    it must have 2 to 6 members. *)
Definition digits_2_6 (s : str) : option str :=
  let n := length (take_while is_digit s) in
  if (2 <=? n)%nat && (n <=? 6)%nat
  then Some (drop_while is_digit s) else None.

(** [CARD_SUFFIX =
     re.compile(r"(?i)\s*(?:\*+\d{2,6}|CARD\s*\d{2,6})\s*$")] tried at
    one position: the text from there on has to be consumed up to its
    end, the final [\s*] swallowing a closing line feed as well. *)
Definition CARD_SUFFIX (_ : option ascii) (s : str) : option nat :=
  let s1 := drop_while is_space s in
  let alt :=
    match s1 with
    | c :: _ =>
        if Ascii.eqb c star
        then digits_2_6 (drop_while (Ascii.eqb star) s1)
        else
          match strip_prefix_ci (chars "CARD") s1 with
          | Some s2 => digits_2_6 (drop_while is_space s2)
          | None => None
          end
    | [] => None
    end in
  match alt with
  | Some s3 =>
      match drop_while is_space s3 with
      | [] => Some (length s)
      | _ :: _ => None
      end
  | None => None
  end.

(** [MULTISPACE = re.compile(r"\s+")]. *)
Definition MULTISPACE (_ : option ascii) (s : str) : option nat :=
  match length (take_while is_space s) with
  | O => None
  | n => Some n
  end.

(** The class [[^A-Z0-9\s&.-]]. *)
Definition outside_kept_class (c : ascii) : bool :=
  negb (is_AZ c || is_digit c || is_space c
        || Ascii.eqb c "&" || Ascii.eqb c "." || Ascii.eqb c "-").

Definition NOT_KEPT (_ : option ascii) (s : str) : option nat :=
  match s with
  | c :: _ => if outside_kept_class c then Some 1%nat else None
  | [] => None
  end.

(** A literal, for [str.replace]. *)
Definition literal (p : str) (_ : option ascii) (s : str) : option nat :=
  match strip_prefix p s with
  | Some _ => Some (length p)
  | None => None
  end.

(** [clean_merchant(raw)].  [raw or ""] maps [None] to the empty
    string; see [clean_merchant_opt]. *)
Definition clean_merchant (raw : str) : str :=
  let s := upper (strip raw) in
  let s := sub PAYPAL_PREFIX [] s in
  let s := sub NOT_KEPT (chars " ") s in
  let s := sub CARD_SUFFIX [] s in
  let s := sub (literal (chars ".COM")) [] s in
  strip (sub MULTISPACE (chars " ") s).

Definition clean_merchant_opt (raw : option str) : str :=
  clean_merchant (match raw with Some r => r | None => [] end).

(** [canonical_hint(cleaned)]. *)
Definition canonical_hint (cleaned : str) : str :=
  if contains (chars "NETFLIX") cleaned then chars "NETFLIX"
  else if contains (chars "SPOTIFY") cleaned then chars "SPOTIFY"
  else if contains (chars "AMAZON") cleaned then chars "AMAZON"
  else firstn 255 cleaned.

End Normalize.

(* ================================================================== *)
(** * core/recurring.py *)
(* ================================================================== *)

Module Recurring.
Import Stats.
Local Open Scope Z_scope.

(** A [datetime], in microseconds. *)
Definition datetime := Z.

Definition SECOND : Z := 1000000.
Definition HOUR : Z := 3600 * SECOND.
Definition DAY : Z := 86400 * SECOND.

(** [timedelta.days] of the difference [b - a]: timedeltas are
    normalised with their seconds and microseconds non-negative, so
    the day count is the floor. *)
Definition delta_days (b a : datetime) : Z := (b - a) / DAY.

(** [d + timedelta(days=n)]. *)
Definition add_days (d : datetime) (n : Z) : datetime := d + n * DAY.

Definition CANDIDATE_PERIODS : list Z := [7; 14; 28; 30; 31; 365]%Z.

Record SeriesResult := mkSeriesResult {
  period_days : Z;
  amount_median : Q;
  amount_mad : Q;
  gap_median : Q;
  gap_mad : Q;
  confidence : Q;
  next_expected_at : datetime
}.

(** [min(xs, key=key)] on a non-empty list: the first element whose key
    is minimal.  [best] is the minimum so far. *)
Fixpoint min_by_from (A : Type) (key : A -> Q) (best : A) (xs : list A) : A :=
  match xs with
  | [] => best
  | x :: xs' =>
      min_by_from key (if Qltb (key x) (key best) then x else best) xs'
  end.

Definition min_by (A : Type) (key : A -> Q) (dflt : A) (xs : list A) : A :=
  match xs with
  | [] => dflt
  | x :: xs' => min_by_from key x xs'
  end.

(** [max(a, b)] and [min(a, b)] of two arguments: the first one is
    kept unless the second is strictly better. *)
Definition max2 (a b : Q) : Q := if Qltb a b then b else a.
Definition min2 (a b : Q) : Q := if Qltb b a then b else a.

(** [_nearest_period(days)]. *)
Definition _nearest_period (days : Q) : Z :=
  min_by (fun p => Qabs (inject_Z p - days)%Q) 0%Z CANDIDATE_PERIODS.

(** [[(ds[i] - ds[i-1]).days for i in range(1, len(ds))]]. *)
Fixpoint day_gaps (ds : list datetime) : list Z :=
  match ds with
  | a :: (b :: _) as tl => delta_days b a :: day_gaps tl
  | _ => []
  end.

(** [3 if period in (7, 14, 28, 30, 31) else 10]. *)
Definition tolerance (period : Z) : Z :=
  if existsb (Z.eqb period) [7; 14; 28; 30; 31]%Z then 3%Z else 10%Z.

Definition is_inlier (period : Z) (g : Z) : bool :=
  (Z.abs (g - period) <=? tolerance period)%Z.

Definition by_date (p q : datetime * Q) : bool := (fst p <=? fst q)%Z.

Definition eps : Q := (1 # 1000000)%Q.   (* 1e-6 *)

(** [amt_stability]. *)
Definition amt_stability (a_med a_mad : Q) : Q :=
  (1 / (1 + a_mad / max2 eps (Qabs a_med + eps)))%Q.

Definition qlen (A : Type) (l : list A) : Q := inject_Z (Z.of_nat (length l)).

(** [detect_recurring(dates, amounts, min_points=3)]; [None] is
    Python's [None]. *)
Definition detect_recurring (dates : list datetime) (amounts : list Q)
           (min_points : Z) : option SeriesResult :=
  if (Z.of_nat (length dates) <? min_points)%Z then None
  else
    let pairs := Py.sorted by_date (combine dates amounts) in
    let ds := map fst pairs in
    let am := map snd pairs in
    let gaps := day_gaps ds in
    match gaps with
    | [] => None
    | _ :: _ =>
        let fgaps := map inject_Z gaps in
        let gap_med := median fgaps in
        let gap_mad := mad fgaps in
        let period := _nearest_period gap_med in
        let inliers := filter (is_inlier period) gaps in
        let gap_consistency :=
          (qlen inliers / inject_Z (Z.max 1 (Z.of_nat (length gaps))))%Q in
        let a_med := median am in
        let a_mad := mad am in
        let confidence :=
          max2 0 (min2 1 ((55 # 100) * gap_consistency
                          + (45 # 100) * amt_stability a_med a_mad))%Q in
        let next_expected := add_days (last ds 0%Z) period in
        Some (mkSeriesResult period a_med a_mad gap_med gap_mad
                             confidence next_expected)
    end.

Definition default_min_points : Z := 3.

End Recurring.

(* ================================================================== *)
(** * core/anomalies.py *)
(* ================================================================== *)

Module Anomalies.
Import Str Stats Recurring.
Local Open Scope Q_scope.

(** The [dict] rows handed to the detectors. *)
Record Row := mkRow {
  txn_id : Z;
  posted_at : datetime;
  amount : Q;
  merchant : str
}.

(** ["type": "merchant_amount_anomaly"]. *)
Record MerchantAnomaly := mkMerchantAnomaly {
  ma_merchant : str;
  ma_txn_id : Z;
  ma_amount : Q;
  ma_z : Q;
  ma_baseline_median : Q;
  ma_baseline_mad : Q
}.

(** ["type": "daily_spike"]; a day is its number on the time line,
    which orders as its ISO text does. *)
Record DailySpike := mkDailySpike {
  sp_day : Z;
  sp_total : Q;
  sp_z : Q;
  sp_baseline_median : Q;
  sp_baseline_mad : Q
}.

(** ["type": "burst_small_charges"]. *)
Record Burst := mkBurst {
  bu_start : datetime;
  bu_end : datetime;
  bu_count : nat
}.

(** [by_m[k].append(t)] on a [defaultdict(list)]: keys keep the order
    of their first insertion. *)
Fixpoint group_append (d : list (str * list Row)) (k : str) (t : Row)
  : list (str * list Row) :=
  match d with
  | [] => [(k, [t])]
  | (k', rows) :: d' =>
      if str_eqb k' k then (k', rows ++ [t]) :: d'
      else (k', rows) :: group_append d' k t
  end.

Definition group_by_merchant (transactions : list Row)
  : list (str * list Row) :=
  fold_left (fun d t => group_append d (merchant t) t) transactions [].

Definition flag_row (z_thresh : Q) (m : str) (med m_mad : Q) (r : Row)
  : list MerchantAnomaly :=
  let z := robust_z (Qabs (amount r)) med m_mad in
  if Qle_bool z_thresh (Qabs z)
  then [mkMerchantAnomaly m (txn_id r) (amount r) z med m_mad]
  else [].

Definition group_anomalies (z_thresh : Q) (g : str * list Row)
  : list MerchantAnomaly :=
  let (m, rows) := g in
  if (length rows <? 8)%nat then []
  else
    let amounts := map (fun r => Qabs (amount r)) rows in
    let med := median amounts in
    let m_mad := mad amounts in
    flat_map (flag_row z_thresh m med m_mad) (firstn 80 rows).

(** [merchant_anomalies(transactions, z_thresh=4.0)]. *)
Definition merchant_anomalies (transactions : list Row) (z_thresh : Q)
  : list MerchantAnomaly :=
  flat_map (group_anomalies z_thresh) (group_by_merchant transactions).

(** [t["posted_at"].date()]. *)
Definition date_of (d : datetime) : Z := (d / DAY)%Z.

(** [by_day[day] += v] on a [defaultdict(float)]. *)
Fixpoint day_add (d : list (Z * Q)) (day : Z) (v : Q) : list (Z * Q) :=
  match d with
  | [] => [(day, 0 + v)]
  | (day', total) :: d' =>
      if (day' =? day)%Z then (day', total + v) :: d'
      else (day', total) :: day_add d' day v
  end.

Definition by_key (p q : Z * Q) : bool := (fst p <=? fst q)%Z.

(** [values[start:i]] for [0 <= start]. *)
Definition slice (A : Type) (l : list A) (start stop : nat) : list A :=
  firstn (stop - start) (skipn start l).

Definition spike_at (window_days : Z) (spike_z : Q)
           (days : list Z) (values : list Q) (i : nat) : list DailySpike :=
  let start := Z.to_nat (Z.max 0 (Z.of_nat i - window_days)) in
  let hist := slice values start i in
  let med := median hist in
  let m_mad := mad hist in
  let z := robust_z (nth i values 0) med m_mad in
  if Qle_bool spike_z z
  then [mkDailySpike (nth i days 0%Z) (nth i values 0) z med m_mad]
  else [].

(** [daily_spike_anomalies(transactions, window_days=60, spike_z=4.0)].
    [sorted(by_day.keys())] with its totals is the table sorted by
    day, the keys of a dict being distinct. *)
Definition daily_spike_anomalies (transactions : list Row)
           (window_days : Z) (spike_z : Q) : list DailySpike :=
  let by_day :=
    fold_left (fun d t => day_add d (date_of (posted_at t)) (Qabs (amount t)))
              transactions [] in
  let table := Py.sorted by_key by_day in
  let days := map fst table in
  if (length days <? 14)%nat then []
  else
    let values := map snd table in
    flat_map (spike_at window_days spike_z days values)
             (seq 7 (length days - 7)).

Definition by_posted_at (a b : Row) : bool :=
  (posted_at a <=? posted_at b)%Z.

Definition MINUTE : Z := (60 * SECOND)%Z.

Section Burst.
Variable tx : list Row.
Variable amount_max : Q.
Variable window_minutes : Z.
Variable count_min : positive.

Definition at_ (i : nat) : datetime := nth i (map posted_at tx) 0%Z.

(** The inner [while]: [j] moves up while transaction [j] lies more
    than the window before transaction [i], and stops at [i] at the
    latest.  It runs at most [i + 1] times. *)
Fixpoint advance (fuel i j : nat) : nat :=
  match fuel with
  | O => j
  | S fuel' =>
      if (window_minutes * MINUTE <? at_ i - at_ j)%Z
      then
        let j' := S j in
        if (i <=? j')%nat then j' else advance fuel' i j'
      else j
  end.

(** One round of the [for] loop; the state is [j] and [out]. *)
Definition burst_step (st : nat * list Burst) (i : nat)
  : nat * list Burst :=
  let (j, out) := st in
  let j := advance (S i) i j in
  let window := slice tx j (i + 1) in
  let small :=
    filter (fun t => Qle_bool (Qabs (amount t)) amount_max) window in
  if (Pos.to_nat count_min <=? length small)%nat
  then (S i,
        out ++ [mkBurst (hd 0%Z (map posted_at window))
                        (last (map posted_at window) 0%Z)
                        (length small)])
  else (j, out).
End Burst.

(** [burst_small_charges(transactions, amount_max=5.0,
    window_minutes=30, count_min=5)], for [count_min >= 1]: a flagged
    window then has a first and a last transaction. *)
Definition burst_small_charges (transactions : list Row) (amount_max : Q)
           (window_minutes : Z) (count_min : positive) : list Burst :=
  let tx := Py.sorted by_posted_at transactions in
  snd (fold_left (burst_step tx amount_max window_minutes count_min)
                 (seq 0 (length tx)) (0%nat, [])).

End Anomalies.

(* ================================================================== *)
(** * db/models.py *)
(* ================================================================== *)

(** One module per mapped class; the columns keep their names.  The
    columns [created_at] (a clock reading) and [Event.title] (a rendering
    of values that the evidence holds as well) are left out; the
    evidence, stored as JSON text, is kept as the value it encodes. *)

Module Transaction.
Record t := mk {
  id : Z;
  posted_at : Recurring.datetime;
  amount : Q;
  currency : Str.str;
  description_raw : Str.str;
  account_id : Str.str;
  source_file_id : Z;
  merchant_id : option Z;
  hash_dedupe : Str.str
}.

Definition with_merchant_id (x : t) (m : option Z) : t :=
  mk (id x) (posted_at x) (amount x) (currency x) (description_raw x)
     (account_id x) (source_file_id x) m (hash_dedupe x).
End Transaction.

Module Merchant.
Record t := mk {
  id : Z;
  canonical_name : Str.str
}.
End Merchant.

Module MerchantAlias.
Record t := mk {
  id : Z;
  merchant_id : Z;
  pattern : Str.str;
  pattern_type : Str.str;
  confidence : Q
}.
End MerchantAlias.

Module RecurringSeries.
Record t := mk {
  id : Z;
  merchant_id : Z;
  period_days : Z;
  amount_median : Q;
  amount_mad : Q;
  gap_median : Q;
  gap_mad : Q;
  confidence : Q;
  last_txn_id : Z;
  next_expected_at : Recurring.datetime;
  status : Str.str
}.
End RecurringSeries.

Module Event.
Inductive type_ :=
| new_subscription_detected
| price_change
| possible_duplicate
| spend_anomaly
| daily_spike
| burst_small_charges.

Inductive severity_ := info | warn | high.

(** A [{"date": ..., "amount": ...}] entry. *)
Definition point : Type := Recurring.datetime * Q.

(** A [{"date": ..., "amount": ..., "txn_id": ...}] entry. *)
Definition charge : Type := Recurring.datetime * Q * Z.

(** The [evidence] dict of each call of [add_event]. *)
Inductive evidence_ :=
| ev_new_subscription (merchant : Str.str) (period_days : Z)
                      (confidence : Q) (last_n : list point)
| ev_price_change (baseline_median last_amount : Q) (last_n : list point)
| ev_duplicate (a b : charge)
| ev_merchant_anomaly (a : Anomalies.MerchantAnomaly)
| ev_daily_spike (a : Anomalies.DailySpike)
| ev_burst (a : Anomalies.Burst).

Record t := mk {
  id : Z;
  type : type_;
  severity : severity_;
  merchant_id : option Z;
  series_id : option Z;
  txn_id : option Z;
  evidence : evidence_;
  is_dismissed : bool
}.

Definition type_eqb (a b : type_) : bool :=
  match a, b with
  | new_subscription_detected, new_subscription_detected
  | price_change, price_change
  | possible_duplicate, possible_duplicate
  | spend_anomaly, spend_anomaly
  | daily_spike, daily_spike
  | burst_small_charges, burst_small_charges => true
  | _, _ => false
  end.
End Event.

(* ================================================================== *)
(** * db/repo.py and privacy/encryption.py *)
(* ================================================================== *)

Module Repo.
Import Str Recurring.
Local Open Scope Z_scope.

(** What the engine takes from libraries outside the repository:
    [rapidfuzz.fuzz.ratio] and the AES-GCM decryption behind
    [decrypt_str(key, ciphertext)]. *)
Record Externals := mkExternals {
  fuzz_ratio : str -> str -> Q;
  decrypt_str : str -> str -> str
}.

(** The state behind a [Repo]: the encryption context and the tables of
    the session, each in row order.  [id] is the primary key of every
    table. *)
Record t := mk {
  crypto_key : option str;
  transactions : list Transaction.t;
  merchants : list Merchant.t;
  aliases : list MerchantAlias.t;
  series : list RecurringSeries.t;
  events : list Event.t
}.

Definition set_transactions (r : t) (x : list Transaction.t) : t :=
  mk (crypto_key r) x (merchants r) (aliases r) (series r) (events r).
Definition set_merchants (r : t) (x : list Merchant.t) : t :=
  mk (crypto_key r) (transactions r) x (aliases r) (series r) (events r).
Definition set_series (r : t) (x : list RecurringSeries.t) : t :=
  mk (crypto_key r) (transactions r) (merchants r) (aliases r) x (events r).
Definition set_events (r : t) (x : list Event.t) : t :=
  mk (crypto_key r) (transactions r) (merchants r) (aliases r) (series r) x.

(** The key SQLite gives a new row of an [INTEGER PRIMARY KEY] column:
    one more than the largest key in the table. *)
Definition next_id (ids : list Z) : Z := 1 + fold_right Z.max 0 ids.

(** [maybe_decrypt(key, s)]. *)
Definition maybe_decrypt (X : Externals) (key : option str) (s : str) : str :=
  if negb (startswith s (chars "enc:")) then s
  else
    match key with
    | None => chars "<encrypted>"
    | Some k => decrypt_str X k s
    end.

Definition decrypt_field (X : Externals) (r : t) (ciphertext : str) : str :=
  maybe_decrypt X (crypto_key r) ciphertext.

Definition by_name (a b : Merchant.t) : bool :=
  str_leb (Merchant.canonical_name a) (Merchant.canonical_name b).

(** [select(Merchant).order_by(Merchant.canonical_name)]. *)
Definition list_merchants (r : t) : list Merchant.t :=
  Py.sorted by_name (merchants r).

Definition list_aliases (r : t) : list MerchantAlias.t := aliases r.

Definition newest_first (a b : Transaction.t) : bool :=
  Transaction.posted_at b <=? Transaction.posted_at a.

(** [order_by(Transaction.posted_at.desc()).limit(limit)]; rows with
    equal time stamps are listed in row order. *)
Definition list_transactions (r : t) (limit : nat) : list Transaction.t :=
  firstn limit (Py.sorted newest_first (transactions r)).

Definition has_merchant (merchant_id : Z) (x : Transaction.t) : bool :=
  match Transaction.merchant_id x with
  | Some m => m =? merchant_id
  | None => false
  end.

Definition list_transactions_for_merchant (r : t) (merchant_id : Z)
           (limit : nat) : list Transaction.t :=
  firstn limit
    (Py.sorted newest_first (filter (has_merchant merchant_id) (transactions r))).

(** [get_or_create_merchant(canonical_name)], with the merchant. *)
Definition get_or_create_merchant (r : t) (canonical_name : str)
  : t * Merchant.t :=
  let canonical_name := upper (strip canonical_name) in
  match find (fun m => str_eqb (Merchant.canonical_name m) canonical_name)
             (merchants r) with
  | Some m => (r, m)
  | None =>
      let m := Merchant.mk (next_id (map Merchant.id (merchants r)))
                           canonical_name in
      (set_merchants r (merchants r ++ [m]), m)
  end.

(** [set_txn_merchant(txn_id, merchant_id)]. *)
Definition set_txn_merchant (r : t) (txn_id : Z) (merchant_id : option Z) : t :=
  set_transactions r
    (map (fun x => if Transaction.id x =? txn_id
                   then Transaction.with_merchant_id x merchant_id
                   else x)
         (transactions r)).

(** [clear_recurring_and_events()]. *)
Definition clear_recurring_and_events (r : t) : t :=
  set_series (set_events r []) [].

(** [upsert_series(...)], with the id of the new row. *)
Definition upsert_series (r : t) (merchant_id : Z) (res : SeriesResult)
           (last_txn_id : Z) (status : str) : t * Z :=
  let kept :=
    filter (fun rs => negb (RecurringSeries.merchant_id rs =? merchant_id))
           (series r) in
  let rs :=
    RecurringSeries.mk (next_id (map RecurringSeries.id kept)) merchant_id
      (period_days res) (amount_median res) (amount_mad res)
      (gap_median res) (gap_mad res) (confidence res)
      last_txn_id (next_expected_at res) status in
  (set_series r (kept ++ [rs]), RecurringSeries.id rs).

(** [add_event(type_, severity, title, evidence, merchant_id, series_id,
    txn_id)]; the returned id is used by no caller. *)
Definition add_event (r : t) (type_ : Event.type_)
           (severity : Event.severity_) (evidence : Event.evidence_)
           (merchant_id series_id txn_id : option Z) : t :=
  let ev :=
    Event.mk (next_id (map Event.id (events r))) type_ severity
             merchant_id series_id txn_id evidence false in
  set_events r (events r ++ [ev]).

(** [dismiss_event(event_id, dismissed=True)]. *)
Definition dismiss_event (r : t) (event_id : Z) (dismissed : bool) : t :=
  set_events r
    (map (fun e =>
            if Event.id e =? event_id
            then Event.mk (Event.id e) (Event.type e) (Event.severity e)
                   (Event.merchant_id e) (Event.series_id e)
                   (Event.txn_id e) (Event.evidence e) dismissed
            else e)
         (events r)).

End Repo.

(* ================================================================== *)
(** * core/engine.py *)
(* ================================================================== *)

Module Engine.
Import Str Stats Normalize Recurring.
Local Open Scope Z_scope.

Section WithExternals.
Variable X : Repo.Externals.

(** The [for a in aliases] loop; the first alias that matches decides. *)
Fixpoint alias_match (aliases : list MerchantAlias.t) (cleaned : str)
  : option Z :=
  match aliases with
  | [] => None
  | a :: rest =>
      let pat := upper (MerchantAlias.pattern a) in
      if str_eqb (MerchantAlias.pattern_type a) (chars "contains")
         && contains pat cleaned
      then Some (MerchantAlias.merchant_id a)
      else if str_eqb (MerchantAlias.pattern_type a) (chars "exact")
              && str_eqb pat cleaned
      then Some (MerchantAlias.merchant_id a)
      else alias_match rest cleaned
  end.

(** The [for m in merchants] loop on the canonical hint. *)
Definition hint_match (merchants : list Merchant.t) (hint : str)
  : option Z :=
  option_map Merchant.id
    (find (fun m => str_eqb (Merchant.canonical_name m) hint) merchants).

(** [process.extractOne(query, choices, scorer=fuzz.ratio)]: the
    first choice of the highest score with its score, [None] when
    there is no choice. *)
Fixpoint extractOne_from (query : str) (best : str * Q)
         (choices : list str) : str * Q :=
  match choices with
  | [] => best
  | c :: rest =>
      let sc := Repo.fuzz_ratio X query c in
      extractOne_from query (if Qltb (snd best) sc then (c, sc) else best)
                      rest
  end.

Definition extractOne (query : str) (choices : list str)
  : option (str * Q) :=
  match choices with
  | [] => None
  | c :: rest =>
      Some (extractOne_from query (c, Repo.fuzz_ratio X query c) rest)
  end.

(** The fuzzy step: [merchants[merchant_names.index(match[0])].id] is
    the id of the first merchant carrying the matched name. *)
Definition fuzzy_match (merchants : list Merchant.t) (hint : str)
           (fuzzy_threshold : Q) : option Z :=
  match extractOne hint (map Merchant.canonical_name merchants) with
  | Some (name, score) =>
      if Qle_bool fuzzy_threshold score
      then hint_match merchants name
      else None
  | None => None
  end.

(** The body of the loop of [resolve_merchants] up to the choice:
    alias, hint, fuzzy match, creation. *)
Definition choose (aliases : list MerchantAlias.t)
           (merchants : list Merchant.t) (fuzzy_threshold : Q)
           (repo : Repo.t) (cleaned : str) : Repo.t * option Z :=
  match alias_match aliases cleaned with
  | Some chosen => (repo, Some chosen)
  | None =>
      let hint := canonical_hint cleaned in
      match hint_match merchants hint with
      | Some chosen => (repo, Some chosen)
      | None =>
          match fuzzy_match merchants hint fuzzy_threshold with
          | Some chosen => (repo, Some chosen)
          | None =>
              match cleaned with
              | [] => (repo, None)
              | _ :: _ =>
                  let (repo', m) := Repo.get_or_create_merchant repo hint in
                  (repo', Some (Merchant.id m))
              end
          end
      end
  end.

Definition same_merchant (a b : option Z) : bool :=
  match a, b with
  | Some x, Some y => x =? y
  | None, None => true
  | _, _ => false
  end.

(** One round of the loop over the transactions; the state is the
    repository and the counter [updated]. *)
Definition resolve_step (aliases : list MerchantAlias.t)
           (merchants : list Merchant.t) (fuzzy_threshold : Q)
           (st : Repo.t * nat) (t : Transaction.t) : Repo.t * nat :=
  let (repo, updated) := st in
  let raw := Repo.decrypt_field X repo (Transaction.description_raw t) in
  let cleaned := clean_merchant raw in
  let (repo, chosen) :=
    choose aliases merchants fuzzy_threshold repo cleaned in
  if same_merchant (Transaction.merchant_id t) chosen
  then (repo, updated)
  else (Repo.set_txn_merchant repo (Transaction.id t) chosen, S updated).

(** [resolve_merchants(repo, fuzzy_threshold=92)], with the number of
    assignments written (the value that is logged). *)
Definition resolve_merchants (repo : Repo.t) (fuzzy_threshold : Q)
  : Repo.t * nat :=
  let aliases := Repo.list_aliases repo in
  let merchants := Repo.list_merchants repo in
  let txns := Repo.list_transactions repo 200000 in
  fold_left (resolve_step aliases merchants fuzzy_threshold) txns
            (repo, 0%nat).

Definition default_fuzzy_threshold : Q := 92.

(** An entry of [series_rows]. *)
Definition series_row : Type :=
  Merchant.t * Z * SeriesResult * list Transaction.t.

(** One round of the loop of [recompute] over the merchants. *)
Definition series_step (st : Repo.t * list series_row) (m : Merchant.t)
  : Repo.t * list series_row :=
  let (repo, series_rows) := st in
  let tx :=
    rev (Repo.list_transactions_for_merchant repo (Merchant.id m) 10000) in
  if (length tx <? 3)%nat then st
  else
    let dates := map Transaction.posted_at tx in
    let amounts := map Transaction.amount tx in
    match detect_recurring dates amounts 3 with
    | None => st
    | Some res =>
        let last_txn_id := last (map Transaction.id tx) 0 in
        let (repo', series_id) :=
          Repo.upsert_series repo (Merchant.id m) res last_txn_id
                             (chars "active") in
        (repo', series_rows ++ [(m, series_id, res, tx)])
    end.

Definition point_of (t : Transaction.t) : Event.point :=
  (Transaction.posted_at t, Transaction.amount t).

Definition charge_of (t : Transaction.t) : Event.charge :=
  (Transaction.posted_at t, Transaction.amount t, Transaction.id t).

(** [tx[-n:]] for [n > 0]. *)
Definition lastn (A : Type) (n : nat) (l : list A) : list A :=
  skipn (length l - n) l.

Definition last_id (tx : list Transaction.t) : Z :=
  last (map Transaction.id tx) 0.

(** "New subscription detected". *)
Definition new_subscription (now : datetime) (repo : Repo.t)
           (row : series_row) : Repo.t :=
  let '(m, series_id, res, tx) := row in
  if (3 <=? length tx)%nat
     && (now - last (map Transaction.posted_at tx) 0 <=? 90 * DAY)
  then
    Repo.add_event repo Event.new_subscription_detected Event.info
      (Event.ev_new_subscription (Merchant.canonical_name m)
         (period_days res) (confidence res) (map point_of (lastn 6 tx)))
      (Some (Merchant.id m)) (Some series_id) (Some (last_id tx))
  else repo.

(** "Price change". *)
Definition price_change (repo : Repo.t) (row : series_row) : Repo.t :=
  let '(m, series_id, res, tx) := row in
  if (5 <=? length tx)%nat
  then
    let prev := map Transaction.amount (lastn 6 (removelast tx)) in
    let base := median prev in
    let last_ := last (map Transaction.amount tx) 0%Q in
    if Qltb (max2 ((10 # 100) * Qabs base) 2) (Qabs (last_ - base))%Q
    then
      Repo.add_event repo Event.price_change Event.warn
        (Event.ev_price_change base last_ (map point_of (lastn 8 tx)))
        (Some (Merchant.id m)) (Some series_id) (Some (last_id tx))
    else repo
  else repo.

(** The test on the pair [a], [b] of "Duplicate billing". *)
Definition is_duplicate (a b : Transaction.t) : bool :=
  Qle_bool
    (Qabs (inject_Z (Transaction.posted_at b - Transaction.posted_at a)
           / inject_Z SECOND))
    (36 * 3600)
  && Qle_bool (Qabs (Transaction.amount b - Transaction.amount a))
              (max2 ((2 # 100) * Qabs (Transaction.amount a)) 1).

Definition duplicate_at (m : Merchant.t) (series_id : Z)
           (tx : list Transaction.t) (repo : Repo.t) (i : nat) : Repo.t :=
  match nth_error tx i, nth_error tx (S i) with
  | Some a, Some b =>
      if is_duplicate a b
      then
        Repo.add_event repo Event.possible_duplicate Event.warn
          (Event.ev_duplicate (charge_of a) (charge_of b))
          (Some (Merchant.id m)) (Some series_id)
          (Some (Transaction.id b))
      else repo
  | _, _ => repo
  end.

(** "Duplicate billing":
    [for i in range(max(0, len(tx) - 10), len(tx) - 1)]. *)
Definition duplicates (repo : Repo.t) (row : series_row) : Repo.t :=
  let '(m, series_id, res, tx) := row in
  let start := (length tx - 10)%nat in
  let stop := (length tx - 1)%nat in
  fold_left (duplicate_at m series_id tx) (seq start (stop - start)) repo.

(** [_events_for_series(repo, series_rows)]; [now] is the reading of
    [datetime.utcnow()]. *)
Definition _events_for_series (now : datetime) (repo : Repo.t)
           (series_rows : list series_row) : Repo.t :=
  fold_left
    (fun repo row =>
       duplicates (price_change (new_subscription now repo row) row) row)
    series_rows repo.

(** [merchants.get(t.merchant_id or -1, "UNKNOWN")] on the dict
    [{m.id: m.canonical_name for m in repo.list_merchants()}], in
    which a later entry replaces an earlier one of the same key. *)
Definition merchant_name (merchants : list Merchant.t)
           (merchant_id : option Z) : str :=
  let key :=
    match merchant_id with
    | Some k => if k =? 0 then -1 else k
    | None => -1
    end in
  match find (fun m => Merchant.id m =? key) (rev merchants) with
  | Some m => Merchant.canonical_name m
  | None => chars "UNKNOWN"
  end.

Definition anomaly_rows (repo : Repo.t) : list Anomalies.Row :=
  let txns := Repo.list_transactions repo 200000 in
  let merchants := Repo.list_merchants repo in
  map (fun t =>
         Anomalies.mkRow (Transaction.id t) (Transaction.posted_at t)
           (Transaction.amount t)
           (merchant_name merchants (Transaction.merchant_id t)))
      txns.

(** [_events_for_anomalies(repo)]. *)
Definition _events_for_anomalies (repo : Repo.t) : Repo.t :=
  let rows := anomaly_rows repo in
  let repo :=
    fold_left
      (fun repo a =>
         Repo.add_event repo Event.spend_anomaly Event.warn
           (Event.ev_merchant_anomaly a) None None
           (Some (Anomalies.ma_txn_id a)))
      (firstn 200 (Anomalies.merchant_anomalies rows 4)) repo in
  let repo :=
    fold_left
      (fun repo a =>
         Repo.add_event repo Event.daily_spike Event.info
           (Event.ev_daily_spike a) None None None)
      (firstn 200 (Anomalies.daily_spike_anomalies rows 60 4)) repo in
  fold_left
    (fun repo a =>
       Repo.add_event repo Event.burst_small_charges Event.high
         (Event.ev_burst a) None None None)
    (firstn 50 (Anomalies.burst_small_charges rows 5 30 5)) repo.

(** The first half of [recompute]: resolution, clearing, and the loop
    that detects and stores the series. *)
Definition detect_series (repo : Repo.t) : Repo.t * list series_row :=
  let repo := fst (resolve_merchants repo default_fuzzy_threshold) in
  let repo := Repo.clear_recurring_and_events repo in
  let merchants := Repo.list_merchants repo in
  fold_left series_step merchants (repo, []).

(** [recompute(repo)]. *)
Definition recompute (now : datetime) (repo : Repo.t) : Repo.t :=
  let (repo, series_rows) := detect_series repo in
  let repo := _events_for_series now repo series_rows in
  _events_for_anomalies repo.

End WithExternals.

End Engine.

(* ================================================================== *)
(** * Libraries and sample data *)
(* ================================================================== *)

(** [rapidfuzz.fuzz.ratio]: the normalised Indel similarity of two
    strings on the scale 0..100, that is [200 * lcs / (len a + len b)]
    with [lcs] the length of a longest common subsequence, and 100 for
    two empty strings. *)
Module Rapidfuzz.
Import Str.

(** One row of the table of the longest common subsequence: [up] is
    the row above from the current column on, [diag] the entry above to
    the left, [left] the entry to the left. *)
Fixpoint lcs_row (x : ascii) (b : str) (up : list nat) (diag left : nat)
  : list nat :=
  match b, up with
  | y :: b', u :: up' =>
      let v := if Ascii.eqb x y then S diag else Nat.max u left in
      v :: lcs_row x b' up' u v
  | _, _ => []
  end.

Definition lcs (a b : str) : nat :=
  last (fold_left (fun row x => O :: lcs_row x b (tl row) O O) a
                  (repeat O (S (length b)))) O.

Definition ratio (a b : str) : Q :=
  match (length a + length b)%nat with
  | O => 100
  | S n => inject_Z (Z.of_nat (200 * lcs a b)) / inject_Z (Z.of_nat (S n))
  end.
End Rapidfuzz.

Module Samples.
Import Str Recurring.
Local Open Scope Z_scope.

(** No key is loaded and fields are stored in the clear. *)
Definition externals : Repo.Externals :=
  Repo.mkExternals Rapidfuzz.ratio (fun _ s => s).

Definition txn (id : Z) (posted_at : datetime) (amount : Q)
           (description : string) (merchant_id : option Z) : Transaction.t :=
  Transaction.mk id posted_at amount (chars "USD") (chars description) []
                 1 merchant_id [].

(** A ledger on which a second resolution differs from the first. *)
Definition roaster : Repo.t :=
  Repo.mk None
    [ txn 1 (10 * DAY) (-12 # 1) "Quick Brown Fox Coffee Roaster Ltd" None;
      txn 2 (11 * DAY) (-15 # 1) "Quick Brown Fox Coffee Roaster Ltd USA" None ]
    [ Merchant.mk 1 (chars "QUICK BROWN FOX COFFEE ROASTER") ]
    [] [] [].

(** A merchant with exactly two charges, two hours apart, same amount. *)
Definition two_charges : Repo.t :=
  Repo.mk None
    [ txn 1 (100 * DAY) (-999 # 100) "ACME GYM" (Some 1);
      txn 2 (100 * DAY + 2 * HOUR) (-999 # 100) "ACME GYM" (Some 1) ]
    [ Merchant.mk 1 (chars "ACME GYM") ]
    [] [] [].

(** A merchant with three charges at irregular dates and amounts. *)
Definition erratic : Repo.t :=
  Repo.mk None
    [ txn 1 (100 * DAY) (-1 # 1) "CORNER SHOP" (Some 1);
      txn 2 (103 * DAY) (-500 # 1) "CORNER SHOP" (Some 1);
      txn 3 (300 * DAY) (-20 # 1) "CORNER SHOP" (Some 1) ]
    [ Merchant.mk 1 (chars "CORNER SHOP") ]
    [] [] [].

(** The merchant and the two charges of [two_charges], and a series
    result to go with them in a series row. *)
Definition gym : Merchant.t := Merchant.mk 1 (chars "ACME GYM").

Definition charge_a : Transaction.t :=
  txn 1 (100 * DAY) (-999 # 100) "ACME GYM" (Some 1).

Definition charge_b : Transaction.t :=
  txn 2 (100 * DAY + 2 * HOUR) (-999 # 100) "ACME GYM" (Some 1).

Definition weekly : SeriesResult := mkSeriesResult 7 0 0 0 0 0 0.

Definition now : datetime := 301 * DAY.

(** The one event that a recompute of [erratic] leaves. *)
Definition detected_event : Event.t :=
  Event.mk 1 Event.new_subscription_detected Event.info
    (Some 1) (Some 1) (Some 3)
    (Event.ev_new_subscription (chars "CORNER SHOP") 31
       (1800000090000000 # 9633880200000000)
       [(100 * DAY, -1 # 1); (103 * DAY, -500 # 1); (300 * DAY, -20 # 1)])
    false.

(** The ledger [erratic] after a recompute, and with the one event of
    that recompute dismissed by the user. *)
Definition once : Repo.t := Engine.recompute externals now erratic.

Definition dismissed : Repo.t := Repo.dismiss_event once 1 true.

Definition dismissed_event : Event.t :=
  Event.mk 1 Event.new_subscription_detected Event.info
    (Some 1) (Some 1) (Some 3)
    (Event.ev_new_subscription (chars "CORNER SHOP") 31
       (1800000090000000 # 9633880200000000)
       [(100 * DAY, -1 # 1); (103 * DAY, -500 # 1); (300 * DAY, -20 # 1)])
    true.

(** The charges of [erratic] before any resolution. *)
Definition unresolved : Repo.t :=
  Repo.mk None
    [ txn 1 (100 * DAY) (-1 # 1) "Corner Shop" None;
      txn 2 (103 * DAY) (-500 # 1) "corner  shop" None;
      txn 3 (300 * DAY) (-20 # 1) "CORNER SHOP" None ]
    [ Merchant.mk 1 (chars "CORNER SHOP") ]
    [] [] [].

(** [roaster] after one resolution, and after a second one. *)
Definition roaster_once : Repo.t :=
  fst (Engine.resolve_merchants externals roaster 92).

Definition roaster_twice : Repo.t :=
  fst (Engine.resolve_merchants externals roaster_once 92).

End Samples.


(* ================================================================== *)
(** * The postconditions of the series detector, in the words of the
      specification *)
(* ================================================================== *)

Module DetectSpec.
Import Stats Recurring.
Local Open Scope Q_scope.

Definition distance (p : Z) (m : Q) : Q := Qabs (inject_Z p - m).

(** [p] is the candidate nearest to [m] by absolute difference, and the
    first listed among the nearest ones. *)
Definition nearest_candidate (m : Q) (p : Z) : Prop :=
  exists before after : list Z,
    CANDIDATE_PERIODS = before ++ p :: after
    /\ (forall x, In x before -> distance p m < distance x m)
    /\ (forall x, In x after -> distance p m <= distance x m).

(** Three days for the periods 7, 14, 28, 30 and 31, ten days for 365. *)
Definition tolerance_of (p : Z) : Z := if (p =? 365)%Z then 10%Z else 3%Z.

Definition within (p : Z) (g : Z) : bool :=
  (Z.abs (g - p) <=? tolerance_of p)%Z.

(** The fraction of the gaps within the tolerance of the period. *)
Definition gap_consistency (p : Z) (gaps : list Z) : Q :=
  inject_Z (Z.of_nat (length (filter (within p) gaps)))
  / inject_Z (Z.of_nat (length gaps)).





End DetectSpec.

(* ================================================================== *)
(** * Monthly observations *)
(* ================================================================== *)

Module Calendar.
Import Recurring.
Local Open Scope Z_scope.







End Calendar.

(* ================================================================== *)
(** * Groups and baselines of the amount detector *)
(* ================================================================== *)

Module AnomalySpec.
Import Str Stats Anomalies.

(** The rows of the merchant [k] in stored order. *)
Definition rows_of (k : str) (transactions : list Row) : list Row :=
  filter (fun t => str_eqb (merchant t) k) transactions.

(** What the grouping loop keeps true: after the transactions [seen] the
    dict holds, for each merchant that occurred, its rows in order. *)
Definition grouped (d : list (str * list Row)) (seen : list Row) : Prop :=
  NoDup (map fst d)
  /\ forall k rows, In (k, rows) d <-> rows = rows_of k seen /\ rows <> [].

(** The baseline of a merchant: median and scaled MAD of the absolute
    amounts of all its rows. *)
Definition baseline_median (rows : list Row) : Q :=
  median (map (fun r => Qabs (amount r)) rows).

Definition baseline_mad (rows : list Row) : Q :=
  mad (map (fun r => Qabs (amount r)) rows).

End AnomalySpec.

(* ================================================================== *)
(** * Shapes of text for the normalizer *)
(* ================================================================== *)

Module NormalizeSpec.
Import Str.

(** A run of white space, possibly empty. *)
Definition spaces (ws : str) : Prop := Forall (fun c => is_space c = true) ws.

Definition no_space_first (s : str) : Prop :=
  forall c, hd_error s = Some c -> is_space c = false.

End NormalizeSpec.

(* ================================================================== *)
(** * Vocabulary for the properties of the engine *)
(* ================================================================== *)

Module EngineSpec.
Import Str.

(** The number of transactions assigned to a merchant. *)
Definition txn_count (repo : Repo.t) (merchant_id : Z) : nat :=
  length (filter (Repo.has_merchant merchant_id) (Repo.transactions repo)).

(** The merchant has a series row of status "active". *)
Definition has_active_series (repo : Repo.t) (merchant_id : Z) : Prop :=
  exists rs : RecurringSeries.t,
    In rs (Repo.series repo)
    /\ RecurringSeries.merchant_id rs = merchant_id
    /\ RecurringSeries.status rs = chars "active".

(** The ledger: what a repository holds besides its derived state. *)
Definition ledger (repo : Repo.t) : Repo.t :=
  Repo.set_series (Repo.set_events repo []) [].

(** Every event is undismissed. *)
Definition all_open (repo : Repo.t) : Prop :=
  forall e, In e (Repo.events repo) -> Event.is_dismissed e = false.

(** The number of events of a type. *)
Definition count_type (ty : Event.type_) (events : list Event.t) : nat :=
  length (filter (fun e => Event.type_eqb (Event.type e) ty) events).

(** The choice of the resolver for the transaction [t]: what the body of
    its loop computes before it compares and writes. *)
Definition cleaned_of (X : Repo.Externals) (repo : Repo.t)
           (t : Transaction.t) : str :=
  Normalize.clean_merchant
    (Repo.decrypt_field X repo (Transaction.description_raw t)).

Definition pick (X : Repo.Externals) (aliases : list MerchantAlias.t)
           (merchants : list Merchant.t) (thr : Q) (repo : Repo.t)
           (t : Transaction.t) : option Z :=
  snd (Engine.choose X aliases merchants thr repo (cleaned_of X repo t)).

(** The row [x] after a run of the resolver over the transactions [l]
    that created no merchant: a row that was visited carries the choice
    made for it. *)
Definition reassign (X : Repo.Externals) (aliases : list MerchantAlias.t)
           (merchants : list Merchant.t) (thr : Q) (repo : Repo.t)
           (l : list Transaction.t) (x : Transaction.t) : Transaction.t :=
  if existsb (fun t => (Transaction.id t =? Transaction.id x)%Z) l
  then Transaction.with_merchant_id x (pick X aliases merchants thr repo x)
  else x.

(** The write of [set_txn_merchant] on one row. *)
Definition assign (txn_id : Z) (merchant_id : option Z) (x : Transaction.t)
  : Transaction.t :=
  if (Transaction.id x =? txn_id)%Z
  then Transaction.with_merchant_id x merchant_id
  else x.

(** From [r] to [r'] events were added at the end, each satisfying [ok],
    and nothing else changed. *)
Definition appends (ok : Event.t -> Prop) (r r' : Repo.t) : Prop :=
  exists added : list Event.t,
    r' = Repo.set_events r (Repo.events r ++ added) /\ Forall ok added.

(** An event is undismissed and, where it names a merchant, names one
    that satisfies [P]. *)
Definition open_for (P : Z -> Prop) (e : Event.t) : Prop :=
  Event.is_dismissed e = false
  /\ forall mid, Event.merchant_id e = Some mid -> P mid.

(** The merchant of a series row. *)
Definition row_merchant (row : Engine.series_row) : Merchant.t :=
  let '(m, _, _, _) := row in m.

(** What the loop of [recompute] over the merchants keeps true, from
    the cleared repository [r0] on: the ledger and the (empty) event table
    stay, every series row belongs to a merchant with at least three
    transactions, and every such merchant among those [done] has an
    active series. *)
Definition series_loop_inv (r0 : Repo.t) (done : list Merchant.t)
           (st : Repo.t * list Engine.series_row) : Prop :=
  Repo.transactions (fst st) = Repo.transactions r0
  /\ Repo.merchants (fst st) = Repo.merchants r0
  /\ Repo.events (fst st) = Repo.events r0
  /\ (forall row, In row (snd st) ->
                  (3 <= txn_count r0 (Merchant.id (row_merchant row)))%nat)
  /\ (forall m, In m done -> (3 <= txn_count r0 (Merchant.id m))%nat ->
                has_active_series (fst st) (Merchant.id m)).

End EngineSpec.

(* ================================================================== *)
(** * Vocabulary for the series detector *)
(* ================================================================== *)

Module RecurringSpec.
Import Recurring.


End RecurringSpec.

Module MoreSamples.
Import Recurring.
Local Open Scope Z_scope.

(** What the detector returns for three weekly charges of 5. *)
Definition weekly_fives : SeriesResult :=
  mkSeriesResult 7 5 (0 # 10000) (14 # 2) (0 # 80000) 1 (21 * DAY).

End MoreSamples.

(* ================================================================== *)
(** * The shape of a cleaned merchant name *)
(* ================================================================== *)

Module NormalForm.
Import Str Normalize.

(** A character of a cleaned name: a capital letter, a digit, the blank,
    [&], [.] or [-]. *)
Definition name_char (c : ascii) : bool :=
  is_AZ c || is_digit c || Ascii.eqb c " " || Ascii.eqb c "&"
  || Ascii.eqb c "." || Ascii.eqb c "-".

(** No white space is followed by white space. *)
Fixpoint separated (s : str) : Prop :=
  match s with
  | a :: (b :: _) as s' =>
      (is_space a = true -> is_space b = false) /\ separated s'
  | _ => True
  end.

(** [CARD_SUFFIX] without its first alternative, that is the pattern
    [(?i)\s*CARD\s*\d{2,6}\s*$], tried at one position. *)
Definition CARD_WORD_SUFFIX (_ : option ascii) (s : str) : option nat :=
  match strip_prefix_ci (chars "CARD") (drop_while is_space s) with
  | Some s2 =>
      match digits_2_6 (drop_while is_space s2) with
      | Some s3 =>
          match drop_while is_space s3 with
          | [] => Some (length s)
          | _ :: _ => None
          end
      | None => None
      end
  | None => None
  end.

(** [clean_merchant] with [CARD_WORD_SUFFIX] in the place of
    [CARD_SUFFIX]. *)
Definition clean_merchant_card_word (raw : str) : str :=
  let s := upper (strip raw) in
  let s := sub PAYPAL_PREFIX [] s in
  let s := sub NOT_KEPT (chars " ") s in
  let s := sub CARD_WORD_SUFFIX [] s in
  let s := sub (literal (chars ".COM")) [] s in
  strip (sub MULTISPACE (chars " ") s).

End NormalForm.

Module BurstSpec.
Import Recurring Anomalies.

(** What is expected of a reported burst: enough small charges, no more
    than there are transactions, a start and an end that are times of
    transactions, in this order and no further apart than the window. *)
Definition burst_ok (transactions : list Row) (window_minutes : Z)
           (count_min : positive) (b : Burst) : Prop :=
  (Pos.to_nat count_min <= bu_count b <= length transactions)%nat
  /\ (bu_start b <= bu_end b <= bu_start b + window_minutes * MINUTE)%Z
  /\ In (bu_start b) (map posted_at transactions)
  /\ In (bu_end b) (map posted_at transactions).

End BurstSpec.

Module BurstSamples.
Import Recurring Anomalies.
Local Open Scope Z_scope.

(** Five charges of 1.00 within four minutes of a morning, and the
    burst they make. *)
Definition coffee_machine : list Row :=
  map (fun k => mkRow k (100 * DAY + k * MINUTE) (-1 # 1) (Str.chars "VENDING"))
      [0; 1; 2; 3; 4].

Definition coffee_burst : Burst :=
  mkBurst (100 * DAY) (100 * DAY + 4 * MINUTE) 5.

End BurstSamples.

(* ================================================================== *)
(** * db/repo.py: the settings table *)
(* ================================================================== *)

Module Settings.
Import Str.

(** The rows of the table [settings], in row order; [key] is its
    primary key. *)
Definition table : Type := list (str * str).

(** [get_setting(key)]. *)
Definition get_setting (s : table) (key : str) : option str :=
  option_map snd (find (fun row => str_eqb (fst row) key) s).

(** [set_setting(key, value)]: the row of the key gets the value, or a
    new row is added. *)
Fixpoint set_setting (s : table) (key value : str) : table :=
  match s with
  | [] => [(key, value)]
  | (k, v) :: s' =>
      if str_eqb k key then (k, value) :: s'
      else (k, v) :: set_setting s' key value
  end.

(** [bool(v)] for an optional string. *)
Definition truthy (v : option str) : bool :=
  match v with
  | Some (_ :: _) => true
  | _ => false
  end.

(** The test of [_cli_encryption_ctx] in cli.py and of the pages of the
    app: [(get_setting("encryption_enabled") == "1") or bool(salt)] with
    [salt = get_setting("encryption_salt_b64")]. *)
Definition encryption_enabled (s : table) : bool :=
  match get_setting s (chars "encryption_enabled") with
  | Some v => str_eqb v (chars "1")
  | None => false
  end
  || truthy (get_setting s (chars "encryption_salt_b64")).

End Settings.

(* ================================================================== *)
(** * Vocabulary for the tables that a recompute leaves *)
(* ================================================================== *)

Module RecomputeSpec.
Import Str Recurring EngineSpec.

(** [r'] comes from [r] by [n] calls of [add_event]. *)
Inductive raised : nat -> Repo.t -> Repo.t -> Prop :=
| raised_none (r : Repo.t) : raised 0 r r
| raised_one (n : nat) (r r' : Repo.t) (ty : Event.type_)
             (sev : Event.severity_) (evd : Event.evidence_)
             (mid sid tid : option Z) :
    raised n r r' ->
    raised (S n) r (Repo.add_event r' ty sev evd mid sid tid).

(** By at most [k] calls. *)
Definition raised_le (k : nat) (r r' : Repo.t) : Prop :=
  exists n : nat, (n <= k)%nat /\ raised n r r'.

(** The events carry the ids 1, 2, 3, ... in row order. *)
Definition numbered (r : Repo.t) : Prop :=
  map Event.id (Repo.events r)
  = map Z.of_nat (seq 1 (length (Repo.events r))).

(** What is expected of a stored series, given the ledger [r0]: it is
    active, its merchant is in the merchant table and has at least three
    transactions, its period is a candidate and its confidence lies
    between 0 and 1. *)
Definition series_ok (r0 : Repo.t) (rs : RecurringSeries.t) : Prop :=
  RecurringSeries.status rs = chars "active"
  /\ (3 <= txn_count r0 (RecurringSeries.merchant_id rs))%nat
  /\ (exists m : Merchant.t,
         In m (Repo.merchants r0)
         /\ Merchant.id m = RecurringSeries.merchant_id rs)
  /\ In (RecurringSeries.period_days rs) CANDIDATE_PERIODS
  /\ (0 <= RecurringSeries.confidence rs)%Q
  /\ (RecurringSeries.confidence rs <= 1)%Q.

(** The row without its assignment to a merchant. *)
Definition unassigned (t : Transaction.t) : Transaction.t :=
  Transaction.with_merchant_id t None.

(** The references of an event are rows of the repository: its
    transaction, its merchant, and its series, which is the series of
    that merchant. *)
Definition refers_to_rows (r : Repo.t) (e : Event.t) : Prop :=
  (forall i : Z,
      Event.txn_id e = Some i ->
      In i (map Transaction.id (Repo.transactions r)))
  /\ (forall m : Z,
         Event.merchant_id e = Some m ->
         In m (map Merchant.id (Repo.merchants r)))
  /\ (forall s : Z,
         Event.series_id e = Some s ->
         exists rs : RecurringSeries.t,
           In rs (Repo.series r) /\ RecurringSeries.id rs = s
           /\ Event.merchant_id e = Some (RecurringSeries.merchant_id rs)).

(** What is expected of an entry of [series_rows]: its merchant and its
    transactions are stored, there is at least one transaction, and its
    series id is the id of the stored series of the merchant. *)
Definition row_ok (r : Repo.t) (row : Engine.series_row) : Prop :=
  let '(m, sid, _, tx) := row in
  In m (Repo.merchants r)
  /\ (exists rs : RecurringSeries.t,
         In rs (Repo.series r) /\ RecurringSeries.id rs = sid
         /\ RecurringSeries.merchant_id rs = Merchant.id m)
  /\ tx <> []
  /\ forall t, In t tx -> In t (Repo.transactions r).

(** What the loop of [recompute] over the merchants keeps true, with
    the merchants [done]: the ledger stays, every stored series belongs to
    a merchant that was visited, and every entry of [series_rows] is
    sound. *)
Definition linked (r0 : Repo.t) (done : list Merchant.t)
           (st : Repo.t * list Engine.series_row) : Prop :=
  Repo.transactions (fst st) = Repo.transactions r0
  /\ Repo.merchants (fst st) = Repo.merchants r0
  /\ Repo.events (fst st) = Repo.events r0
  /\ (forall rs, In rs (Repo.series (fst st)) ->
                 exists m, In m done
                           /\ Merchant.id m = RecurringSeries.merchant_id rs)
  /\ (forall row, In row (snd st) -> row_ok (fst st) row).

(** The transactions of a merchant as the loop of [recompute] reads them,
    oldest first. *)
Definition history (r : Repo.t) (mid : Z) : list Transaction.t :=
  rev (Repo.list_transactions_for_merchant r mid 10000).

(** What the loop of [recompute] over the merchants keeps true of the
    series table and [series_rows]: every entry carries the history of its
    merchant, of three transactions at least, and every stored series has
    its entry. *)
Definition covered (r0 : Repo.t) (st : Repo.t * list Engine.series_row)
  : Prop :=
  Repo.transactions (fst st) = Repo.transactions r0
  /\ Repo.events (fst st) = Repo.events r0
  /\ (forall row, In row (snd st) ->
                  exists m sid res,
                    row = (m, sid, res, history r0 (Merchant.id m))
                    /\ (3 <= length (history r0 (Merchant.id m)))%nat)
  /\ (forall rs, In rs (Repo.series (fst st)) ->
                 exists m res,
                   In (m, RecurringSeries.id rs, res,
                       history r0 (Merchant.id m)) (snd st)
                   /\ Merchant.id m = RecurringSeries.merchant_id rs
                   /\ RecurringSeries.last_txn_id rs
                      = Engine.last_id (history r0 (Merchant.id m))).

(** An event "new subscription detected" names a transaction of [T] that
    is no older than 90 days at [now]. *)
Definition announces (now : datetime) (T : list Transaction.t)
           (e : Event.t) : Prop :=
  Event.type e = Event.new_subscription_detected ->
  exists t, In t T /\ Event.txn_id e = Some (Transaction.id t)
            /\ (now - Transaction.posted_at t <= 90 * DAY)%Z.

End RecomputeSpec.

Module LockedSamples.
Import Str Recurring.
Local Open Scope Z_scope.

(** A ledger with encrypted descriptions, opened without the key. *)
Definition rent : Transaction.t :=
  Samples.txn 2 (101 * DAY) (-950 # 1) "enc:cmVudA==" None.

Definition locked : Repo.t :=
  Repo.mk None
    [ Samples.txn 1 (100 * DAY) (-8 # 1) "enc:q2hhcmdlIG9uZQ==" None; rent ]
    [] [] [] [].

End LockedSamples.

Module SpikeSpec.
Import Recurring Anomalies.
Local Open Scope Q_scope.

(** The absolute amounts of the transactions dated on [day], added in
    the order of the transactions. *)
Definition day_total (day : Z) (transactions : list Row) : Q :=
  fold_left Qplus
    (map (fun t => Qabs (amount t))
         (filter (fun t => (date_of (posted_at t) =? day)%Z) transactions))
    0.

(** What the loop over the transactions keeps true of the table
    [by_day], after the transactions [seen]: one row a day, a row for the
    day of every transaction, and in each row the total of its day. *)
Definition totals (tbl : list (Z * Q)) (seen : list Row) : Prop :=
  NoDup (map fst tbl)
  /\ (forall t, In t seen -> In (date_of (posted_at t)) (map fst tbl))
  /\ (forall d v, In (d, v) tbl ->
                  v = day_total d seen
                  /\ exists t, In t seen /\ date_of (posted_at t) = d).

End SpikeSpec.

Module SpikeSamples.
Import Recurring Anomalies.
Local Open Scope Z_scope.

(** Fourteen days with a charge of 2 each and a fifteenth with one of
    90, and the spike they make. *)
Definition fortnight : list Row :=
  map (fun k => mkRow k (k * DAY) (if k =? 14 then -90 # 1 else -2 # 1)
                      (Str.chars "SHOP"))
      [0; 1; 2; 3; 4; 5; 6; 7; 8; 9; 10; 11; 12; 13; 14].

Definition day_fifteen : DailySpike :=
  mkDailySpike 14 90 (176 # 2) (4 # 2) (0 # 80000).

End SpikeSamples.

(* ================================================================== *)
(** * privacy/encryption.py and the migration of db/repo.py *)
(* ================================================================== *)

Module Encryption.
Import Str.
Local Open Scope nat_scope.

(** What [encrypt_str] takes from outside the repository, as one
    function of the key, the nonce and the plaintext:
    [base64.b64encode(nonce + AESGCM(key).encrypt(nonce,
    plaintext.encode("utf-8"), None)).decode("ascii")]. *)
Definition sealer : Type := str -> str -> str -> str.

(** The row [t] with another [description_raw]. *)
Definition with_description_raw (t : Transaction.t) (d : str)
  : Transaction.t :=
  Transaction.mk (Transaction.id t) (Transaction.posted_at t)
    (Transaction.amount t) (Transaction.currency t) d
    (Transaction.account_id t) (Transaction.source_file_id t)
    (Transaction.merchant_id t) (Transaction.hash_dedupe t).

(** [_is_encrypted(v)] of db/repo.py, for a string. *)
Definition _is_encrypted (v : str) : bool :=
  match v with
  | [] => false
  | _ :: _ => startswith v (chars "enc:")
  end.

(** The test of the loop:
    [t.description_raw and not _is_encrypted(t.description_raw)]. *)
Definition needs_encryption (t : Transaction.t) : bool :=
  match Transaction.description_raw t with
  | [] => false
  | _ :: _ => negb (_is_encrypted (Transaction.description_raw t))
  end.

(** What a reader with the context of [r] gets of the description of
    [t]: [repo.decrypt_field(t.description_raw)]. *)
Definition readable (X : Repo.Externals) (r : Repo.t) (t : Transaction.t)
  : str :=
  Repo.decrypt_field X r (Transaction.description_raw t).

Section WithSealer.
Variable seal : sealer.

(** [encrypt_str(key, plaintext)], with the nonce that [os.urandom(12)]
    gives. *)
Definition encrypt_str (key nonce plaintext : str) : str :=
  chars "enc:" ++ seal key nonce plaintext.

(** [maybe_encrypt(key, s)]. *)
Definition maybe_encrypt (key : option str) (nonce s : str) : str :=
  match key with
  | None => s
  | Some k => encrypt_str k nonce s
  end.

(** One round of the loop over the transactions in
    [encrypt_existing_plaintext]; the state is the rows visited and
    [tx_updated], and [nonce k] is the nonce of the call of
    [encrypt_str] after [k] earlier ones. *)
Definition encrypt_row (key : option str) (nonce : nat -> str)
           (st : list Transaction.t * nat) (t : Transaction.t)
  : list Transaction.t * nat :=
  let (visited, tx_updated) := st in
  if needs_encryption t
  then (visited
          ++ [with_description_raw t
                (maybe_encrypt key (nonce tx_updated)
                               (Transaction.description_raw t))],
        S tx_updated)
  else (visited ++ [t], tx_updated).

(** [encrypt_existing_plaintext()] on the transactions, with
    [tx_updated]; [None] is the [ValueError] of a repository without the
    key.  The loop over [evidence_json] is the same loop on a column
    that the events of [Repo.t] do not carry. *)
Definition encrypt_existing_plaintext (nonce : nat -> str) (r : Repo.t)
  : option (Repo.t * nat) :=
  match Repo.crypto_key r with
  | None => None
  | Some _ =>
      let (txs, tx_updated) :=
        fold_left (encrypt_row (Repo.crypto_key r) nonce)
                  (Repo.transactions r) ([], 0) in
      Some (Repo.set_transactions r txs, tx_updated)
  end.

End WithSealer.

End Encryption.

Module EncryptionSamples.
Import Str Recurring.
Local Open Scope Z_scope.

(** A stand-in for the cipher that keeps the text, to read it back by
    dropping the marker. *)
Definition plain_seal : Encryption.sealer := fun _ _ s => s.

Definition externals : Repo.Externals :=
  Repo.mkExternals (fun _ _ => 0%Q) (fun _ c => skipn 4 c).

(** A ledger opened with a key, with one description in plaintext and
    one encrypted. *)
Definition half_encrypted : Repo.t :=
  Repo.mk (Some (chars "key"))
    [ Samples.txn 1 (100 * DAY) (-8 # 1) "COFFEE" None;
      Samples.txn 2 (101 * DAY) (-950 # 1) "enc:RENT" None ]
    [] [] [] [].

End EncryptionSamples.

(* ================================================================== *)
(** * core/ingest.py: the detection of the columns *)
(* ================================================================== *)

Module Ingest.
Import Str.
Local Open Scope nat_scope.

Definition lower_char (c : ascii) : ascii :=
  if is_AZ c then ascii_of_nat (code c + 32) else c.

(** [s.lower()]. *)
Definition lower (s : str) : str := map lower_char s.

(** [d[k] = v] on a dict, as the list of its items in insertion order:
    a key that is present keeps its place. *)
Fixpoint dict_set (d : list (str * str)) (k v : str) : list (str * str) :=
  match d with
  | [] => [(k, v)]
  | (k', v') :: d' =>
      if str_eqb k' k then (k', v) :: d'
      else (k', v') :: dict_set d' k v
  end.

(** [{c.lower(): c for c in cols}]. *)
Definition lc_of (cols : list str) : list (str * str) :=
  fold_left (fun d c => dict_set d (lower c) c) cols [].

(** The inner loop: the first item whose key contains [cand]. *)
Definition first_item (lc : list (str * str)) (cand : str) : option str :=
  option_map snd (find (fun item => contains cand (fst item)) lc).

(** The outer loop over the candidates. *)
Fixpoint first_candidate (lc : list (str * str)) (candidates : list str)
  : option str :=
  match candidates with
  | [] => None
  | cand :: rest =>
      match first_item lc cand with
      | Some orig => Some orig
      | None => first_candidate lc rest
      end
  end.

(** [_guess_col(cols, candidates)]. *)
Definition _guess_col (cols candidates : list str) : option str :=
  first_candidate (lc_of cols) candidates.

(** The candidate lists of [detect_schema]. *)
Definition DATE_CANDIDATES : list str :=
  [chars "date"; chars "posted"; chars "transaction date"; chars "time"].
Definition DESC_CANDIDATES : list str :=
  [chars "description"; chars "merchant"; chars "details";
   chars "narrative"].
Definition AMOUNT_CANDIDATES : list str :=
  [chars "amount"; chars "debit"; chars "credit"; chars "value"].
Definition CURRENCY_CANDIDATES : list str :=
  [chars "currency"; chars "curr"].

(** The dict that [detect_schema] returns. *)
Record Schema := mkSchema {
  date : str;
  description : str;
  amount : str;
  currency : str
}.

(** [detect_schema(df)] on [list(df.columns)]; [None] is the
    [ValueError]. *)
Definition detect_schema (cols : list str) : option Schema :=
  let date_col := _guess_col cols DATE_CANDIDATES in
  let desc_col := _guess_col cols DESC_CANDIDATES in
  let amount_col := _guess_col cols AMOUNT_CANDIDATES in
  let currency_col := _guess_col cols CURRENCY_CANDIDATES in
  match date_col, desc_col, amount_col with
  | Some (d :: ds), Some (e :: es), Some (a :: az) =>
      Some (mkSchema (d :: ds) (e :: es) (a :: az)
              match currency_col with
              | Some (c :: cs) => c :: cs
              | _ => []
              end)
  | _, _, _ => None
  end.

(** Some column of [cols] has a candidate in its lower-case name. *)
Definition has_column (cols candidates : list str) : bool :=
  existsb (fun c => existsb (fun cand => contains cand (lower c)) candidates)
          cols.

(** [c] stands in [cols], and no column after it has the same lower-case
    name. *)
Definition last_of_its_name (cols : list str) (c : str) : Prop :=
  exists before after : list str,
    cols = before ++ c :: after
    /\ forall c', In c' after -> lower c' <> lower c.

End Ingest.

Set Warnings "-inexact-float".

(* ================================================================== *)
(** * Python floats as IEEE 754 doubles *)
(* ================================================================== *)

(** A Python [float] is an IEEE 754 binary64 number, and so is a
    primitive float of Rocq: [+], [-], [*], [/] round to the nearest
    number, ties to even, overflow to an infinity, and comparisons with a
    NaN are false.  A decimal literal stands for the nearest double, as in
    Python.  The modules [Stats64] and [Anomalies64] give core/stats.py and
    the amount detector of core/anomalies.py in this arithmetic; [Stats]
    and [Anomalies] give them in exact arithmetic. *)

Module Float64.
Import SpecFloat PrimFloat.

(** [x == x]: [x] is not a NaN. *)
Definition is_number (x : float) : bool := (x =? x)%float.

Definition numbers (l : list float) : Prop :=
  Forall (fun x => is_number x = true) l.

(** [a <= b]. *)
Definition le (a b : float) : Prop := (a <=? b)%float = true.

(** The place of a number on the line: its class (infinities, signs,
    zero), then its exponent and its mantissa. *)
Definition key (x : spec_float) : Z * Z * Z :=
  match x with
  | S754_nan => (0, 0, 0)
  | S754_zero _ => (0, 0, 0)
  | S754_infinity s => (if s then -2 else 2, 0, 0)
  | S754_finite s m e =>
      if s then (-1, - e, - Z.pos m) else (1, e, Z.pos m)
  end%Z.

Definition key_lt (a b : Z * Z * Z) : Prop :=
  let '(c1, e1, m1) := a in
  let '(c2, e2, m2) := b in
  (c1 < c2 \/ (c1 = c2 /\ (e1 < e2 \/ (e1 = e2 /\ m1 < m2))))%Z.

Definition key_le (a b : Z * Z * Z) : Prop :=
  let '(c1, e1, m1) := a in
  let '(c2, e2, m2) := b in
  (c1 < c2 \/ (c1 = c2 /\ (e1 < e2 \/ (e1 = e2 /\ m1 <= m2))))%Z.

Definition proper (x : spec_float) : Prop := x <> S754_nan.

End Float64.

(* ================================================================== *)
(** * core/stats.py in doubles *)
(* ================================================================== *)

Module Stats64.
Import PrimFloat.
Local Open Scope float_scope.

(** [np.median] on a one-dimensional array of at least one element:
    NaN when the data hold a NaN; else the middle element of the data in
    order or, for an even number of them, the mean of the two middle
    elements, which numpy takes as their sum divided by their number. *)
Definition np_median (x : list float) : float :=
  if existsb is_nan x then nan
  else
    let s := Py.sorted leb x in
    let n := length s in
    if Nat.even n
    then (nth (n / 2 - 1)%nat s 0 + nth (n / 2)%nat s 0) / 2
    else nth (n / 2)%nat s 0.

(** [median(x)]: [float(np.median(...)) if x else 0.0]. *)
Definition median (x : list float) : float :=
  match x with
  | [] => 0
  | _ => np_median x
  end.

(** [mad(x, scale=1.4826)]. *)
Definition mad_scaled (x : list float) (scale : float) : float :=
  match x with
  | [] => 0
  | _ =>
      let med := np_median x in
      let val := np_median (map (fun a => abs (a - med)) x) in
      val * scale
  end.

Definition mad (x : list float) : float := mad_scaled x 1.4826.

(** [robust_z(x, med, mad_val)]. *)
Definition robust_z (x med mad_val : float) : float :=
  let denom := if 1e-9 <? mad_val then mad_val else 1 in
  (x - med) / denom.

End Stats64.

(* ================================================================== *)
(** * core/anomalies.py in doubles: the amount detector *)
(* ================================================================== *)

Module Anomalies64.
Import Str Recurring PrimFloat.
Local Open Scope float_scope.

(** The [dict] rows handed to the detector. *)
Record Row := mkRow {
  txn_id : Z;
  posted_at : datetime;
  amount : float;
  merchant : str
}.

(** ["type": "merchant_amount_anomaly"]. *)
Record MerchantAnomaly := mkMerchantAnomaly {
  ma_merchant : str;
  ma_txn_id : Z;
  ma_amount : float;
  ma_z : float;
  ma_baseline_median : float;
  ma_baseline_mad : float
}.

(** [by_m[k].append(t)] on a [defaultdict(list)]: keys keep the order
    of their first insertion. *)
Fixpoint group_append (d : list (str * list Row)) (k : str) (t : Row)
  : list (str * list Row) :=
  match d with
  | [] => [(k, [t])]
  | (k', rows) :: d' =>
      if str_eqb k' k then (k', rows ++ [t]) :: d'
      else (k', rows) :: group_append d' k t
  end.

Definition group_by_merchant (transactions : list Row)
  : list (str * list Row) :=
  fold_left (fun d t => group_append d (merchant t) t) transactions [].

(** The body of the loop over [rows[:80]]; [abs(z) >= z_thresh]. *)
Definition flag_row (z_thresh : float) (m : str) (med m_mad : float)
           (r : Row) : list MerchantAnomaly :=
  let z := Stats64.robust_z (abs (amount r)) med m_mad in
  if z_thresh <=? abs z
  then [mkMerchantAnomaly m (txn_id r) (amount r) z med m_mad]
  else [].

Definition group_anomalies (z_thresh : float) (g : str * list Row)
  : list MerchantAnomaly :=
  let (m, rows) := g in
  if (length rows <? 8)%nat then []
  else
    let amounts := map (fun r => abs (amount r)) rows in
    let med := Stats64.median amounts in
    let m_mad := Stats64.mad amounts in
    flat_map (flag_row z_thresh m med m_mad) (firstn 80 rows).

(** [merchant_anomalies(transactions, z_thresh=4.0)]. *)
Definition merchant_anomalies (transactions : list Row) (z_thresh : float)
  : list MerchantAnomaly :=
  flat_map (group_anomalies z_thresh) (group_by_merchant transactions).

End Anomalies64.

(* ================================================================== *)
(** * Median, MAD and robust z-score in the words of the specification *)
(* ================================================================== *)

Module ScoreSpec.
Import Str PrimFloat Float64 Anomalies64.
Local Open Scope float_scope.

(** The middle of data in ascending order: the middle value, or the mean
    of the two middle values. *)
Definition middle (s : list float) : float :=
  let n := length s in
  if Nat.even n
  then (nth (n / 2 - 1)%nat s 0 + nth (n / 2)%nat s 0) / 2
  else nth (n / 2)%nat s 0.

(** [m] is the median of the data [l]. *)
Definition is_median (l : list float) (m : float) : Prop :=
  exists s : list float, Permutation s l /\ Sorted le s /\ m = middle s.

(** [v] is the scaled MAD of [l]: 1.4826 times the median of the
    absolute deviations from the median. *)
Definition is_scaled_mad (l : list float) (v : float) : Prop :=
  exists med dev : float,
    is_median l med
    /\ is_median (map (fun a => abs (a - med)) l) dev
    /\ v = dev * 1.4826.

(** "Robust z-score definition used throughout:
    [(value - median) / (mad if mad > 1e-9 else 1.0)]". *)
Definition z_score (value median mad : float) : float :=
  (value - median) / (if 1e-9 <? mad then mad else 1).



(** The rows of the merchant [k] in stored order, and their absolute
    amounts. *)
Definition rows_of (k : str) (transactions : list Row) : list Row :=
  filter (fun t => str_eqb (merchant t) k) transactions.

Definition magnitudes (rows : list Row) : list float :=
  map (fun r => abs (amount r)) rows.

(** What the grouping loop keeps true: after the transactions [seen] the
    dict holds, for each merchant that occurred, its rows in order. *)
Definition grouped (d : list (str * list Row)) (seen : list Row) : Prop :=
  NoDup (map fst d)
  /\ forall k rows, In (k, rows) d <-> rows = rows_of k seen /\ rows <> [].

End ScoreSpec.

Module Samples64.
Import Str PrimFloat Anomalies64.
Local Open Scope float_scope.

(** Nine charges of one merchant; the exact score of the last one is
    4, the score in doubles is 3.999999999999999. *)
Definition at_the_threshold : list Row :=
  map (fun p => mkRow (fst p) 0%Z (snd p) (chars "SHOP"))
      [(1%Z, 5.92); (2%Z, 5.92); (3%Z, 5.92); (4%Z, 5.92); (5%Z, 18.42);
       (6%Z, 30.92); (7%Z, 30.92); (8%Z, 30.92); (9%Z, 92.55)].

(** The same charges in exact arithmetic. *)
Definition at_the_threshold_exact : list Anomalies.Row :=
  map (fun p => Anomalies.mkRow (fst p) 0%Z (snd p) (chars "SHOP"))
      [(1%Z, 592 # 100); (2%Z, 592 # 100); (3%Z, 592 # 100);
       (4%Z, 592 # 100); (5%Z, 1842 # 100); (6%Z, 3092 # 100);
       (7%Z, 3092 # 100); (8%Z, 3092 # 100); (9%Z, 9255 # 100)]%Q.

End Samples64.

(* ================================================================== *)
(** * The range of [datetime] *)
(* ================================================================== *)

Module Datetime.
Import Recurring.
Local Open Scope Z_scope.

(** The time line starts at [datetime.min], the first microsecond of the
    year 1; [datetime.max] is the last microsecond of the year 9999, whose
    last day is the day 3652059 ([date.max.toordinal()]). *)
Definition MIN : datetime := 0.
Definition MAX : datetime := 3652059 * DAY - 1.

Definition in_range (t : datetime) : bool := (MIN <=? t) && (t <=? MAX).

(** What a call gives: a value, or the exception [OverflowError]. *)
Inductive result (A : Type) : Type :=
| Returns (a : A)
| OverflowError.

Arguments OverflowError {A}.

(** [d + timedelta(days=n)] raises "OverflowError: date value out of
    range" when the sum is no [datetime]. *)
Definition add_days (d : datetime) (n : Z) : result datetime :=
  let t := d + n * DAY in
  if in_range t then Returns t else OverflowError.

End Datetime.

(* ================================================================== *)
(** * core/recurring.py and the loop of [recompute], with the range of
      [datetime] *)
(* ================================================================== *)

Module Checked.
Import Str Stats Recurring Datetime.
Local Open Scope Z_scope.

(** [detect_recurring(dates, amounts, min_points=3)], with the exception
    of its last addition. *)
Definition detect_recurring (dates : list datetime) (amounts : list Q)
           (min_points : Z) : result (option SeriesResult) :=
  if (Z.of_nat (length dates) <? min_points)%Z then Returns None
  else
    let pairs := Py.sorted by_date (combine dates amounts) in
    let ds := map fst pairs in
    let am := map snd pairs in
    let gaps := day_gaps ds in
    match gaps with
    | [] => Returns None
    | _ :: _ =>
        let fgaps := map inject_Z gaps in
        let gap_med := median fgaps in
        let gap_mad := mad fgaps in
        let period := _nearest_period gap_med in
        let inliers := filter (is_inlier period) gaps in
        let gap_consistency :=
          (qlen inliers / inject_Z (Z.max 1 (Z.of_nat (length gaps))))%Q in
        let a_med := median am in
        let a_mad := mad am in
        let confidence :=
          max2 0 (min2 1 ((55 # 100) * gap_consistency
                          + (45 # 100) * amt_stability a_med a_mad))%Q in
        match add_days (last ds 0%Z) period with
        | OverflowError => OverflowError
        | Returns next_expected =>
            Returns (Some (mkSeriesResult period a_med a_mad gap_med gap_mad
                                          confidence next_expected))
        end
    end.

(** One round of the loop of [recompute] over the merchants; an
    exception ends the loop. *)
Definition series_step (st : result (Repo.t * list Engine.series_row))
           (m : Merchant.t) : result (Repo.t * list Engine.series_row) :=
  match st with
  | OverflowError => OverflowError
  | Returns (repo, series_rows) =>
      let tx :=
        rev (Repo.list_transactions_for_merchant repo (Merchant.id m) 10000)
      in
      if (length tx <? 3)%nat then st
      else
        let dates := map Transaction.posted_at tx in
        let amounts := map Transaction.amount tx in
        match detect_recurring dates amounts 3 with
        | OverflowError => OverflowError
        | Returns None => st
        | Returns (Some res) =>
            let last_txn_id := last (map Transaction.id tx) 0 in
            let (repo', series_id) :=
              Repo.upsert_series repo (Merchant.id m) res last_txn_id
                                 (chars "active") in
            Returns (repo', series_rows ++ [(m, series_id, res, tx)])
        end
  end.

(** [recompute(repo)]; the exception leaves [recompute] as it left
    [detect_recurring]. *)
Definition recompute (X : Repo.Externals) (now : datetime) (repo : Repo.t)
  : result Repo.t :=
  let repo :=
    fst (Engine.resolve_merchants X repo Engine.default_fuzzy_threshold) in
  let repo := Repo.clear_recurring_and_events repo in
  let merchants := Repo.list_merchants repo in
  match fold_left series_step merchants (Returns (repo, [])) with
  | OverflowError => OverflowError
  | Returns (repo, series_rows) =>
      let repo := Engine._events_for_series now repo series_rows in
      Returns (Engine._events_for_anomalies repo)
  end.

End Checked.

(* ================================================================== *)
(** * The postconditions of the series detector *)
(* ================================================================== *)

Module SeriesSpec.
Import Recurring.
Local Open Scope Q_scope.

(** The middle of data in ascending order: the middle value, or the mean
    of the two middle values. *)
Definition middle (s : list Q) : Q :=
  let n := length s in
  if Nat.even n
  then (nth (n / 2 - 1) s 0 + nth (n / 2) s 0) / 2
  else nth (n / 2) s 0.

(** [m] is the median of the data [l]. *)
Definition is_median (l : list Q) (m : Q) : Prop :=
  exists s : list Q, Permutation s l /\ Sorted Qle s /\ m == middle s.

(** [v] is the scaled MAD of [l]: 1.4826 times the median of the
    absolute deviations from the median. *)
Definition is_scaled_mad (l : list Q) (v : Q) : Prop :=
  exists med dev : Q,
    is_median l med
    /\ is_median (map (fun a => Qabs (a - med)) l) dev
    /\ v == (14826 # 10000) * dev.





End SeriesSpec.

Module Samples9999.
Import Str Recurring.
Local Open Scope Z_scope.



End Samples9999.

(* ================================================================== *)
(** * The "possible duplicate" events of a recompute *)
(* ================================================================== *)

Module DuplicateSpec.
Import Recurring.

(** The event [e] is a "possible duplicate" that names the transaction
    [b], the later one of its pair. *)
Definition duplicate_of (b : Transaction.t) (e : Event.t) : bool :=
  Event.type_eqb (Event.type e) Event.possible_duplicate
  && match Event.txn_id e with
     | Some i => (i =? Transaction.id b)%Z
     | None => false
     end.

(** [x] was posted before [y]. *)
Definition earlier (x y : Transaction.t) : Prop :=
  (Transaction.posted_at x < Transaction.posted_at y)%Z.

(** The transactions of the merchant [mid] in the repository [r] are
    those of [l], which lists them by time, no two at the same time. *)
Definition charges_of (r : Repo.t) (mid : Z) (l : list Transaction.t)
  : Prop :=
  Permutation (filter (Repo.has_merchant mid) (Repo.transactions r)) l
  /\ StronglySorted earlier l.

(** The event [e] does not name [b] as a possible duplicate. *)
Definition misses (b : Transaction.t) (e : Event.t) : Prop :=
  duplicate_of b e = false.

(** The merchant id of a series row. *)
Definition row_id (row : Engine.series_row) : Z :=
  Merchant.id (EngineSpec.row_merchant row).

(** What the loop of [recompute] over the merchants keeps true of
    [series_rows], with the merchants [done]: one row at most for each
    merchant id, and for merchants visited only. *)
Definition one_row_each (done : list Merchant.t)
           (st : Repo.t * list Engine.series_row) : Prop :=
  NoDup (map row_id (snd st))
  /\ incl (map row_id (snd st)) (map Merchant.id done).

End DuplicateSpec.

Module SamplesDuplicate.
Import Str Recurring.
Local Open Scope Z_scope.

(** A merchant with three charges, the last two of them two hours apart
    and of the same amount. *)
Definition first_charge : Transaction.t :=
  Samples.txn 1 (70 * DAY) (-999 # 100) "ACME GYM" (Some 1).

Definition charged : Transaction.t :=
  Samples.txn 2 (100 * DAY) (-999 # 100) "ACME GYM" (Some 1).

Definition charged_again : Transaction.t :=
  Samples.txn 3 (100 * DAY + 2 * HOUR) (-999 # 100) "ACME GYM" (Some 1).

Definition three_charges : Repo.t :=
  Repo.mk None [first_charge; charged; charged_again]
          [ Merchant.mk 1 (chars "ACME GYM") ] [] [] [].

End SamplesDuplicate.
(* ================================================================== *)
(** * Facts about [sorted] *)
(* ================================================================== *)

Module ListFacts.

Lemma In_firstn (A : Type) (n : nat) (l : list A) (x : A) :
  In x (firstn n l) -> In x l.
Proof.
  intros H. rewrite <- (firstn_skipn n l). apply in_or_app. now left.
Qed.

End ListFacts.

Module PyFacts.

Section Sorted.
Variable A : Type.
Variable leb : A -> A -> bool.

Lemma insert_perm (x : A) (l : list A) :
  Permutation (Py.insert leb x l) (x :: l).
Proof.
  induction l as [|y l IH]; simpl.
  - apply Permutation_refl.
  - destruct (leb x y).
    + apply Permutation_refl.
    + apply perm_trans with (y :: x :: l).
      * now apply perm_skip.
      * apply perm_swap.
Qed.

Lemma sorted_perm (l : list A) : Permutation (Py.sorted leb l) l.
Proof.
  induction l as [|x l IH]; simpl.
  - apply perm_nil.
  - apply perm_trans with (x :: Py.sorted leb l).
    + apply insert_perm.
    + now apply perm_skip.
Qed.

Lemma sorted_length (l : list A) :
  length (Py.sorted leb l) = length l.
Proof. apply Permutation_length, sorted_perm. Qed.

Lemma sorted_In (x : A) (l : list A) :
  In x (Py.sorted leb l) <-> In x l.
Proof.
  split; apply Permutation_in.
  - apply sorted_perm.
  - apply Permutation_sym, sorted_perm.
Qed.

(** Sorting by a key and projecting the keys is sorting the keys. *)
Lemma insert_map (B : Type) (f : A -> B) (lebB : B -> B -> bool) :
  (forall a b, leb a b = lebB (f a) (f b)) ->
  forall x l, map f (Py.insert leb x l) = Py.insert lebB (f x) (map f l).
Proof.
  intros Hkey x l. induction l as [|y l IH]; simpl.
  - reflexivity.
  - rewrite Hkey. destruct (lebB (f x) (f y)); simpl.
    + reflexivity.
    + now rewrite IH.
Qed.

Lemma sorted_map (B : Type) (f : A -> B) (lebB : B -> B -> bool) :
  (forall a b, leb a b = lebB (f a) (f b)) ->
  forall l, map f (Py.sorted leb l) = Py.sorted lebB (map f l).
Proof.
  intros Hkey l. induction l as [|x l IH]; simpl.
  - reflexivity.
  - rewrite (insert_map f lebB Hkey), IH. reflexivity.
Qed.


Section Order.
Hypothesis leb_total : forall a b, leb a b = true \/ leb b a = true.
Hypothesis leb_trans :
  forall a b c, leb a b = true -> leb b c = true -> leb a c = true.

Let R (a b : A) : Prop := leb a b = true.

Lemma insert_sorted (x : A) (l : list A) :
  StronglySorted R l -> StronglySorted R (Py.insert leb x l).
Proof.
  induction 1 as [|y l Hs IH Hall]; simpl.
  - constructor; constructor.
  - destruct (leb x y) eqn:E.
    + constructor.
      * now constructor.
      * constructor; [exact E|].
        eapply Forall_impl; [|exact Hall].
        intros z Hz. now apply leb_trans with y.
    + constructor; [exact IH|].
      assert (Hyx : R y x) by (destruct (leb_total x y); [congruence|assumption]).
      apply Forall_forall. intros z Hz.
      apply (Permutation_in _ (insert_perm x l)) in Hz.
      destruct Hz as [<-|Hz]; [exact Hyx|].
      rewrite Forall_forall in Hall. now apply Hall.
Qed.

Lemma sorted_sorted (l : list A) : StronglySorted R (Py.sorted leb l).
Proof.
  induction l as [|x l IH]; simpl.
  - constructor.
  - now apply insert_sorted.
Qed.

(** The last element of a list in order is a greatest one. *)
Lemma last_greatest (l : list A) (d : A) :
  StronglySorted R l -> forall x, In x l -> R x (last l d).
Proof.
  induction 1 as [|y l Hs IH Hall]; intros x Hx.
  - contradiction.
  - destruct l as [|z l].
    + destruct Hx as [<-|[]]. simpl.
      destruct (leb_total y y); assumption.
    + change (last (y :: z :: l) d) with (last (z :: l) d).
      destruct Hx as [<-|Hx].
      * rewrite Forall_forall in Hall. apply Hall.
        destruct (@exists_last _ (z :: l)) as [l' [a Ha]]; [discriminate|].
        rewrite Ha, last_last. apply in_or_app. right. now left.
      * now apply IH.
Qed.
End Order.

End Sorted.

End PyFacts.

(* ================================================================== *)
(** * Facts about core/stats.py *)
(* ================================================================== *)

Module StatsFacts.
Import Stats.
Local Open Scope Q_scope.

Lemma Qltb_lt (a b : Q) : Qltb a b = true <-> a < b.
Proof.
  unfold Qltb. rewrite negb_true_iff.
  split; intros H.
  - apply Qnot_le_lt. intros Hle. apply Qle_bool_iff in Hle. congruence.
  - destruct (Qle_bool b a) eqn:E; [|reflexivity].
    apply Qle_bool_iff in E. apply Qle_not_lt in E. contradiction.
Qed.

Lemma Qltb_ge (a b : Q) : Qltb a b = false <-> b <= a.
Proof.
  unfold Qltb. rewrite negb_false_iff. apply Qle_bool_iff.
Qed.

(** The middle positions of a list of [n >= 1] elements exist. *)
Lemma middle_lt (n : nat) : (0 < n -> n / 2 < n /\ n / 2 - 1 < n)%nat.
Proof.
  intros Hn.
  assert (n / 2 < n)%nat by (apply Nat.div_lt; lia).
  lia.
Qed.

Section Bounds.
Variable P : Q -> Prop.
Hypothesis P_mean : forall a b, P a -> P b -> P ((a + b) / 2).

(** Whatever holds of every element and is kept by the mean of two
    holds of the median. *)
Lemma np_median_ind (l : list Q) :
  l <> [] -> (forall x, In x l -> P x) -> P (np_median l).
Proof.
  intros Hne Hall. unfold np_median.
  set (s := Py.sorted Qle_bool l).
  assert (Hlen : (0 < length s)%nat).
  { unfold s. rewrite PyFacts.sorted_length.
    destruct l; [congruence | simpl; lia]. }
  destruct (middle_lt Hlen) as [H1 H2].
  assert (Hs : forall i, (i < length s)%nat -> P (nth i s 0)).
  { intros i Hi. apply Hall.
    apply (PyFacts.sorted_In Qle_bool). now apply nth_In. }
  destruct (Nat.even (length s)).
  - apply P_mean; now apply Hs.
  - now apply Hs.
Qed.
End Bounds.

Lemma np_median_ge (lo : Q) (l : list Q) :
  l <> [] -> (forall x, In x l -> lo <= x) -> lo <= np_median l.
Proof.
  apply np_median_ind. intros a b Ha Hb.
  apply Qle_shift_div_l; lra.
Qed.

Lemma np_median_le (hi : Q) (l : list Q) :
  l <> [] -> (forall x, In x l -> x <= hi) -> np_median l <= hi.
Proof.
  apply (np_median_ind (fun m => m <= hi)). intros a b Ha Hb.
  apply Qle_shift_div_r; lra.
Qed.


Lemma fold_min_le (l : list Q) (m : Q) :
  let r := fold_left (fun m y => if Qltb y m then y else m) l m in
  r <= m /\ forall x, In x l -> r <= x.
Proof.
  revert m. induction l as [|y l IH]; intros m; simpl.
  - split; [apply Qle_refl | tauto].
  - destruct (Qltb y m) eqn:E.
    + apply Qltb_lt in E. destruct (IH y) as [H1 H2].
      split; [lra|]. intros x [<-|Hx]; [assumption | now apply H2].
    + apply Qltb_ge in E. destruct (IH m) as [H1 H2].
      split; [assumption|]. intros x [<-|Hx]; [lra | now apply H2].
Qed.

Lemma fold_max_ge (l : list Q) (m : Q) :
  let r := fold_left (fun m y => if Qltb m y then y else m) l m in
  m <= r /\ forall x, In x l -> x <= r.
Proof.
  revert m. induction l as [|y l IH]; intros m; simpl.
  - split; [apply Qle_refl | tauto].
  - destruct (Qltb m y) eqn:E.
    + apply Qltb_lt in E. destruct (IH y) as [H1 H2].
      split; [lra|]. intros x [<-|Hx]; [assumption | now apply H2].
    + apply Qltb_ge in E. destruct (IH m) as [H1 H2].
      split; [assumption|]. intros x [<-|Hx]; [lra | now apply H2].
Qed.

Lemma list_min_le (l : list Q) (x : Q) : In x l -> list_min l <= x.
Proof.
  destruct l as [|y l]; [contradiction|]. simpl.
  destruct (fold_min_le l y) as [H1 H2].
  intros [<-|Hx]; [assumption | now apply H2].
Qed.

Lemma list_max_ge (l : list Q) (x : Q) : In x l -> x <= list_max l.
Proof.
  destruct l as [|y l]; [contradiction|]. simpl.
  destruct (fold_max_ge l y) as [H1 H2].
  intros [<-|Hx]; [assumption | now apply H2].
Qed.

Lemma median_nonempty (l : list Q) : l <> [] -> median l = np_median l.
Proof. destruct l; [congruence | reflexivity]. Qed.


End StatsFacts.

(* ================================================================== *)
(** * Facts about core/recurring.py *)
(* ================================================================== *)

Module RecurringFacts.
Import Stats StatsFacts Recurring DetectSpec.
Local Open Scope Q_scope.

Section MinBy.
Variable A : Type.
Variable key : A -> Q.

(** [min(xs, key=key)] returns the first of the elements of least key. *)
Lemma min_by_from_first (xs : list A) (best : A) :
  exists before after : list A,
    best :: xs = before ++ min_by_from key best xs :: after
    /\ (forall x, In x before -> key (min_by_from key best xs) < key x)
    /\ (forall x, In x after -> key (min_by_from key best xs) <= key x).
Proof.
  revert best. induction xs as [|x xs IH]; intros best; simpl.
  - exists [], []. repeat split; simpl; intros; contradiction.
  - destruct (Qltb (key x) (key best)) eqn:E.
    + apply Qltb_lt in E.
      destruct (IH x) as [pre [post [Heq [Hpre Hpost]]]].
      set (r := min_by_from key x xs) in *.
      assert (Hrx : key r <= key x).
      { destruct pre as [|p pre]; simpl in Heq; injection Heq as Hp Hrest.
        - rewrite <- Hp. apply Qle_refl.
        - apply Qlt_le_weak, Hpre. left. symmetry. exact Hp. }
      exists (best :: pre), post. repeat split.
      * simpl. now rewrite Heq.
      * intros y [<-|Hy]; [lra | now apply Hpre].
      * exact Hpost.
    + apply Qltb_ge in E.
      destruct (IH best) as [pre [post [Heq [Hpre Hpost]]]].
      set (r := min_by_from key best xs) in *.
      destruct pre as [|p pre]; simpl in Heq; injection Heq as Hp Hrest.
      * exists [], (x :: post). repeat split.
        -- simpl. now rewrite <- Hp, Hrest.
        -- intros y [].
        -- intros y [<-|Hy]; [now rewrite <- Hp | now apply Hpost].
      * exists (p :: x :: pre), post. repeat split.
        -- simpl. now rewrite Hp, Hrest.
        -- assert (Hrb : key r < key best) by (apply Hpre; left; now symmetry).
           intros y [<-|[<-|Hy]].
           ++ now rewrite <- Hp.
           ++ lra.
           ++ apply Hpre. now right.
        -- exact Hpost.
Qed.
End MinBy.

Lemma nearest_period_is_nearest (days : Q) :
  nearest_candidate days (_nearest_period days).
Proof.
  unfold nearest_candidate, _nearest_period, min_by, CANDIDATE_PERIODS.
  apply (min_by_from_first (fun p => Qabs (inject_Z p - days))).
Qed.

Lemma nearest_period_candidate (days : Q) :
  In (_nearest_period days) CANDIDATE_PERIODS.
Proof.
  destruct (nearest_period_is_nearest days) as [pre [post [Heq _]]].
  rewrite Heq. apply in_or_app. right. now left.
Qed.


Lemma day_gaps_length (ds : list datetime) :
  length (day_gaps ds) = (length ds - 1)%nat.
Proof.
  induction ds as [|a [|b ds] IH]; simpl in *; try reflexivity.
  rewrite IH. lia.
Qed.

Lemma by_date_key (p q : datetime * Q) :
  by_date p q = Z.leb (fst p) (fst q).
Proof. reflexivity. Qed.

Lemma map_fst_combine (A B : Type) (l : list A) (l' : list B) :
  length l = length l' -> map fst (combine l l') = l.
Proof.
  revert l'. induction l as [|a l IH]; intros [|b l'] H; simpl in *;
    try discriminate; [reflexivity|].
  f_equal. apply IH. lia.
Qed.


(** The dates of the sorted pairs are the sorted dates. *)
Lemma sorted_dates (dates : list datetime) (amounts : list Q) :
  length dates = length amounts ->
  map fst (Py.sorted by_date (combine dates amounts)) = Py.sorted Z.leb dates.
Proof.
  intros Hlen.
  rewrite (PyFacts.sorted_map by_date fst Z.leb by_date_key).
  now rewrite map_fst_combine.
Qed.

Lemma Zleb_total (a b : Z) : Z.leb a b = true \/ Z.leb b a = true.
Proof. rewrite !Z.leb_le. lia. Qed.

Lemma Zleb_trans (a b c : Z) :
  Z.leb a b = true -> Z.leb b c = true -> Z.leb a c = true.
Proof. rewrite !Z.leb_le. lia. Qed.






Lemma day_gaps_nonempty (dates : list datetime) :
  (2 <= length dates)%nat -> day_gaps (Py.sorted Z.leb dates) <> [].
Proof.
  intros Hlen Hnil. apply (f_equal (@length Z)) in Hnil.
  rewrite day_gaps_length, PyFacts.sorted_length in Hnil.
  change (length (@nil Z)) with 0%nat in Hnil.
  unfold datetime in *. lia.
Qed.



(** C8.  With fewer than [min_points] observations [detect_recurring]
    returns [None]: the lack of data shows in the value returned, and no
    error is raised. *)
Theorem detect_recurring_too_few_points :
  forall (dates : list datetime) (amounts : list Q) (min_points : Z),
    (Z.of_nat (length dates) < min_points)%Z ->
    detect_recurring dates amounts min_points = None.
Proof.
  intros dates amounts min_points Hlt. unfold detect_recurring.
  apply Z.ltb_lt in Hlt. now rewrite Hlt.
Qed.

Lemma detect_recurring_two_points_none :
  detect_recurring [0%Z; DAY] [1; 1] default_min_points = None.
Proof.
  apply (@detect_recurring_too_few_points [0%Z; DAY] [1; 1] default_min_points).
  reflexivity.
Defined.

End RecurringFacts.

(* ================================================================== *)
(** * Facts about strings *)
(* ================================================================== *)

Module StrFacts.
Import Str.

Lemma str_eqb_eq (a b : str) : str_eqb a b = true <-> a = b.
Proof.
  revert b. induction a as [|x a IH]; intros [|y b]; simpl;
    try (split; [discriminate | congruence]).
  - split; reflexivity.
  - rewrite andb_true_iff, Ascii.eqb_eq, IH.
    split; [intros [-> ->]; reflexivity | intros H; injection H; auto].
Qed.

Lemma str_eqb_neq (a b : str) : str_eqb a b = false <-> a <> b.
Proof.
  rewrite <- str_eqb_eq. destruct (str_eqb a b); split; congruence.
Qed.

End StrFacts.

(* ================================================================== *)
(** * Facts about core/anomalies.py *)
(* ================================================================== *)

Module AnomaliesFacts.
Import Str StrFacts Stats StatsFacts Recurring Anomalies AnomalySpec.
Local Open Scope Q_scope.

Lemma group_append_keys (d : list (str * list Row)) (k : str) (t : Row)
      (x : str) :
  In x (map fst (group_append d k t)) -> In x (map fst d) \/ x = k.
Proof.
  induction d as [|[k' rows] d IH]; simpl.
  - intros [<-|[]]. now right.
  - destruct (str_eqb k' k); simpl.
    + intros [<-|H]; left; [now left | now right].
    + intros [<-|H]; [left; now left|].
      destruct (IH H); [left; now right | now right].
Qed.

Lemma group_append_NoDup (d : list (str * list Row)) (k : str) (t : Row) :
  NoDup (map fst d) -> NoDup (map fst (group_append d k t)).
Proof.
  induction d as [|[k' rows] d IH]; simpl; intros Hnd.
  - repeat constructor. intros [].
  - inversion Hnd as [|? ? Hk' Hnd']; subst.
    destruct (str_eqb k' k) eqn:E; simpl.
    + now constructor.
    + apply str_eqb_neq in E. constructor; [|now apply IH].
      intros H. apply group_append_keys in H. destruct H; congruence.
Qed.

(** The entries after [by_m[k].append(t)]. *)
Lemma group_append_In (d : list (str * list Row)) (k : str) (t : Row)
      (k' : str) (rows' : list Row) :
  NoDup (map fst d) ->
  In (k', rows') (group_append d k t) <->
  (k' <> k /\ In (k', rows') d)
  \/ (k' = k
      /\ exists rows, rows' = rows ++ [t]
                      /\ (In (k, rows) d \/ (rows = [] /\ ~ In k (map fst d)))).
Proof.
  induction d as [|[k0 rows0] d IH]; intros Hnd; simpl.
  - split.
    + intros [H|[]]. injection H as <- <-. right. split; [reflexivity|].
      exists []. split; [reflexivity|]. right. split; [reflexivity | tauto].
    + intros [[_ []]|[-> [rows [-> [[]|[-> _]]]]]]. now left.
  - inversion Hnd as [|? ? Hk0 Hnd']; subst.
    specialize (IH Hnd').
    destruct (str_eqb k0 k) eqn:E.
    + apply str_eqb_eq in E. subst k0. simpl. split.
      * intros [H|H].
        -- injection H as <- <-. right. split; [reflexivity|].
           exists rows0. split; [reflexivity|]. left. now left.
        -- left. split; [|now right].
           intros ->. apply Hk0. apply in_map_iff. now exists (k, rows').
      * intros [[Hne [H|H]]|[-> [rows [-> [[H|H]|[_ Hout]]]]]].
        -- injection H as <- <-. congruence.
        -- now right.
        -- injection H as <-. now left.
        -- exfalso. apply Hk0. apply in_map_iff. now exists (k, rows).
        -- exfalso. apply Hout. now left.
    + apply str_eqb_neq in E. simpl. rewrite IH. split.
      * intros [H|[[Hne H]|[-> [rows [-> [H|[-> Hout]]]]]]].
        -- injection H as <- <-. left. split; [assumption | now left].
        -- left. split; [assumption | now right].
        -- right. split; [reflexivity|]. exists rows.
           split; [reflexivity|]. left. now right.
        -- right. split; [reflexivity|]. exists [].
           split; [reflexivity|]. right. split; [reflexivity|].
           intros [H|H]; [congruence | contradiction].
      * intros [[Hne [H|H]]|[-> [rows [-> [[H|H]|[-> Hout]]]]]].
        -- now left.
        -- right. left. now split.
        -- injection H as -> _. congruence.
        -- right. right. split; [reflexivity|]. exists rows.
           split; [reflexivity|]. now left.
        -- right. right. split; [reflexivity|]. exists [].
           split; [reflexivity|]. right. split; [reflexivity|]. tauto.
Qed.

Lemma rows_of_snoc (k : str) (seen : list Row) (t : Row) :
  rows_of k (seen ++ [t])
  = rows_of k seen ++ (if str_eqb (merchant t) k then [t] else []).
Proof. unfold rows_of. rewrite filter_app. reflexivity. Qed.

Lemma grouped_step (d : list (str * list Row)) (seen : list Row) (t : Row) :
  grouped d seen -> grouped (group_append d (merchant t) t) (seen ++ [t]).
Proof.
  intros [Hnd Hd]. split; [now apply group_append_NoDup|].
  intros k rows.
  rewrite (@group_append_In d (merchant t) t k rows Hnd), rows_of_snoc.
  destruct (str_eqb (merchant t) k) eqn:E.
  - apply str_eqb_eq in E. subst k. split.
    + intros [[Hne _]|[_ [rows0 [-> [H|[-> Hout]]]]]]; [congruence| |].
      * apply Hd in H. destruct H as [-> _].
        split; [reflexivity | now destruct (rows_of (merchant t) seen)].
      * split; [|discriminate]. f_equal.
        destruct (rows_of (merchant t) seen) as [|r rs] eqn:Er;
          [reflexivity|].
        exfalso. apply Hout. apply in_map_iff.
        exists (merchant t, r :: rs). split; [reflexivity|].
        apply Hd. split; [now rewrite Er | discriminate].
    + intros [-> _]. right. split; [reflexivity|].
      exists (rows_of (merchant t) seen). split; [reflexivity|].
      destruct (rows_of (merchant t) seen) as [|r rs] eqn:Er.
      * right. split; [reflexivity|]. intros Hin.
        apply in_map_iff in Hin. destruct Hin as [[k rows] [Hk Hin]].
        simpl in Hk. subst k. apply Hd in Hin. destruct Hin as [-> Hne].
        congruence.
      * left. apply Hd. split; [now rewrite Er | discriminate].
  - apply str_eqb_neq in E. rewrite app_nil_r. split.
    + intros [[Hne H]|[-> _]]; [now apply Hd | congruence].
    + intros H. left. split; [|now apply Hd].
      intros ->. now apply E.
Qed.

Lemma grouped_fold (transactions : list Row) :
  forall d seen,
    grouped d seen ->
    grouped (fold_left (fun d t => group_append d (merchant t) t)
                       transactions d)
            (seen ++ transactions).
Proof.
  induction transactions as [|t transactions IH]; intros d seen Hg; simpl.
  - now rewrite app_nil_r.
  - replace (seen ++ t :: transactions) with ((seen ++ [t]) ++ transactions)
      by (rewrite <- app_assoc; reflexivity).
    apply IH. now apply grouped_step.
Qed.

(** The groups are the merchants that occur, each with its rows in
    stored order. *)
Lemma group_by_merchant_spec (transactions : list Row) (k : str)
      (rows : list Row) :
  In (k, rows) (group_by_merchant transactions)
  <-> rows = rows_of k transactions /\ rows <> [].
Proof.
  assert (H0 : grouped [] []).
  { split; [constructor|]. intros k' rows'. simpl. split; [tauto|].
    intros [-> H]. now apply H. }
  destruct (grouped_fold transactions H0) as [_ H]. apply H.
Qed.

Lemma rows_of_In (k : str) (transactions : list Row) (r : Row) :
  In r (rows_of k transactions) <-> In r transactions /\ merchant r = k.
Proof. unfold rows_of. now rewrite filter_In, str_eqb_eq. Qed.

Lemma flag_row_In (z_thresh : Q) (m : str) (med m_mad : Q) (r : Row)
      (e : MerchantAnomaly) :
  In e (flag_row z_thresh m med m_mad r)
  <-> z_thresh <= Qabs (robust_z (Qabs (amount r)) med m_mad)
      /\ e = mkMerchantAnomaly m (txn_id r) (amount r)
               (robust_z (Qabs (amount r)) med m_mad) med m_mad.
Proof.
  unfold flag_row. destruct (Qle_bool _ _) eqn:E.
  - apply Qle_bool_iff in E. simpl. split.
    + intros [<-|[]]. now split.
    + intros [_ ->]. now left.
  - split; [intros []|]. intros [H _].
    apply Qle_bool_iff in H. congruence.
Qed.

End AnomaliesFacts.

(* ================================================================== *)
(** * Facts about core/normalize.py *)
(* ================================================================== *)

Module NormalizeFacts.
Import Str StrFacts Normalize NormalizeSpec.

Ltac each_char c :=
  destruct c as [[] [] [] [] [] [] [] []]; vm_compute; try reflexivity;
  try discriminate; try tauto.

Lemma upper_char_idem (c : ascii) : upper_char (upper_char c) = upper_char c.
Proof. each_char c. Qed.

Lemma is_space_upper (c : ascii) : is_space (upper_char c) = is_space c.
Proof. each_char c. Qed.

Lemma space_not_word (c : ascii) : is_space c = true -> is_word c = false.
Proof. each_char c. Qed.

Lemma take_while_run (p : ascii -> bool) (run rest : str) :
  Forall (fun c => p c = true) run ->
  (forall c, hd_error rest = Some c -> p c = false) ->
  take_while p (run ++ rest) = run /\ drop_while p (run ++ rest) = rest.
Proof.
  intros Hrun Hrest. induction Hrun as [|c run Hc Hrun IH]; simpl.
  - destruct rest as [|c rest]; simpl; [now split|].
    rewrite (Hrest c eq_refl). now split.
  - rewrite Hc. destruct IH as [-> ->]. now split.
Qed.

Lemma drop_while_head (p : ascii -> bool) (s : str) :
  (forall c, hd_error s = Some c -> p c = false) -> drop_while p s = s.
Proof.
  destruct s as [|c s]; simpl; [reflexivity|].
  intros H. now rewrite (H c eq_refl).
Qed.

Lemma drop_while_head_false (p : ascii -> bool) (s : str) (c : ascii) :
  hd_error (drop_while p s) = Some c -> p c = false.
Proof.
  induction s as [|x s IH]; simpl; [discriminate|].
  destruct (p x) eqn:E; [assumption|].
  simpl. intros H. injection H as <-. exact E.
Qed.

(** A stripped string ends in no white space. *)
Lemma strip_last (s : str) (c : ascii) :
  hd_error (rev (strip s)) = Some c -> is_space c = false.
Proof.
  unfold strip, rstrip. rewrite rev_involutive.
  apply drop_while_head_false.
Qed.

Lemma upper_last (s : str) (c : ascii) :
  hd_error (rev (upper s)) = Some c ->
  exists c0, hd_error (rev s) = Some c0 /\ c = upper_char c0.
Proof.
  unfold upper. rewrite <- map_rev.
  destruct (rev s) as [|c0 r]; simpl; [discriminate|].
  intros H. injection H as <-. now exists c0.
Qed.

Lemma strip_fixed (s : str) :
  (forall c, hd_error s = Some c -> is_space c = false) ->
  (forall c, hd_error (rev s) = Some c -> is_space c = false) ->
  strip s = s.
Proof.
  intros Hhd Hlast. unfold strip, lstrip, rstrip.
  rewrite (drop_while_head _ _ Hhd), (drop_while_head _ _ Hlast).
  apply rev_involutive.
Qed.

Lemma upper_fixed (s : str) :
  Forall (fun c => upper_char c = c) s -> upper s = s.
Proof.
  induction 1 as [|c s Hc Hs IH]; simpl; [reflexivity|].
  now rewrite Hc, IH.
Qed.

Lemma upper_is_upper (s : str) : Forall (fun c => upper_char c = c) (upper s).
Proof.
  induction s as [|c s IH]; simpl; constructor;
    [apply upper_char_idem | exact IH].
Qed.

Section Sub.
Variable m : option ascii -> str -> option nat.
Variable repl : str.

(** Skipping the rest of a match. *)
Lemma sub_from_skip (skipped rest : str) (prev : option ascii) :
  sub_from m repl prev (length skipped) (skipped ++ rest)
  = sub_from m repl
      (match rev skipped with c :: _ => Some c | [] => prev end) 0 rest.
Proof.
  revert prev. induction skipped as [|c skipped IH]; intros prev.
  - reflexivity.
  - simpl length. simpl app. simpl sub_from at 1. rewrite IH.
    simpl rev. destruct (rev skipped); reflexivity.
Qed.

(** When the pattern looks at the character in front only to tell a word
    character from the rest, so does the substitution. *)
Lemma sub_from_prev (prev prev' : option ascii) (s : str) :
  (forall r, m prev r = m prev' r) ->
  sub_from m repl prev 0 s = sub_from m repl prev' 0 s.
Proof.
  intros H. destruct s as [|c s]; simpl; [reflexivity|].
  now rewrite H.
Qed.
End Sub.

Lemma PAYPAL_PREFIX_prev (prev prev' : option ascii) (s : str) :
  is_word_opt prev = is_word_opt prev' ->
  PAYPAL_PREFIX prev s = PAYPAL_PREFIX prev' s.
Proof. unfold PAYPAL_PREFIX. now intros ->. Qed.

(** The prefix with its asterisk is matched at the start of the text. *)
Lemma PAYPAL_PREFIX_match (ws1 ws2 rest : str) :
  spaces ws1 -> spaces ws2 -> no_space_first rest ->
  PAYPAL_PREFIX None (chars "PAYPAL" ++ ws1 ++ star :: ws2 ++ rest)
  = Some (length (chars "PAYPAL" ++ ws1 ++ star :: ws2)).
Proof.
  intros H1 H2 Hrest. unfold PAYPAL_PREFIX.
  change (is_word_opt None) with false. cbv iota.
  change (strip_prefix_ci (chars "PAYPAL")
            (chars "PAYPAL" ++ ws1 ++ star :: ws2 ++ rest))
    with (Some (ws1 ++ star :: ws2 ++ rest)).
  cbv iota beta.
  assert (Hw : is_word_opt (hd_error (ws1 ++ star :: ws2 ++ rest)) = false).
  { destruct H1 as [|c ws1 Hc _]; simpl; [reflexivity|].
    now apply space_not_word. }
  rewrite Hw.
  destruct (@take_while_run is_space ws1 (star :: ws2 ++ rest) H1) as [-> ->].
  { simpl. intros c H. injection H as <-. reflexivity. }
  rewrite Ascii.eqb_refl.
  destruct (@take_while_run is_space ws2 rest H2 Hrest) as [-> _].
  f_equal. rewrite !length_app. simpl. lia.
Qed.

Lemma rev_prefix_last (ws1 ws2 : str) :
  spaces ws2 ->
  exists c r, rev (chars "AYPAL" ++ ws1 ++ star :: ws2) = c :: r
              /\ is_word c = false.
Proof.
  intros H2.
  replace (chars "AYPAL" ++ ws1 ++ star :: ws2)
    with ((chars "AYPAL" ++ ws1) ++ [star] ++ ws2)
    by (rewrite <- app_assoc; reflexivity).
  rewrite (rev_app_distr (chars "AYPAL" ++ ws1)), (rev_app_distr [star]).
  destruct (rev ws2) as [|c r] eqn:E.
  - simpl. eexists _, _. split; [reflexivity|]. reflexivity.
  - simpl. eexists _, _. split; [reflexivity|].
    apply space_not_word.
    unfold spaces in H2. rewrite Forall_forall in H2. apply H2.
    apply in_rev. rewrite E. now left.
Qed.

(** The substitution removes a leading prefix with its asterisk and goes
    on as from the start of a text. *)
Lemma sub_PAYPAL_PREFIX_leading (ws1 ws2 rest : str) :
  spaces ws1 -> spaces ws2 -> no_space_first rest ->
  sub PAYPAL_PREFIX [] (chars "PAYPAL" ++ ws1 ++ star :: ws2 ++ rest)
  = sub PAYPAL_PREFIX [] rest.
Proof.
  intros H1 H2 Hrest. unfold sub.
  pose proof (PAYPAL_PREFIX_match H1 H2 Hrest) as Hm.
  change (chars "PAYPAL" ++ ws1 ++ star :: ws2 ++ rest)
    with ("P"%char :: (chars "AYPAL" ++ ws1 ++ star :: ws2 ++ rest)) in *.
  change (length (chars "PAYPAL" ++ ws1 ++ star :: ws2))
    with (S (length (chars "AYPAL" ++ ws1 ++ star :: ws2))) in Hm.
  cbn [sub_from]. rewrite Hm. cbn [app].
  replace (chars "AYPAL" ++ ws1 ++ star :: ws2 ++ rest)
    with ((chars "AYPAL" ++ ws1 ++ star :: ws2) ++ rest)
    by (rewrite <- !app_assoc; reflexivity).
  rewrite sub_from_skip.
  destruct (rev_prefix_last ws1 H2) as [c [r [-> Hc]]].
  apply sub_from_prev. intros s. apply PAYPAL_PREFIX_prev. exact Hc.
Qed.

(** The text after the prefix is itself trimmed and in upper case. *)
Lemma rest_normal (raw before rest : str) :
  no_space_first rest ->
  upper (strip raw) = before ++ rest ->
  upper (strip rest) = rest.
Proof.
  intros Hfirst Heq.
  assert (Hup : upper rest = rest).
  { apply upper_fixed. pose proof (upper_is_upper (strip raw)) as H.
    rewrite Heq in H. apply Forall_app in H. tauto. }
  rewrite strip_fixed; [exact Hup | exact Hfirst |].
  intros c Hc.
  assert (Hlast : hd_error (rev (upper (strip raw))) = Some c).
  { rewrite Heq, rev_app_distr.
    destruct (rev rest); [discriminate | exact Hc]. }
  apply upper_last in Hlast. destruct Hlast as [c0 [Hc0 ->]].
  rewrite is_space_upper. eapply strip_last. exact Hc0.
Qed.

(** C6, as the code has it.  The asterisk is required: when the trimmed
    and upper-cased text begins with the word PAYPAL, white space or
    none, an asterisk, and white space or none, the normalized result is
    the normalization of the text behind that prefix. *)
Theorem clean_merchant_strips_paypal_asterisk_prefix :
  forall raw ws1 ws2 rest : str,
    spaces ws1 -> spaces ws2 -> no_space_first rest ->
    upper (strip raw) = chars "PAYPAL" ++ ws1 ++ star :: ws2 ++ rest ->
    clean_merchant raw = clean_merchant rest.
Proof.
  intros raw ws1 ws2 rest H1 H2 Hrest Heq.
  assert (Hnorm : upper (strip rest) = rest).
  { apply rest_normal with (raw := raw)
                           (before := chars "PAYPAL" ++ ws1 ++ star :: ws2).
    - exact Hrest.
    - rewrite Heq, <- !app_assoc. reflexivity. }
  unfold clean_merchant.
  rewrite Heq, Hnorm, (sub_PAYPAL_PREFIX_leading H1 H2 Hrest).
  reflexivity.
Qed.

Lemma clean_merchant_paypal_netflix :
  clean_merchant (chars "paypal *Netflix.com")
  = clean_merchant (chars "NETFLIX.COM").
Proof.
  apply (@clean_merchant_strips_paypal_asterisk_prefix
           (chars "paypal *Netflix.com") (chars " ") [] (chars "NETFLIX.COM")).
  - repeat constructor.
  - constructor.
  - intros c H. injection H as <-. reflexivity.
  - reflexivity.
Defined.

(** C6, as stated, fails: without an asterisk the prefix stays.  The
    text "PAYPAL NETFLIX" begins with the word PAYPAL and white space,
    and is returned unchanged. *)
Lemma clean_merchant_keeps_paypal_without_asterisk :
  upper (strip (chars "PAYPAL NETFLIX"))
  = chars "PAYPAL" ++ chars " " ++ chars "NETFLIX"
  /\ clean_merchant (chars "PAYPAL NETFLIX") = chars "PAYPAL NETFLIX"
  /\ startswith (clean_merchant (chars "PAYPAL NETFLIX")) (chars "PAYPAL ")
     = true.
Proof. repeat split; vm_compute; reflexivity. Qed.

End NormalizeFacts.

(* ================================================================== *)
(** * Monthly charges of a constant amount *)
(* ================================================================== *)

Module CalendarFacts.
Import Stats StatsFacts Recurring DetectSpec RecurringFacts Calendar.

Local Ltac Zify.zify_post_hook ::= Z.div_mod_to_equations.

Section Months.
Local Open Scope Z_scope.











End Months.

Section Counting.
Local Open Scope Q_scope.

















End Counting.

End CalendarFacts.

(* ================================================================== *)
(** * Facts about db/repo.py *)
(* ================================================================== *)

Module RepoFacts.
Import Str Recurring EngineSpec.

Lemma fold_left_inv (A S : Type) (f : S -> A -> S) (P : S -> Prop)
      (l : list A) :
  (forall s x, In x l -> P s -> P (f s x)) ->
  forall s, P s -> P (fold_left f l s).
Proof.
  induction l as [|x l IH]; intros Hf s Hs; simpl.
  - exact Hs.
  - apply IH.
    + intros s' y Hy. apply Hf. now right.
    + apply Hf; [now left | exact Hs].
Qed.

(** An invariant that speaks of the elements done so far. *)
Lemma fold_left_prefix_inv (A S : Type) (f : S -> A -> S)
      (I : list A -> S -> Prop) (l : list A) :
  (forall done x s, I done s -> I (done ++ [x]) (f s x)) ->
  forall s, I [] s -> I l (fold_left f l s).
Proof.
  intros Hf.
  assert (H : forall done s, I done s -> I (done ++ l) (fold_left f l s)).
  { induction l as [|x l IH]; intros done s Hs; simpl.
    - now rewrite app_nil_r.
    - replace (done ++ x :: l) with ((done ++ [x]) ++ l)
        by (rewrite <- app_assoc; reflexivity).
      apply IH. now apply Hf. }
  intros s Hs. apply (H [] s Hs).
Qed.

(** Two runs of a loop from related states stay related. *)
Lemma fold_left_rel (A S : Type) (f : S -> A -> S) (R : S -> S -> Prop)
      (l : list A) :
  (forall s s' x, R s s' -> R (f s x) (f s' x)) ->
  forall s s', R s s' -> R (fold_left f l s) (fold_left f l s').
Proof.
  intros Hf. induction l as [|x l IH]; intros s s' H; simpl.
  - exact H.
  - apply IH. now apply Hf.
Qed.

Lemma set_events_same (r : Repo.t) : Repo.set_events r (Repo.events r) = r.
Proof. destruct r; reflexivity. Qed.

Section Appends.
Variable ok : Event.t -> Prop.

Lemma appends_refl (r : Repo.t) : appends ok r r.
Proof.
  exists []. split; [|constructor].
  rewrite app_nil_r. symmetry. apply set_events_same.
Qed.

Lemma appends_trans (r1 r2 r3 : Repo.t) :
  appends ok r1 r2 -> appends ok r2 r3 -> appends ok r1 r3.
Proof.
  intros [a1 [-> H1]] [a2 [-> H2]]. exists (a1 ++ a2). split.
  - destruct r1; simpl. now rewrite app_assoc.
  - apply Forall_app. now split.
Qed.

Lemma appends_add_event (r : Repo.t) (ty : Event.type_)
      (sev : Event.severity_) (evd : Event.evidence_)
      (mid sid tid : option Z) :
  (forall id, ok (Event.mk id ty sev mid sid tid evd false)) ->
  appends ok r (Repo.add_event r ty sev evd mid sid tid).
Proof.
  intros H. eexists. split; [reflexivity|].
  constructor; [apply H | constructor].
Qed.

Lemma appends_fold (A : Type) (f : Repo.t -> A -> Repo.t) (l : list A) :
  (forall r x, In x l -> appends ok r (f r x)) ->
  forall r, appends ok r (fold_left f l r).
Proof.
  intros Hf r.
  apply (@fold_left_inv A Repo.t f (appends ok r) l).
  - intros s x Hx Hs. apply appends_trans with s; [exact Hs | now apply Hf].
  - apply appends_refl.
Qed.

Lemma appends_frame (r r' : Repo.t) :
  appends ok r r' ->
  Repo.transactions r' = Repo.transactions r
  /\ Repo.merchants r' = Repo.merchants r
  /\ Repo.series r' = Repo.series r
  /\ exists added, Repo.events r' = Repo.events r ++ added /\ Forall ok added.
Proof.
  intros [added [-> H]]. repeat split. now exists added.
Qed.
End Appends.

Lemma upsert_series_frame (r : Repo.t) (mid : Z) (res : SeriesResult)
      (last_txn : Z) (status : str) :
  let r' := fst (Repo.upsert_series r mid res last_txn status) in
  Repo.transactions r' = Repo.transactions r
  /\ Repo.merchants r' = Repo.merchants r
  /\ Repo.events r' = Repo.events r
  /\ (exists rs, In rs (Repo.series r')
                 /\ RecurringSeries.merchant_id rs = mid
                 /\ RecurringSeries.status rs = status)
  /\ (forall rs, In rs (Repo.series r) ->
                 RecurringSeries.merchant_id rs <> mid ->
                 In rs (Repo.series r')).
Proof.
  simpl. repeat split.
  - eexists. split; [apply in_or_app; right; left; reflexivity|].
    split; reflexivity.
  - intros rs Hin Hne. apply in_or_app. left.
    apply filter_In. split; [exact Hin|].
    apply negb_true_iff, Z.eqb_neq. exact Hne.
Qed.

Lemma list_for_merchant_length (r : Repo.t) (mid : Z) (limit : nat) :
  length (Repo.list_transactions_for_merchant r mid limit)
  = Nat.min limit (txn_count r mid).
Proof.
  unfold Repo.list_transactions_for_merchant, txn_count.
  now rewrite length_firstn, PyFacts.sorted_length.
Qed.

End RepoFacts.

(* ================================================================== *)
(** * Facts about core/engine.py *)
(* ================================================================== *)

Module EngineFacts.
Import Str Stats StatsFacts Recurring RecurringFacts EngineSpec RepoFacts.

(** With as many dates as amounts, at least [min_points] and at least two
    of them, the detector has a result. *)
Lemma detect_recurring_some (dates : list datetime) (amounts : list Q)
      (min_points : Z) :
  length dates = length amounts ->
  (min_points <= Z.of_nat (length dates))%Z ->
  (2 <= length dates)%nat ->
  exists r, detect_recurring dates amounts min_points = Some r.
Proof.
  intros Hlen Hmin Htwo. unfold detect_recurring.
  replace (Z.of_nat (length dates) <? min_points)%Z with false
    by (symmetry; apply Z.ltb_ge; lia).
  rewrite (sorted_dates _ _ Hlen).
  pose proof (day_gaps_nonempty _ Htwo) as Hgaps.
  destruct (day_gaps (Py.sorted Z.leb dates)); [congruence|].
  eexists. reflexivity.
Qed.

Section Events.
Variable P : Z -> Prop.

Lemma new_subscription_appends (now : datetime) (r : Repo.t)
      (row : Engine.series_row) :
  P (Merchant.id (row_merchant row)) ->
  appends (open_for P) r (Engine.new_subscription now r row).
Proof.
  destruct row as [[[m sid] res] tx].
  unfold Engine.new_subscription, row_merchant. intros Hm.
  destruct (_ && _); [|apply appends_refl].
  apply appends_add_event. intros id. split; [reflexivity|].
  simpl. intros mid H. injection H as <-. exact Hm.
Qed.

Lemma price_change_appends (r : Repo.t) (row : Engine.series_row) :
  P (Merchant.id (row_merchant row)) ->
  appends (open_for P) r (Engine.price_change r row).
Proof.
  destruct row as [[[m sid] res] tx].
  unfold Engine.price_change, row_merchant. intros Hm.
  destruct (5 <=? length tx)%nat; [|apply appends_refl].
  destruct (Qltb _ _); [|apply appends_refl].
  apply appends_add_event. intros id. split; [reflexivity|].
  simpl. intros mid H. injection H as <-. exact Hm.
Qed.

Lemma duplicate_at_appends (m : Merchant.t) (sid : Z)
      (tx : list Transaction.t) (r : Repo.t) (i : nat) :
  P (Merchant.id m) ->
  appends (open_for P) r (Engine.duplicate_at m sid tx r i).
Proof.
  intros Hm. unfold Engine.duplicate_at.
  destruct (nth_error tx i); [|apply appends_refl].
  destruct (nth_error tx (S i)); [|apply appends_refl].
  destruct (Engine.is_duplicate _ _); [|apply appends_refl].
  apply appends_add_event. intros id. split; [reflexivity|].
  simpl. intros mid H. injection H as <-. exact Hm.
Qed.

Lemma duplicates_appends (r : Repo.t) (row : Engine.series_row) :
  P (Merchant.id (row_merchant row)) ->
  appends (open_for P) r (Engine.duplicates r row).
Proof.
  destruct row as [[[m sid] res] tx].
  unfold Engine.duplicates, row_merchant. intros Hm.
  apply appends_fold. intros r' i _. now apply duplicate_at_appends.
Qed.

Lemma events_for_series_appends (now : datetime) (r : Repo.t)
      (rows : list Engine.series_row) :
  (forall row, In row rows -> P (Merchant.id (row_merchant row))) ->
  appends (open_for P) r (Engine._events_for_series now r rows).
Proof.
  intros Hrows. unfold Engine._events_for_series.
  apply appends_fold. intros r' row Hin.
  pose proof (Hrows row Hin) as Hm.
  eapply appends_trans; [|now apply duplicates_appends].
  eapply appends_trans; [|now apply price_change_appends].
  now apply new_subscription_appends.
Qed.

Lemma events_for_anomalies_appends (r : Repo.t) :
  appends (open_for P) r (Engine._events_for_anomalies r).
Proof.
  unfold Engine._events_for_anomalies.
  assert (Hnone : forall id ty sev tid evd,
             open_for P (Event.mk id ty sev None None tid evd false)).
  { intros. split; [reflexivity | discriminate]. }
  eapply appends_trans; [eapply appends_trans|];
    apply appends_fold; intros; apply appends_add_event; intros;
    apply Hnone.
Qed.
End Events.

Lemma txn_count_transactions (r r' : Repo.t) (mid : Z) :
  Repo.transactions r = Repo.transactions r' ->
  txn_count r mid = txn_count r' mid.
Proof. unfold txn_count. now intros ->. Qed.


Lemma three_below_limit : (3 <= 10000)%nat.
Proof. apply Nat.leb_le. vm_compute. reflexivity. Qed.

Lemma limited_three (c : nat) : (3 <= Nat.min 10000 c <-> 3 <= c)%nat.
Proof.
  split; intros H.
  - eapply Nat.le_trans; [exact H | apply Nat.le_min_r].
  - apply Nat.min_glb; [exact three_below_limit | exact H].
Qed.

Lemma tx_length (r r0 : Repo.t) (mid : Z) :
  Repo.transactions r = Repo.transactions r0 ->
  length (rev (Repo.list_transactions_for_merchant r mid 10000))
  = Nat.min 10000 (txn_count r0 mid).
Proof.
  intros HT. rewrite length_rev, list_for_merchant_length.
  unfold txn_count. now rewrite HT.
Qed.

Lemma series_step_inv (r0 : Repo.t) (done : list Merchant.t)
      (st : Repo.t * list Engine.series_row) (m : Merchant.t) :
  series_loop_inv r0 done st ->
  series_loop_inv r0 (done ++ [m]) (Engine.series_step st m).
Proof.
  destruct st as [r rows]. intros (HT & HM & HE & Hrows & Hdone).
  simpl in HT, HM, HE, Hrows, Hdone.
  unfold Engine.series_step.
  pose proof (@tx_length r r0 (Merchant.id m) HT) as Hlen.
  set (tx := rev (Repo.list_transactions_for_merchant r (Merchant.id m) 10000))
    in *.
  destruct (length tx <? 3)%nat eqn:E3.
  - apply Nat.ltb_lt in E3.
    unfold series_loop_inv. simpl fst. simpl snd.
    repeat (split; [assumption|]).
    intros m' Hin Hc. apply in_app_or in Hin.
    destruct Hin as [Hin|[<-|[]]]; [now apply Hdone|].
    apply (proj2 (limited_three _)) in Hc. rewrite <- Hlen in Hc. lia.
  - apply Nat.ltb_ge in E3.
    destruct (@detect_recurring_some (map Transaction.posted_at tx)
                (map Transaction.amount tx) 3) as [res Hres].
    + now rewrite !length_map.
    + rewrite length_map. lia.
    + rewrite length_map. lia.
    + rewrite Hres.
      pose proof (upsert_series_frame r (Merchant.id m) res
                    (last (map Transaction.id tx) 0%Z) (chars "active"))
        as (F1 & F2 & F3 & F4 & F5).
      destruct (Repo.upsert_series r (Merchant.id m) res
                  (last (map Transaction.id tx) 0%Z) (chars "active"))
        as [r' sid].
      simpl fst in *. simpl snd in *.
      unfold series_loop_inv. simpl fst. simpl snd.
      split; [congruence|]. split; [congruence|]. split; [congruence|].
      split.
      * intros row Hin. apply in_app_or in Hin.
        destruct Hin as [Hin|[<-|[]]]; [now apply Hrows|].
        simpl. apply (proj1 (limited_three _)). rewrite <- Hlen. exact E3.
      * intros m' Hin Hc.
        destruct (Z.eq_dec (Merchant.id m') (Merchant.id m)) as [Heq|Hne].
        -- rewrite Heq. exact F4.
        -- apply in_app_or in Hin.
           destruct Hin as [Hin|[<-|[]]]; [|congruence].
           destruct (Hdone m' Hin Hc) as [rs [Hrs [Hid Hst]]].
           exists rs. split; [|now split].
           apply F5; [exact Hrs | congruence].
Qed.

Lemma series_loop (r0 : Repo.t) (ms : list Merchant.t) :
  series_loop_inv r0 ms (fold_left Engine.series_step ms (r0, [])).
Proof.
  apply (@fold_left_prefix_inv _ _ Engine.series_step (series_loop_inv r0)).
  - intros done x st. apply series_step_inv.
  - repeat split; simpl; intros; contradiction.
Qed.

(** After [recompute]: nothing but events came on top of the state that
    the series loop left, and every event is undismissed and names, if
    any, a merchant with at least three transactions. *)
Lemma recompute_shape (X : Repo.Externals) (now : datetime) (repo : Repo.t) :
  let r0 := ledger (fst (Engine.resolve_merchants X repo
                           Engine.default_fuzzy_threshold)) in
  let st := fold_left Engine.series_step (Repo.list_merchants r0) (r0, []) in
  appends (open_for (fun mid => (3 <= txn_count r0 mid)%nat))
          (fst st) (Engine.recompute X now repo).
Proof.
  intros r0 st. unfold Engine.recompute, Engine.detect_series.
  change (Repo.clear_recurring_and_events
            (fst (Engine.resolve_merchants X repo
                    Engine.default_fuzzy_threshold))) with r0.
  fold st. destruct (series_loop r0 (Repo.list_merchants r0))
    as (_ & _ & _ & Hrows & _).
  fold st in Hrows. destruct st as [r2 rows]. simpl fst. simpl in Hrows.
  eapply appends_trans.
  - apply events_for_series_appends. exact Hrows.
  - apply events_for_anomalies_appends.
Qed.


Lemma ledger_events (r : Repo.t) : Repo.events (ledger r) = [].
Proof. destruct r; reflexivity. Qed.

Lemma ledger_eq (r r' : Repo.t) :
  ledger r = ledger r' <->
  Repo.crypto_key r = Repo.crypto_key r'
  /\ Repo.transactions r = Repo.transactions r'
  /\ Repo.merchants r = Repo.merchants r'
  /\ Repo.aliases r = Repo.aliases r'.
Proof.
  destruct r, r'. unfold ledger. simpl. split.
  - intros H. injection H. auto.
  - intros (-> & -> & -> & ->). reflexivity.
Qed.

(** A round of the resolver reads and writes the ledger only. *)
Lemma resolve_step_ledger (X : Repo.Externals)
      (aliases : list MerchantAlias.t) (merchants : list Merchant.t)
      (thr : Q) (r r' : Repo.t) (u : nat) (t : Transaction.t) :
  ledger r = ledger r' ->
  ledger (fst (Engine.resolve_step X aliases merchants thr (r, u) t))
  = ledger (fst (Engine.resolve_step X aliases merchants thr (r', u) t))
  /\ snd (Engine.resolve_step X aliases merchants thr (r, u) t)
     = snd (Engine.resolve_step X aliases merchants thr (r', u) t).
Proof.
  intros H. apply ledger_eq in H.
  destruct r as [k T M A S E], r' as [k' T' M' A' S' E'].
  simpl in H. destruct H as (<- & <- & <- & <-).
  unfold Engine.resolve_step, Engine.choose, Repo.decrypt_field,
    Repo.get_or_create_merchant, Repo.set_txn_merchant,
    Repo.set_merchants, Repo.set_transactions, ledger, Repo.set_series,
    Repo.set_events.
  cbn [Repo.crypto_key Repo.transactions Repo.merchants Repo.aliases
       Repo.series Repo.events].
  destruct (Engine.alias_match _ _);
    [destruct (Engine.same_merchant _ _); split; reflexivity|].
  destruct (Engine.hint_match _ _);
    [destruct (Engine.same_merchant _ _); split; reflexivity|].
  destruct (Engine.fuzzy_match _ _ _ _);
    [destruct (Engine.same_merchant _ _); split; reflexivity|].
  destruct (Normalize.clean_merchant _);
    [destruct (Engine.same_merchant _ _); split; reflexivity|].
  destruct (find _ M);
    destruct (Engine.same_merchant _ _); split; reflexivity.
Qed.

Lemma resolve_merchants_ledger (X : Repo.Externals) (thr : Q)
      (r r' : Repo.t) :
  ledger r = ledger r' ->
  ledger (fst (Engine.resolve_merchants X r thr))
  = ledger (fst (Engine.resolve_merchants X r' thr)).
Proof.
  intros H. pose proof H as Hl. apply ledger_eq in Hl.
  destruct Hl as (Hk & HT & HM & HA).
  unfold Engine.resolve_merchants, Repo.list_aliases, Repo.list_merchants,
    Repo.list_transactions.
  rewrite <- HT, <- HM, <- HA.
  set (f := Engine.resolve_step X (Repo.aliases r)
              (Py.sorted Repo.by_name (Repo.merchants r)) thr).
  apply (@fold_left_rel _ _ f
           (fun s s' => ledger (fst s) = ledger (fst s') /\ snd s = snd s')).
  - intros [s u] [s' u'] t [Hs Hu]. simpl in Hs, Hu. subst u'.
    now apply resolve_step_ledger.
  - now split.
Qed.

(** C3.  A recompute deletes all stored events and series before it
    builds new ones: what it leaves depends on the ledger alone, whatever
    events were stored, every event it leaves is undismissed, and no
    event that was dismissed before is there any more. *)
Theorem recompute_drops_every_event :
  forall (X : Repo.Externals) (now : datetime) (repo : Repo.t),
    (forall repo' : Repo.t,
        ledger repo' = ledger repo ->
        Engine.recompute X now repo' = Engine.recompute X now repo)
    /\ all_open (Engine.recompute X now repo)
    /\ (forall e : Event.t,
           In e (Repo.events repo) -> Event.is_dismissed e = true ->
           ~ In e (Repo.events (Engine.recompute X now repo))).
Proof.
  intros X now repo.
  assert (Hopen : all_open (Engine.recompute X now repo)).
  { pose proof (recompute_shape X now repo) as Hshape. cbv zeta in Hshape.
    set (r0 := ledger (fst (Engine.resolve_merchants X repo
                              Engine.default_fuzzy_threshold))) in *.
    pose proof (series_loop r0 (Repo.list_merchants r0))
      as (_ & _ & HE & _ & _).
    apply appends_frame in Hshape.
    destruct Hshape as (_ & _ & _ & added & Hev & Hok).
    intros e He. rewrite Hev, HE in He. unfold r0 in He.
    rewrite ledger_events, app_nil_l in He.
    rewrite Forall_forall in Hok. now apply Hok. }
  split; [|split].
  - intros repo' Hl.
    unfold Engine.recompute, Engine.detect_series.
    change Repo.clear_recurring_and_events with ledger.
    now rewrite (resolve_merchants_ledger X _ Hl).
  - exact Hopen.
  - intros e _ Hd Hin. apply Hopen in Hin. congruence.
Qed.

Lemma recompute_forgets_dismissal :
  Engine.recompute Samples.externals Samples.now Samples.once
  = Engine.recompute Samples.externals Samples.now Samples.dismissed
  /\ all_open (Engine.recompute Samples.externals Samples.now Samples.dismissed)
  /\ ~ In Samples.dismissed_event
         (Repo.events
            (Engine.recompute Samples.externals Samples.now Samples.dismissed)).
Proof.
  destruct (recompute_drops_every_event Samples.externals Samples.now
              Samples.dismissed) as (H1 & H2 & H3).
  split; [|split].
  - apply H1. reflexivity.
  - exact H2.
  - apply H3.
    + vm_compute. left. reflexivity.
    + reflexivity.
Defined.

Lemma is_duplicate_two_hours (a b : Transaction.t) :
  Transaction.posted_at b = (Transaction.posted_at a + 2 * HOUR)%Z ->
  Transaction.amount b == Transaction.amount a ->
  Engine.is_duplicate a b = true.
Proof.
  intros Ht Ha. unfold Engine.is_duplicate. rewrite Ht.
  replace (Transaction.posted_at a + 2 * HOUR - Transaction.posted_at a)%Z
    with (2 * HOUR)%Z by ring.
  apply andb_true_intro. split; [vm_compute; reflexivity|].
  apply Qle_bool_iff. rewrite Ha.
  setoid_replace (Transaction.amount a - Transaction.amount a) with 0
    by ring.
  change (Qabs 0) with 0. unfold max2.
  destruct (Qltb _ 1) eqn:E; [lra|]. apply Qltb_ge in E. lra.
Qed.

(** A recompute builds series rows only for merchants with at least
    three transactions: no event it leaves names a merchant with fewer. *)
Lemma recompute_no_event_below_three (X : Repo.Externals) (now : datetime)
      (repo : Repo.t) (mid : Z) (e : Event.t) :
  (txn_count (Engine.recompute X now repo) mid < 3)%nat ->
  In e (Repo.events (Engine.recompute X now repo)) ->
  Event.merchant_id e <> Some mid.
Proof.
  intros Hlt Hin Hmid.
  pose proof (recompute_shape X now repo) as Hshape. cbv zeta in Hshape.
  set (r0 := ledger (fst (Engine.resolve_merchants X repo
                            Engine.default_fuzzy_threshold))) in *.
  pose proof (series_loop r0 (Repo.list_merchants r0))
    as (HT & _ & HE & _ & _).
  apply appends_frame in Hshape.
  destruct Hshape as (FT & _ & _ & added & Hev & Hok).
  rewrite Hev, HE in Hin. unfold r0 in Hin.
  rewrite ledger_events in Hin. rewrite app_nil_l in Hin.
  rewrite Forall_forall in Hok. destruct (Hok e Hin) as [_ Hthree].
  specialize (Hthree mid Hmid).
  rewrite (@txn_count_transactions _ r0 mid (eq_trans FT HT)) in Hlt.
  exact (Nat.lt_irrefl _ (Nat.lt_le_trans _ _ _ Hlt Hthree)).
Qed.

(** C2, as stated, fails on a recompute: the merchant of [two_charges]
    has exactly two transactions, two hours apart and of equal amounts,
    and the recompute leaves no event at all. *)
Lemma two_charges_two_hours_apart_no_event :
  map (fun t => (Transaction.merchant_id t, Transaction.posted_at t,
                 Transaction.amount t))
      (Repo.transactions
         (Engine.recompute Samples.externals Samples.now Samples.two_charges))
  = [(Some 1, 100 * DAY, -999 # 100);
     (Some 1, 100 * DAY + 2 * HOUR, -999 # 100)]%Z
  /\ count_type Event.possible_duplicate
       (Repo.events
          (Engine.recompute Samples.externals Samples.now Samples.two_charges))
     = 0%nat.
Proof. split; vm_compute; reflexivity. Qed.

End EngineFacts.

(* ================================================================== *)
(** * Facts about the merchant resolver *)
(* ================================================================== *)

Module ResolverFacts.
Import Str Recurring EngineSpec RepoFacts.

Lemma set_transactions_same (r : Repo.t) :
  Repo.set_transactions r (Repo.transactions r) = r.
Proof. destruct r; reflexivity. Qed.

Lemma same_merchant_eq (a b : option Z) :
  Engine.same_merchant a b = true <-> a = b.
Proof.
  destruct a as [x|], b as [y|]; simpl; try (split; congruence).
  rewrite Z.eqb_eq. split; congruence.
Qed.

Lemma with_merchant_id_same (t : Transaction.t) :
  Transaction.with_merchant_id t (Transaction.merchant_id t) = t.
Proof. destruct t; reflexivity. Qed.

Lemma with_merchant_id_id (t : Transaction.t) (c : option Z) :
  Transaction.id (Transaction.with_merchant_id t c) = Transaction.id t.
Proof. reflexivity. Qed.

Lemma assign_id (i : Z) (c : option Z) (x : Transaction.t) :
  Transaction.id (assign i c x) = Transaction.id x.
Proof. unfold assign. destruct (_ =? _)%Z; reflexivity. Qed.

Lemma map_assign_ids (i : Z) (c : option Z) (T : list Transaction.t) :
  map Transaction.id (map (assign i c) T) = map Transaction.id T.
Proof.
  rewrite map_map. apply map_ext. intros x. apply assign_id.
Qed.

(** [id] is the primary key: a row is known by it. *)
Lemma unique_row (T : list Transaction.t) (x t : Transaction.t) :
  NoDup (map Transaction.id T) -> In x T -> In t T ->
  Transaction.id x = Transaction.id t -> x = t.
Proof.
  induction T as [|y T IH]; simpl; intros Hnd Hx Ht Hid; [contradiction|].
  inversion Hnd as [|? ? Hy Hnd']; subst.
  destruct Hx as [<-|Hx], Ht as [<-|Ht].
  - reflexivity.
  - exfalso. apply Hy. rewrite Hid. now apply in_map.
  - exfalso. apply Hy. rewrite <- Hid. now apply in_map.
  - now apply IH.
Qed.

Lemma existsb_id_false (l : list Transaction.t) (i : Z) :
  ~ In i (map Transaction.id l) ->
  existsb (fun t => (Transaction.id t =? i)%Z) l = false.
Proof.
  induction l as [|t l IH]; simpl; intros H; [reflexivity|].
  rewrite IH by tauto.
  destruct (Z.eqb_spec (Transaction.id t) i); [tauto | reflexivity].
Qed.

Lemma existsb_id_true (l : list Transaction.t) (t : Transaction.t) :
  In t l -> existsb (fun t' => (Transaction.id t' =? Transaction.id t)%Z) l
            = true.
Proof.
  intros H. apply existsb_exists. exists t. split; [exact H|].
  apply Z.eqb_refl.
Qed.

(** A write of the value that is there changes nothing. *)
Lemma assign_noop (T : list Transaction.t) (t : Transaction.t) :
  NoDup (map Transaction.id T) -> In t T ->
  map (assign (Transaction.id t) (Transaction.merchant_id t)) T = T.
Proof.
  intros Hnd Ht. rewrite <- (map_id T) at 2. apply map_ext_in.
  intros x Hx. unfold assign.
  destruct (Z.eqb_spec (Transaction.id x) (Transaction.id t)) as [E|E];
    [|reflexivity].
  rewrite (unique_row T x t Hnd Hx Ht E). apply with_merchant_id_same.
Qed.

Lemma insert_commute (A : Type) (leb : A -> A -> bool) (g : A -> A) :
  (forall a b, leb (g a) (g b) = leb a b) ->
  forall x l, Py.insert leb (g x) (map g l) = map g (Py.insert leb x l).
Proof.
  intros Hg x l. induction l as [|y l IH]; simpl; [reflexivity|].
  rewrite Hg. destruct (leb x y); simpl; [reflexivity | now rewrite IH].
Qed.

(** A change of the rows that keeps their keys commutes with sorting. *)
Lemma sorted_commute (A : Type) (leb : A -> A -> bool) (g : A -> A) :
  (forall a b, leb (g a) (g b) = leb a b) ->
  forall l, Py.sorted leb (map g l) = map g (Py.sorted leb l).
Proof.
  intros Hg l. induction l as [|x l IH]; simpl; [reflexivity|].
  rewrite IH. now apply insert_commute.
Qed.

Lemma list_transactions_map (r : Repo.t) (g : Transaction.t -> Transaction.t)
      (n : nat) :
  (forall x, Transaction.posted_at (g x) = Transaction.posted_at x) ->
  Repo.list_transactions
    (Repo.set_transactions r (map g (Repo.transactions r))) n
  = map g (Repo.list_transactions r n).
Proof.
  intros Hg. unfold Repo.list_transactions.
  change (Repo.transactions
            (Repo.set_transactions r (map g (Repo.transactions r))))
    with (map g (Repo.transactions r)).
  rewrite sorted_commute, firstn_map; [reflexivity|].
  intros a b. unfold Repo.newest_first. now rewrite !Hg.
Qed.

Lemma list_transactions_In (r : Repo.t) (n : nat) (t : Transaction.t) :
  In t (Repo.list_transactions r n) -> In t (Repo.transactions r).
Proof.
  unfold Repo.list_transactions. intros H.
  apply ListFacts.In_firstn in H.
  apply (PyFacts.sorted_In Repo.newest_first). exact H.
Qed.

Lemma NoDup_firstn (A : Type) (n : nat) (l : list A) :
  NoDup l -> NoDup (firstn n l).
Proof.
  intros H. rewrite <- (firstn_skipn n l) in H.
  now apply NoDup_app_remove_r in H.
Qed.

Lemma list_transactions_NoDup (r : Repo.t) (n : nat) :
  NoDup (map Transaction.id (Repo.transactions r)) ->
  NoDup (map Transaction.id (Repo.list_transactions r n)).
Proof.
  intros H. unfold Repo.list_transactions.
  rewrite <- firstn_map. apply NoDup_firstn.
  eapply Permutation_NoDup; [|exact H].
  apply Permutation_map, Permutation_sym, PyFacts.sorted_perm.
Qed.

Lemma resolve_merchants_loop (X : Repo.Externals) (repo : Repo.t) (thr : Q) :
  Engine.resolve_merchants X repo thr
  = fold_left
      (Engine.resolve_step X (Repo.list_aliases repo)
                           (Repo.list_merchants repo) thr)
      (Repo.list_transactions repo 200000) (repo, 0%nat).
Proof. reflexivity. Qed.

Section Resolver.
Variable X : Repo.Externals.
Variable aliases : list MerchantAlias.t.
Variable merchants : list Merchant.t.
Variable thr : Q.

Let choose := Engine.choose X aliases merchants thr.
Let step := Engine.resolve_step X aliases merchants thr.

(** The choice reads the merchant table and the key, not the
    transactions. *)
Lemma choose_set_transactions (r : Repo.t) (T : list Transaction.t)
      (cleaned : str) :
  choose (Repo.set_transactions r T) cleaned
  = (Repo.set_transactions (fst (choose r cleaned)) T,
     snd (choose r cleaned)).
Proof.
  unfold choose, Engine.choose.
  destruct (Engine.alias_match _ _); [reflexivity|].
  destruct (Engine.hint_match _ _); [reflexivity|].
  destruct (Engine.fuzzy_match _ _ _ _); [reflexivity|].
  destruct cleaned as [|c cleaned]; [reflexivity|].
  unfold Repo.get_or_create_merchant, Repo.set_transactions,
    Repo.set_merchants.
  cbn [Repo.crypto_key Repo.transactions Repo.merchants Repo.aliases
       Repo.series Repo.events].
  destruct (find _ (Repo.merchants r)); reflexivity.
Qed.

(** The choice leaves the repository as it is or adds one merchant. *)
Lemma choose_grows (r : Repo.t) (cleaned : str) :
  fst (choose r cleaned) = r
  \/ exists m, fst (choose r cleaned)
               = Repo.set_merchants r (Repo.merchants r ++ [m]).
Proof.
  unfold choose, Engine.choose.
  destruct (Engine.alias_match _ _); [now left|].
  destruct (Engine.hint_match _ _); [now left|].
  destruct (Engine.fuzzy_match _ _ _ _); [now left|].
  destruct cleaned as [|c cleaned]; [now left|].
  unfold Repo.get_or_create_merchant.
  destruct (find _ (Repo.merchants r)); [now left|].
  right. eexists. reflexivity.
Qed.

(** One round of the loop from a repository that differs from [repo] in
    its transactions only. *)
Lemma step_set_transactions (repo : Repo.t) (T : list Transaction.t)
      (u : nat) (t : Transaction.t) :
  step (Repo.set_transactions repo T, u) t
  = let r' := fst (choose repo (cleaned_of X repo t)) in
    let c := pick X aliases merchants thr repo t in
    if Engine.same_merchant (Transaction.merchant_id t) c
    then (Repo.set_transactions r' T, u)
    else (Repo.set_transactions r' (map (assign (Transaction.id t) c) T),
          S u).
Proof.
  unfold step, Engine.resolve_step.
  change (Normalize.clean_merchant
            (Repo.decrypt_field X (Repo.set_transactions repo T)
               (Transaction.description_raw t)))
    with (cleaned_of X repo t).
  fold choose. rewrite choose_set_transactions.
  cbv zeta. unfold pick. fold choose.
  destruct (Engine.same_merchant _ _); reflexivity.
Qed.

Lemma step_merchants (r : Repo.t) (u : nat) (t : Transaction.t) :
  exists ext,
    Repo.merchants (fst (step (r, u) t)) = Repo.merchants r ++ ext.
Proof.
  replace (step (r, u) t)
    with (step (Repo.set_transactions r (Repo.transactions r), u) t)
    by (now rewrite set_transactions_same).
  rewrite step_set_transactions. cbv zeta.
  destruct (choose_grows r (cleaned_of X r t)) as [-> | [m ->]];
    destruct (Engine.same_merchant _ _);
    (exists []; cbn; now rewrite app_nil_r) || (exists [m]; reflexivity).
Qed.

Lemma fold_merchants (l : list Transaction.t) :
  forall s, exists ext,
    Repo.merchants (fst (fold_left step l s))
    = Repo.merchants (fst s) ++ ext.
Proof.
  induction l as [|t l IH]; intros s; simpl.
  - exists []. now rewrite app_nil_r.
  - destruct (IH (step s t)) as [ext2 H2].
    destruct s as [r u]. destruct (step_merchants r u t) as [ext1 H1].
    exists (ext1 ++ ext2). rewrite H2, H1. simpl. now rewrite app_assoc.
Qed.

Section Run.
Variable repo : Repo.t.

Let c := pick X aliases merchants thr repo.
Let sigma := reassign X aliases merchants thr repo.

Lemma reassign_nil (T : list Transaction.t) : map (sigma []) T = T.
Proof. rewrite <- (map_id T) at 2. apply map_ext. reflexivity. Qed.

(** Visiting [t] and then the transactions [l], seen from a row of the
    table. *)
Lemma reassign_cons (T l : list Transaction.t) (t : Transaction.t) :
  NoDup (map Transaction.id T) -> In t T ->
  ~ In (Transaction.id t) (map Transaction.id l) ->
  map (sigma l) (map (assign (Transaction.id t) (c t)) T)
  = map (sigma (t :: l)) T.
Proof.
  intros Hnd Ht Hl. rewrite map_map. apply map_ext_in. intros x Hx.
  unfold sigma, reassign, assign. cbn [existsb].
  destruct (Z.eqb_spec (Transaction.id x) (Transaction.id t)) as [E|E].
  - rewrite (unique_row T x t Hnd Hx Ht E).
    rewrite with_merchant_id_id, Z.eqb_refl, (existsb_id_false l _ Hl).
    reflexivity.
  - destruct (Z.eqb_spec (Transaction.id t) (Transaction.id x)) as [E'|E'];
      [congruence | reflexivity].
Qed.

(** The first run, when it creates no merchant: every transaction
    visited gets the choice made for it, and none of the choices touches
    the merchant table. *)
Lemma run_without_creation (l : list Transaction.t) :
  forall (T : list Transaction.t) (u : nat),
    NoDup (map Transaction.id T) ->
    NoDup (map Transaction.id l) ->
    (forall t, In t l -> In t T) ->
    Repo.merchants (fst (fold_left step l (Repo.set_transactions repo T, u)))
    = Repo.merchants repo ->
    fst (fold_left step l (Repo.set_transactions repo T, u))
    = Repo.set_transactions repo (map (sigma l) T)
    /\ (forall t, In t l -> fst (choose repo (cleaned_of X repo t)) = repo).
Proof.
  induction l as [|t l IH]; intros T u HndT Hndl Hsub Hm.
  - simpl. rewrite reassign_nil. split; [reflexivity | intros t []].
  - cbn [fold_left] in *. rewrite step_set_transactions in *.
    cbv zeta in *. fold (c t) in *.
    inversion Hndl as [|? ? Hnotin Hndl']; subst.
    assert (Ht : In t T) by (apply Hsub; now left).
    (* the state after the round *)
    assert (Hstate :
              exists u',
                (if Engine.same_merchant (Transaction.merchant_id t) (c t)
                 then (Repo.set_transactions
                         (fst (choose repo (cleaned_of X repo t))) T, u)
                 else (Repo.set_transactions
                         (fst (choose repo (cleaned_of X repo t)))
                         (map (assign (Transaction.id t) (c t)) T), S u))
                = (Repo.set_transactions
                     (fst (choose repo (cleaned_of X repo t)))
                     (map (assign (Transaction.id t) (c t)) T), u')).
    { destruct (Engine.same_merchant _ _) eqn:E.
      - apply same_merchant_eq in E. exists u. rewrite <- E.
        now rewrite (assign_noop T t HndT Ht).
      - now exists (S u). }
    destruct Hstate as [u' Hstate]. rewrite Hstate in *. clear Hstate.
    (* the round created no merchant *)
    assert (Hsame : fst (choose repo (cleaned_of X repo t)) = repo).
    { destruct (choose_grows repo (cleaned_of X repo t)) as [H|[m H]];
        [exact H|].
      exfalso. rewrite H in Hm.
      destruct (fold_merchants l
                  (Repo.set_transactions
                     (Repo.set_merchants repo (Repo.merchants repo ++ [m]))
                     (map (assign (Transaction.id t) (c t)) T), u'))
        as [ext Hext].
      rewrite Hm in Hext. cbn [fst Repo.merchants Repo.set_transactions
                                 Repo.set_merchants] in Hext.
      apply (f_equal (@length Merchant.t)) in Hext.
      rewrite !length_app in Hext. simpl in Hext. lia. }
    rewrite Hsame in *.
    destruct (IH (map (assign (Transaction.id t) (c t)) T) u') as [Hfin Hnc].
    + now rewrite map_assign_ids.
    + exact Hndl'.
    + intros t' Ht'. apply in_map_iff. exists t'. split.
      * unfold assign.
        destruct (Z.eqb_spec (Transaction.id t') (Transaction.id t)) as [E|E];
          [|reflexivity].
        exfalso. apply Hnotin. rewrite <- E. now apply in_map.
      * apply Hsub. now right.
    + exact Hm.
    + split.
      * rewrite Hfin. f_equal. now apply reassign_cons.
      * intros t' [<-|Ht']; [exact Hsame | now apply Hnc].
Qed.

Lemma run_from_repo (l : list Transaction.t) (u : nat) :
  NoDup (map Transaction.id (Repo.transactions repo)) ->
  NoDup (map Transaction.id l) ->
  (forall t, In t l -> In t (Repo.transactions repo)) ->
  Repo.merchants (fst (fold_left step l (repo, u))) = Repo.merchants repo ->
  fst (fold_left step l (repo, u))
  = Repo.set_transactions repo (map (sigma l) (Repo.transactions repo))
  /\ (forall t, In t l -> fst (choose repo (cleaned_of X repo t)) = repo).
Proof.
  pose proof (run_without_creation l (Repo.transactions repo) u) as H.
  rewrite set_transactions_same in H. exact H.
Qed.

Lemma reassign_posted_at (l : list Transaction.t) (x : Transaction.t) :
  Transaction.posted_at (sigma l x) = Transaction.posted_at x.
Proof.
  unfold sigma, reassign. destruct (existsb _ _); reflexivity.
Qed.

Lemma reassign_cleaned (l : list Transaction.t) (x : Transaction.t) :
  cleaned_of X repo (sigma l x) = cleaned_of X repo x.
Proof.
  unfold sigma, reassign, cleaned_of. destruct (existsb _ _); reflexivity.
Qed.

Lemma reassign_visited (l : list Transaction.t) (t : Transaction.t) :
  In t l -> Transaction.merchant_id (sigma l t) = c t.
Proof.
  intros H. unfold sigma, reassign. now rewrite (existsb_id_true l t H).
Qed.

(** The second run: each transaction carries the choice that is made
    for it again, so nothing is written. *)
Lemma run_again (l0 T1 : list Transaction.t) :
  (forall t, In t l0 -> fst (choose repo (cleaned_of X repo t)) = repo) ->
  forall (l : list Transaction.t) (u : nat),
    (forall t, In t l -> In t l0) ->
    fold_left step (map (sigma l0) l) (Repo.set_transactions repo T1, u)
    = (Repo.set_transactions repo T1, u).
Proof.
  intros Hnc. induction l as [|t l IH]; intros u Hsub; [reflexivity|].
  cbn [map fold_left]. rewrite step_set_transactions. cbv zeta.
  assert (Ht : In t l0) by (apply Hsub; now left).
  unfold pick. rewrite reassign_cleaned, (Hnc t Ht).
  rewrite (reassign_visited l0 t Ht).
  change (snd (Engine.choose X aliases merchants thr repo
                 (cleaned_of X repo t))) with (c t).
  replace (Engine.same_merchant (c t) (c t)) with true
    by (symmetry; now apply same_merchant_eq).
  apply IH. intros t' Ht'. apply Hsub. now right.
Qed.

End Run.

End Resolver.

(** C4, as the code has it.  When a run of the resolver creates no
    merchant (the merchant table, like the alias table, is the same after
    it as before), a second run chooses for every transaction the
    merchant id it carries from the first run and writes no assignment.
    [id] is the primary key of the transactions. *)
Theorem resolve_again_writes_nothing_unless_merchant_created :
  forall (X : Repo.Externals) (repo : Repo.t) (thr : Q),
    NoDup (map Transaction.id (Repo.transactions repo)) ->
    Repo.merchants (fst (Engine.resolve_merchants X repo thr))
    = Repo.merchants repo ->
    Engine.resolve_merchants X (fst (Engine.resolve_merchants X repo thr)) thr
    = (fst (Engine.resolve_merchants X repo thr), 0%nat)
    /\ forall t : Transaction.t,
         In t (Repo.list_transactions
                 (fst (Engine.resolve_merchants X repo thr)) 200000) ->
         pick X
              (Repo.list_aliases (fst (Engine.resolve_merchants X repo thr)))
              (Repo.list_merchants (fst (Engine.resolve_merchants X repo thr)))
              thr (fst (Engine.resolve_merchants X repo thr)) t
         = Transaction.merchant_id t.
Proof.
  intros X repo thr Hnd Hm.
  rewrite (resolve_merchants_loop X repo thr) in *.
  pose proof (list_transactions_NoDup repo 200000 Hnd) as Hnd0.
  pose proof (fun t => @list_transactions_In repo 200000 t) as Hin0.
  pose proof (fun g => @list_transactions_map repo g 200000) as Hmap.
  assert (HA : forall T, Repo.list_aliases (Repo.set_transactions repo T)
                         = Repo.list_aliases repo) by reflexivity.
  assert (HM : forall T, Repo.list_merchants (Repo.set_transactions repo T)
                         = Repo.list_merchants repo) by reflexivity.
  assert (HC : forall T t, cleaned_of X (Repo.set_transactions repo T) t
                           = cleaned_of X repo t) by reflexivity.
  set (l0 := Repo.list_transactions repo 200000) in *. clearbody l0.
  set (A := Repo.list_aliases repo) in *. clearbody A.
  set (M := Repo.list_merchants repo) in *. clearbody M.
  destruct (@run_from_repo X A M thr repo l0 0%nat Hnd Hnd0 Hin0 Hm)
    as [Hfin Hnc].
  rewrite Hfin. clear Hfin Hm.
  assert (Hl1 : Repo.list_transactions
                  (Repo.set_transactions repo
                     (map (reassign X A M thr repo l0)
                          (Repo.transactions repo))) 200000
                = map (reassign X A M thr repo l0) l0).
  { apply Hmap. intros x. apply reassign_posted_at. }
  split.
  - rewrite resolve_merchants_loop, Hl1, HA, HM.
    apply (@run_again X A M thr repo l0 _ Hnc l0 0%nat).
    intros t Ht. exact Ht.
  - intros t Ht. rewrite Hl1 in Ht.
    apply (proj1 (in_map_iff _ _ _)) in Ht.
    destruct Ht as [t0 [<- Ht0]].
    rewrite HA, HM. unfold pick. rewrite HC, choose_set_transactions.
    cbn [snd].
    rewrite (@reassign_visited X A M thr repo l0 t0 Ht0).
    rewrite reassign_cleaned. reflexivity.
Qed.

Lemma resolve_unresolved_twice :
  Engine.resolve_merchants Samples.externals
    (fst (Engine.resolve_merchants Samples.externals Samples.unresolved 92)) 92
  = (fst (Engine.resolve_merchants Samples.externals Samples.unresolved 92),
     0%nat).
Proof.
  apply (@resolve_again_writes_nothing_unless_merchant_created
           Samples.externals Samples.unresolved 92).
  - repeat (constructor; [simpl; intuition discriminate|]). constructor.
  - vm_compute. reflexivity.
Defined.

(** C4, as stated, fails: on the ledger [roaster] the first run matches
    transaction 1 to merchant 1 and creates merchant 2 for transaction 2;
    with the tables left as that run left them, the second run matches
    transaction 1 to the new merchant 2 and writes that assignment. *)
Lemma second_resolution_differs :
  map (fun t => (Transaction.id t, Transaction.merchant_id t))
      (Repo.transactions Samples.roaster_once)
  = [(1%Z, Some 1%Z); (2%Z, Some 2%Z)]
  /\ map (fun t => (Transaction.id t, Transaction.merchant_id t))
         (Repo.transactions Samples.roaster_twice)
     = [(1%Z, Some 2%Z); (2%Z, Some 2%Z)]
  /\ snd (Engine.resolve_merchants Samples.externals Samples.roaster_once 92)
     = 1%nat.
Proof. repeat split; vm_compute; reflexivity. Qed.

End ResolverFacts.

(* ================================================================== *)
(** * More on core/stats.py: the sign of the MAD *)
(* ================================================================== *)

Module StatsMore.
Import Stats StatsFacts Calendar CalendarFacts.
Local Open Scope Q_scope.

Lemma mad_scaled_nonneg (x : list Q) (scale : Q) :
  0 <= scale -> 0 <= mad_scaled x scale.
Proof.
  intros Hs. unfold mad_scaled. destruct x as [|a x]; [apply Qle_refl|].
  apply Qmult_le_0_compat; [|exact Hs].
  apply np_median_ge; [discriminate|].
  intros d Hd. apply in_map_iff in Hd. destruct Hd as [y [<- _]].
  apply Qabs_nonneg.
Qed.

Lemma mad_nonneg (x : list Q) : 0 <= mad x.
Proof. apply mad_scaled_nonneg. unfold default_scale. lra. Qed.

End StatsMore.

(* ================================================================== *)
(** * More on core/recurring.py *)
(* ================================================================== *)

Module RecurringMore.
Import Stats StatsFacts Recurring RecurringFacts RecurringSpec StatsMore.
Local Open Scope Q_scope.

(** [zip] stops at the shorter of its arguments. *)
Lemma gaps_length (dates : list datetime) (amounts : list Q) :
  length (day_gaps (map fst (Py.sorted by_date (combine dates amounts))))
  = (Nat.min (length dates) (length amounts) - 1)%nat.
Proof.
  rewrite day_gaps_length, length_map, PyFacts.sorted_length, length_combine.
  reflexivity.
Qed.

(** X3.  [detect_recurring] returns [None] in two cases and no other:
    fewer dates than [min_points], or fewer than two (date, amount) pairs,
    [zip] pairing the dates with the amounts up to the shorter of the two
    lists.  So a call with enough dates and a single amount has no
    result. *)
Theorem detect_recurring_none_exactly_when_too_few_pairs :
  forall (dates : list datetime) (amounts : list Q) (min_points : Z),
    detect_recurring dates amounts min_points = None
    <-> (Z.of_nat (length dates) < min_points)%Z
        \/ (Nat.min (length dates) (length amounts) <= 1)%nat.
Proof.
  intros dates amounts min_points. unfold detect_recurring.
  pose proof (gaps_length dates amounts) as Hlen.
  destruct (Z.ltb_spec (Z.of_nat (length dates)) min_points) as [Hlt|Hge].
  - split; [now left | reflexivity].
  - destruct (day_gaps _) as [|g gaps].
    + simpl in Hlen. split; [intros _; right; lia | reflexivity].
    + simpl in Hlen. split; [discriminate|]. intros [H|H]; lia.
Qed.






Lemma gaps_nonneg (ds : list datetime) :
  StronglySorted (fun a b => Z.leb a b = true) ds ->
  Forall (fun g => (0 <= g)%Z) (day_gaps ds).
Proof.
  induction 1 as [|a ds Hs IH Hall]; [constructor|].
  destruct ds as [|b ds]; [constructor|].
  change (day_gaps (a :: b :: ds))
    with (delta_days b a :: day_gaps (b :: ds)).
  constructor; [|exact IH].
  inversion Hall as [|? ? Hab _]; subst. apply Z.leb_le in Hab.
  unfold delta_days. apply Z.div_pos; [lia | reflexivity].
Qed.

Lemma clamp_unit (v : Q) : 0 <= max2 0 (min2 1 v) /\ max2 0 (min2 1 v) <= 1.
Proof.
  unfold max2, min2.
  destruct (Qltb v 1) eqn:E1;
    [apply Qltb_lt in E1 | apply Qltb_ge in E1];
    match goal with
    | |- _ <= (if Qltb ?a ?b then _ else _) /\ _ =>
        destruct (Qltb a b) eqn:E2;
        [apply Qltb_lt in E2 | apply Qltb_ge in E2]
    end; split; lra.
Qed.

Lemma candidate_at_least_a_week (p : Z) :
  In p CANDIDATE_PERIODS -> (7 <= p <= 365)%Z.
Proof.
  unfold CANDIDATE_PERIODS. simpl.
  intros [<-|[<-|[<-|[<-|[<-|[<-|[]]]]]]]; lia.
Qed.

Lemma some_eq (A : Type) (a b : A) : Some a = Some b -> a = b.
Proof. congruence. Qed.

Lemma some_eq_z (a b : Z) : Some a = Some b -> b = a.
Proof. congruence. Qed.

(** The period and the confidence of a result. *)
Lemma detect_recurring_period_confidence (dates : list datetime)
      (amounts : list Q) (min_points : Z) (r : SeriesResult) :
  detect_recurring dates amounts min_points = Some r ->
  In (period_days r) CANDIDATE_PERIODS
  /\ 0 <= confidence r /\ confidence r <= 1.
Proof.
  unfold detect_recurring.
  destruct (_ <? _)%Z; [discriminate|].
  destruct (day_gaps _) as [|g gaps]; [discriminate|].
  intros H. apply some_eq in H. subst r.
  cbn [period_days confidence].
  split; [apply nearest_period_candidate|].
  split; apply clamp_unit.
Qed.

(** X5.  Every result of [detect_recurring], on any input, has one of
    the six candidate periods, a gap median, a gap MAD and an amount MAD
    that are not negative, a confidence between 0 and 1, and a next
    expected date at least seven days after every observation that was
    paired with an amount. *)
Theorem detect_recurring_result_is_well_formed :
  forall (dates : list datetime) (amounts : list Q) (min_points : Z)
         (r : SeriesResult),
    detect_recurring dates amounts min_points = Some r ->
    In (period_days r) CANDIDATE_PERIODS
    /\ 0 <= gap_median r /\ 0 <= gap_mad r /\ 0 <= amount_mad r
    /\ 0 <= confidence r /\ confidence r <= 1
    /\ forall (d : datetime) (a : Q),
         In (d, a) (combine dates amounts) ->
         (d + 7 * DAY <= next_expected_at r)%Z.
Proof.
  intros dates amounts min_points r. unfold detect_recurring.
  destruct (_ <? _)%Z; [discriminate|].
  set (S := Py.sorted by_date (combine dates amounts)).
  assert (Hds : map fst S = Py.sorted Z.leb (map fst (combine dates amounts)))
    by apply (PyFacts.sorted_map by_date fst Z.leb by_date_key).
  assert (Hsorted : StronglySorted (fun a b => Z.leb a b = true) (map fst S)).
  { rewrite Hds.
    apply (@PyFacts.sorted_sorted _ Z.leb Zleb_total Zleb_trans). }
  pose proof (gaps_nonneg Hsorted) as Hpos.
  destruct (day_gaps (map fst S)) as [|g gaps] eqn:E; [discriminate|].
  intros H. apply some_eq in H. subst r.
  cbn [period_days amount_median amount_mad gap_median gap_mad confidence
       next_expected_at].
  set (gs := g :: gaps) in *.
  split; [apply nearest_period_candidate|].
  split.
  { rewrite median_nonempty by discriminate.
    apply np_median_ge; [discriminate|].
    intros x Hx. apply in_map_iff in Hx. destruct Hx as [z [<- Hz]].
    rewrite Forall_forall in Hpos. specialize (Hpos z Hz).
    change 0 with (inject_Z 0). now rewrite <- Zle_Qle. }
  split; [apply mad_nonneg|]. split; [apply mad_nonneg|].
  split; [apply clamp_unit|]. split; [apply clamp_unit|].
  intros d a Hin.
  pose proof (candidate_at_least_a_week
                (nearest_period_candidate (median (map inject_Z gs)))) as Hp.
  assert (Hd : (d <= last (map fst S) 0)%Z).
  { apply Z.leb_le.
    apply (@PyFacts.last_greatest _ Z.leb Zleb_total); [exact Hsorted|].
    rewrite Hds. apply PyFacts.sorted_In.
    apply in_map_iff. exists (d, a). now split. }
  unfold add_days. unfold DAY, SECOND in *. nia.
Qed.

Lemma weekly_fives_is_well_formed :
  In (period_days MoreSamples.weekly_fives) CANDIDATE_PERIODS
  /\ 0 <= gap_median MoreSamples.weekly_fives
  /\ 0 <= gap_mad MoreSamples.weekly_fives
  /\ 0 <= amount_mad MoreSamples.weekly_fives
  /\ 0 <= confidence MoreSamples.weekly_fives
  /\ confidence MoreSamples.weekly_fives <= 1
  /\ forall (d : datetime) (a : Q),
       In (d, a) (combine [0; 7 * DAY; 14 * DAY]%Z [5; 5; 5]) ->
       (d + 7 * DAY <= next_expected_at MoreSamples.weekly_fives)%Z.
Proof.
  apply (@detect_recurring_result_is_well_formed
           [0; 7 * DAY; 14 * DAY]%Z [5; 5; 5] 3%Z MoreSamples.weekly_fives).
  vm_compute. reflexivity.
Defined.

End RecurringMore.

(* ================================================================== *)
(** * More on core/normalize.py: the shape of the result *)
(* ================================================================== *)

Module NormalizeMore.
Import Str StrFacts Normalize NormalizeSpec NormalizeFacts NormalForm.
Local Open Scope nat_scope.

Section SubFacts.
Variable repl : str.

(** A substitution yields characters of the text and of the
    replacement. *)
Lemma sub_from_Forall (P : ascii -> Prop)
      (m : option ascii -> str -> option nat) :
  Forall P repl ->
  forall (s : str) (prev : option ascii) (skip : nat),
    Forall P s -> Forall P (sub_from m repl prev skip s).
Proof.
  intros Hr. induction s as [|c s IH]; intros prev skip Hs;
    cbn [sub_from]; [constructor|].
  inversion Hs as [|? ? Hc Hs']; subst.
  destruct skip as [|k]; [|now apply IH].
  destruct (m prev (c :: s)) as [[|k]|].
  - constructor; [exact Hc | now apply IH].
  - apply Forall_app. split; [exact Hr | now apply IH].
  - constructor; [exact Hc | now apply IH].
Qed.

(** Two patterns that agree on the texts of a class closed under
    suffixes substitute alike on these texts. *)
Lemma sub_from_ext (P : ascii -> Prop)
      (m1 m2 : option ascii -> str -> option nat) :
  (forall prev s, Forall P s -> m1 prev s = m2 prev s) ->
  forall (s : str) (prev : option ascii) (skip : nat),
    Forall P s ->
    sub_from m1 repl prev skip s = sub_from m2 repl prev skip s.
Proof.
  intros Hm. induction s as [|c s IH]; intros prev skip Hs;
    cbn [sub_from]; [reflexivity|].
  rewrite (Hm prev (c :: s) Hs).
  inversion Hs as [|? ? Hc Hs']; subst.
  destruct skip as [|k]; [|now apply IH].
  destruct (m2 prev (c :: s)) as [[|k]|]; now rewrite IH.
Qed.
End SubFacts.

Lemma take_drop (p : ascii -> bool) (s : str) :
  take_while p s ++ drop_while p s = s.
Proof.
  induction s as [|c s IH]; simpl; [reflexivity|].
  destruct (p c); simpl; [now rewrite IH | reflexivity].
Qed.

Lemma drop_while_Forall (P : ascii -> Prop) (p : ascii -> bool) (s : str) :
  Forall P s -> Forall P (drop_while p s).
Proof.
  intros H. rewrite <- (take_drop p s) in H.
  apply Forall_app in H. tauto.
Qed.

Lemma strip_Forall (P : ascii -> Prop) (s : str) :
  Forall P s -> Forall P (strip s).
Proof.
  intros H. unfold strip, rstrip, lstrip.
  apply Forall_rev, drop_while_Forall, Forall_rev, drop_while_Forall.
  exact H.
Qed.

(** [rstrip] keeps a prefix. *)
Lemma rstrip_prefix (s : str) :
  rstrip s ++ rev (take_while is_space (rev s)) = s.
Proof.
  unfold rstrip. rewrite <- rev_app_distr, take_drop.
  apply rev_involutive.
Qed.

(** A stripped string begins with no white space. *)
Lemma strip_first (s : str) (c : ascii) :
  hd_error (strip s) = Some c -> is_space c = false.
Proof.
  unfold strip. intros H.
  apply (@drop_while_head_false is_space s c). fold (lstrip s).
  rewrite <- (rstrip_prefix (lstrip s)).
  destruct (rstrip (lstrip s)); [discriminate | exact H].
Qed.

Lemma NOT_KEPT_output (s : str) :
  forall (prev : option ascii) (skip : nat),
    Forall (fun c => outside_kept_class c = false)
           (sub_from NOT_KEPT (chars " ") prev skip s).
Proof.
  induction s as [|c s IH]; intros prev skip; cbn [sub_from];
    [constructor|].
  destruct skip as [|k]; [|apply IH].
  unfold NOT_KEPT at 1.
  destruct (outside_kept_class c) eqn:E.
  - change (chars " " ++ sub_from NOT_KEPT (chars " ") (Some c) 0 s)
      with (" "%char :: sub_from NOT_KEPT (chars " ") (Some c) 0 s).
    constructor; [reflexivity | apply IH].
  - constructor; [exact E | apply IH].
Qed.

Lemma kept_is_no_star (c : ascii) :
  outside_kept_class c = false -> c <> star.
Proof. intros H ->. vm_compute in H. discriminate. Qed.

(** After [MULTISPACE.sub(" ", s)] the only white space is the blank. *)
Lemma MULTISPACE_output (s : str) :
  forall (prev : option ascii) (skip : nat),
    Forall (fun c => is_space c = true -> c = " "%char)
           (sub_from MULTISPACE (chars " ") prev skip s).
Proof.
  induction s as [|c s IH]; intros prev skip; cbn [sub_from];
    [constructor|].
  destruct skip as [|k]; [|apply IH].
  unfold MULTISPACE at 1. cbn [take_while].
  destruct (is_space c) eqn:E; cbn [length].
  - change (chars " " ++ ?x) with (" "%char :: x).
    constructor; [reflexivity | apply IH].
  - constructor; [congruence | apply IH].
Qed.

Lemma name_char_of (c : ascii) :
  outside_kept_class c = false ->
  (is_space c = true -> c = " "%char) ->
  name_char c = true.
Proof.
  destruct c as [[] [] [] [] [] [] [] []]; vm_compute; intros H1 H2;
    try reflexivity; try discriminate;
    try (specialize (H2 eq_refl); discriminate).
Qed.

Lemma separated_app (a b : str) :
  separated (a ++ b) -> separated a /\ separated b.
Proof.
  induction a as [|x [|y a] IH]; intros H.
  - split; [exact I | exact H].
  - split; [exact I|]. destruct b; [exact I | apply H].
  - destruct H as [Hxy H]. destruct (IH H) as [Ha Hb].
    split; [split; assumption | exact Hb].
Qed.

Lemma strip_separated (s : str) : separated s -> separated (strip s).
Proof.
  intros H. unfold strip.
  assert (Hl : separated (lstrip s)).
  { unfold lstrip. rewrite <- (take_drop is_space s) in H.
    apply separated_app in H. tauto. }
  rewrite <- (rstrip_prefix (lstrip s)) in Hl.
  apply separated_app in Hl. tauto.
Qed.

Lemma drop_while_length (p : ascii -> bool) (s : str) :
  length (drop_while p s) <= length s.
Proof.
  rewrite <- (take_drop p s) at 2. rewrite length_app. lia.
Qed.

(** Skipping a run. *)
Lemma sub_from_run (m : option ascii -> str -> option nat) (repl : str)
      (p : ascii -> bool) (prev : option ascii) (s : str) :
  exists prev',
    sub_from m repl prev (length (take_while p s)) s
    = sub_from m repl prev' 0 (drop_while p s).
Proof.
  eexists. rewrite <- (take_drop p s) at 2. apply sub_from_skip.
Qed.

Lemma MULTISPACE_prev (prev prev' : option ascii) (s : str) :
  sub_from MULTISPACE (chars " ") prev 0 s
  = sub_from MULTISPACE (chars " ") prev' 0 s.
Proof. apply sub_from_prev. reflexivity. Qed.

Lemma MULTISPACE_head (prev : option ascii) (c : ascii) (s : str) :
  is_space c = false ->
  sub_from MULTISPACE (chars " ") prev 0 (c :: s)
  = c :: sub_from MULTISPACE (chars " ") (Some c) 0 s.
Proof.
  intros E. cbn [sub_from]. unfold MULTISPACE at 1. cbn [take_while].
  rewrite E. reflexivity.
Qed.

(** After [MULTISPACE.sub(" ", s)] no two white-space characters are
    neighbours. *)
Lemma MULTISPACE_separated (n : nat) :
  forall (s : str) (prev : option ascii),
    length s <= n ->
    separated (sub_from MULTISPACE (chars " ") prev 0 s).
Proof.
  induction n as [|n IH]; intros [|c s] prev Hn; try exact I;
    [simpl in Hn; lia|].
  simpl in Hn.
  destruct (is_space c) eqn:E.
  - cbn [sub_from]. unfold MULTISPACE at 1. cbn [take_while].
    rewrite E. cbn [length].
    change (chars " " ++ ?x) with (" "%char :: x).
    destruct (sub_from_run MULTISPACE (chars " ") is_space (Some c) s)
      as [prev' ->].
    pose proof (IH (drop_while is_space s) prev') as Hsep.
    pose proof (drop_while_length is_space s) as Hlen.
    specialize (Hsep ltac:(lia)).
    destruct (drop_while is_space s) as [|d dw] eqn:Ed; [exact I|].
    assert (Hd : is_space d = false).
    { apply (@drop_while_head_false is_space s d). now rewrite Ed. }
    rewrite (@MULTISPACE_head prev' d dw Hd) in *.
    split; [intros _; exact Hd | exact Hsep].
  - rewrite (@MULTISPACE_head prev c s E).
    pose proof (IH s (Some c) ltac:(lia)) as Hsep.
    destruct (sub_from MULTISPACE (chars " ") (Some c) 0 s);
      [exact I|].
    split; [congruence | exact Hsep].
Qed.

(** X6.  Whatever the raw text, the cleaned name consists of capital
    letters, digits, blanks and the characters [&], [.] and [-] only; it
    neither begins nor ends with a blank, and no two blanks follow each
    other. *)
Theorem clean_merchant_alphabet_and_spacing :
  forall raw : str,
    Forall (fun c => name_char c = true) (clean_merchant raw)
    /\ no_space_first (clean_merchant raw)
    /\ no_space_first (rev (clean_merchant raw))
    /\ separated (clean_merchant raw).
Proof.
  intros raw. unfold clean_merchant.
  set (s2 := sub PAYPAL_PREFIX [] (upper (strip raw))).
  set (s5 := sub (literal (chars ".COM")) []
               (sub CARD_SUFFIX [] (sub NOT_KEPT (chars " ") s2))).
  split; [|split; [|split]].
  - apply strip_Forall.
    assert (Hkept : Forall (fun c => outside_kept_class c = false)
                      (sub MULTISPACE (chars " ") s5)).
    { apply sub_from_Forall; [repeat constructor|].
      apply sub_from_Forall; [constructor|].
      apply sub_from_Forall; [constructor|].
      apply NOT_KEPT_output. }
    pose proof (MULTISPACE_output s5 None 0) as Hblank.
    fold (sub MULTISPACE (chars " ") s5) in Hblank.
    rewrite Forall_forall in *. intros c Hc.
    apply name_char_of; [now apply Hkept | now apply Hblank].
  - intros c. apply strip_first.
  - intros c. apply strip_last.
  - apply strip_separated. apply (MULTISPACE_separated (n := length s5)).
    apply Nat.le_refl.
Qed.

Lemma CARD_SUFFIX_without_star (prev : option ascii) (s : str) :
  Forall (fun c => c <> star) s ->
  CARD_SUFFIX prev s = CARD_WORD_SUFFIX prev s.
Proof.
  intros Hs. unfold CARD_SUFFIX, CARD_WORD_SUFFIX.
  pose proof (@drop_while_Forall _ is_space s Hs) as Hd.
  destruct (drop_while is_space s) as [|c s1]; [reflexivity|].
  inversion Hd as [|? ? Hc _]; subst.
  destruct (Ascii.eqb_spec c star) as [->|_]; [congruence|].
  destruct (strip_prefix_ci (chars "CARD") (c :: s1)); [|reflexivity].
  destruct (digits_2_6 _); reflexivity.
Qed.

(** X7.  The first alternative of [CARD_SUFFIX], asterisks and two to six
    digits, never takes part in [clean_merchant]: every asterisk has
    become a blank before the pattern is tried, so the result is the same
    with the pattern that knows the word CARD only, and a masked card
    number written with asterisks stays in the name. *)
Theorem clean_merchant_never_uses_the_asterisk_alternative :
  (forall raw : str, clean_merchant raw = clean_merchant_card_word raw)
  /\ clean_merchant (chars "NETFLIX **123456") = chars "NETFLIX 123456".
Proof.
  split; [|vm_compute; reflexivity].
  intros raw. unfold clean_merchant, clean_merchant_card_word.
  do 3 f_equal. unfold sub at 2 5.
  apply sub_from_ext with (P := fun c => c <> star).
  - intros prev s. apply CARD_SUFFIX_without_star.
  - eapply Forall_impl; [|apply NOT_KEPT_output].
    intros c. apply kept_is_no_star.
Qed.

Lemma strip_prefix_firstn (p : str) :
  forall (n : nat) (s r : str),
    strip_prefix p (firstn n s) = Some r ->
    exists r', strip_prefix p s = Some r'.
Proof.
  induction p as [|x p IH]; intros n s r H.
  - now exists s.
  - destruct n as [|n]; [destruct s; discriminate|].
    destruct s as [|c s]; [discriminate|].
    cbn [firstn strip_prefix] in *.
    destruct (Ascii.eqb x c); [|discriminate].
    eapply IH. exact H.
Qed.

Lemma startswith_firstn (p : str) (n : nat) (s : str) :
  startswith (firstn n s) p = true -> startswith s p = true.
Proof.
  unfold startswith.
  destruct (strip_prefix p (firstn n s)) as [r|] eqn:E; [|discriminate].
  destruct (@strip_prefix_firstn p n s r E) as [r' ->]. reflexivity.
Qed.

(** What a prefix contains the text contains. *)
Lemma contains_firstn (p : str) :
  forall (n : nat) (s : str),
    contains p (firstn n s) = true -> contains p s = true.
Proof.
  intros n s. revert n. induction s as [|c s IH]; intros n H.
  - now rewrite firstn_nil in H.
  - destruct n as [|n].
    + cbn [firstn contains] in H. destruct p; [|discriminate].
      reflexivity.
    + cbn [firstn contains] in *. apply orb_true_iff in H.
      apply orb_true_iff. destruct H as [H|H].
      * left. apply (startswith_firstn p (S n) (c :: s)). exact H.
      * right. now apply (IH n).
Qed.

Lemma contains_firstn_false (p : str) (n : nat) (s : str) :
  contains p s = false -> contains p (firstn n s) = false.
Proof.
  intros H. destruct (contains p (firstn n s)) eqn:E; [|reflexivity].
  apply contains_firstn in E. congruence.
Qed.

Lemma canonical_hint_length (cleaned : str) :
  length (canonical_hint cleaned) <= 255.
Proof.
  unfold canonical_hint.
  destruct (contains _ _); [apply Nat.leb_le; reflexivity|].
  destruct (contains _ _); [apply Nat.leb_le; reflexivity|].
  destruct (contains _ _); [apply Nat.leb_le; reflexivity|].
  apply firstn_le_length.
Qed.

Lemma canonical_hint_idem (cleaned : str) :
  canonical_hint (canonical_hint cleaned) = canonical_hint cleaned.
Proof.
  unfold canonical_hint at 2 3.
  destruct (contains (chars "NETFLIX") cleaned) eqn:E1; [reflexivity|].
  destruct (contains (chars "SPOTIFY") cleaned) eqn:E2; [reflexivity|].
  destruct (contains (chars "AMAZON") cleaned) eqn:E3; [reflexivity|].
  unfold canonical_hint.
  rewrite !contains_firstn_false by assumption.
  rewrite firstn_firstn. reflexivity.
Qed.

Lemma upper_length (s : str) : length (upper s) = length s.
Proof. apply length_map. Qed.

Lemma strip_length (s : str) : length (strip s) <= length s.
Proof.
  unfold strip, rstrip, lstrip. rewrite length_rev.
  pose proof (drop_while_length is_space (rev (drop_while is_space s))).
  pose proof (drop_while_length is_space s).
  rewrite length_rev in *. lia.
Qed.

(** X8.  [canonical_hint] is idempotent and its result has at most 255
    characters, the width of the column [canonical_name]; the merchant
    that [get_or_create_merchant] returns for a hint carries a name within
    that width. *)
Theorem canonical_hint_idempotent_and_within_column_width :
  forall cleaned : str,
    canonical_hint (canonical_hint cleaned) = canonical_hint cleaned
    /\ length (canonical_hint cleaned) <= 255
    /\ forall r : Repo.t,
         length (Merchant.canonical_name
                   (snd (Repo.get_or_create_merchant
                           r (canonical_hint cleaned))))
         <= 255.
Proof.
  intros cleaned.
  split; [apply canonical_hint_idem|].
  split; [apply canonical_hint_length|].
  intros r. unfold Repo.get_or_create_merchant.
  assert (Hlen : length (upper (strip (canonical_hint cleaned))) <= 255).
  { rewrite upper_length.
    eapply Nat.le_trans; [apply strip_length | apply canonical_hint_length]. }
  destruct (find _ (Repo.merchants r)) as [m|] eqn:E.
  - apply find_some in E. destruct E as [_ E].
    apply str_eqb_eq in E. cbn [snd]. now rewrite E.
  - exact Hlen.
Qed.

End NormalizeMore.

(* ================================================================== *)
(** * More on core/anomalies.py: daily spikes and bursts *)
(* ================================================================== *)

Module AnomaliesMore.
Import Str Stats StatsFacts Recurring RecurringFacts Anomalies RepoFacts.
Import BurstSpec.
Local Open Scope nat_scope.

(** [by_day[day] += v] keeps the days and adds [day] when it is new. *)
Lemma day_add_keys (d : list (Z * Q)) (day : Z) (v : Q) :
  (In day (map fst d) /\ map fst (day_add d day v) = map fst d)
  \/ (~ In day (map fst d)
      /\ map fst (day_add d day v) = map fst d ++ [day]).
Proof.
  induction d as [|[k t] d IH]; cbn [day_add map fst].
  - right. split; [tauto | reflexivity].
  - destruct (Z.eqb_spec k day) as [->|Hne]; cbn [map fst].
    + left. split; [now left | reflexivity].
    + destruct IH as [[Hin Heq]|[Hnin Heq]].
      * left. split; [now right | now rewrite Heq].
      * right. split; [|now rewrite Heq].
        intros [H|H]; [congruence | contradiction].
Qed.

(** The table of the days: one row a day, and no day that has no
    transaction. *)
Lemma by_day_keys (transactions : list Row) (days : list Z) :
  (forall t, In t transactions -> In (date_of (posted_at t)) days) ->
  let by_day :=
    fold_left (fun d t => day_add d (date_of (posted_at t)) (Qabs (amount t)))
              transactions [] in
  NoDup (map fst by_day) /\ incl (map fst by_day) days.
Proof.
  intros Hdays by_day. subst by_day.
  apply (@fold_left_inv Row (list (Z * Q))
           (fun d t => day_add d (date_of (posted_at t)) (Qabs (amount t)))
           (fun d => NoDup (map fst d) /\ incl (map fst d) days)).
  - intros d t Ht [Hnd Hincl].
    destruct (day_add_keys d (date_of (posted_at t)) (Qabs (amount t)))
      as [[_ ->]|[Hnin ->]]; [now split|].
    split.
    + apply NoDup_app; [exact Hnd | repeat constructor; tauto |].
      intros k Hk [<-|[]]. contradiction.
    + apply incl_app; [exact Hincl|].
      intros k [<-|[]]. now apply Hdays.
  - split; [constructor | intros k []].
Qed.

(** X9.  [daily_spike_anomalies] reports nothing unless the transactions
    fall on at least 14 different days: when every transaction is dated
    on one of fewer than 14 days, the result is empty, whatever the
    amounts, the window and the threshold. *)
Theorem daily_spike_anomalies_needs_fourteen_days :
  forall (transactions : list Row) (window_days : Z) (spike_z : Q)
         (days : list Z),
    (forall t, In t transactions -> In (date_of (posted_at t)) days) ->
    length days < 14 ->
    daily_spike_anomalies transactions window_days spike_z = [].
Proof.
  intros transactions window_days spike_z days Hdays Hlen.
  destruct (by_day_keys transactions days Hdays) as [Hnd Hincl].
  unfold daily_spike_anomalies.
  set (by_day := fold_left _ transactions []) in *.
  rewrite length_map, PyFacts.sorted_length.
  pose proof (NoDup_incl_length Hnd Hincl) as Hle.
  rewrite length_map in Hle.
  destruct (Nat.ltb_spec (length by_day) 14) as [_|Hge]; [reflexivity|].
  lia.
Qed.

Lemma charges_on_two_days_make_no_spike :
  daily_spike_anomalies
    [mkRow 1 (3 * DAY)%Z 5 (chars "A");
     mkRow 2 (3 * DAY + HOUR)%Z 900 (chars "B");
     mkRow 3 (9 * DAY)%Z 7 (chars "A")]
    60 4
  = [].
Proof.
  apply (@daily_spike_anomalies_needs_fourteen_days _ 60%Z 4%Q [3; 9]%Z).
  - intros t [<-|[<-|[<-|[]]]]; vm_compute; tauto.
  - simpl. lia.
Defined.

(** The rows after [by_day[day] += v]. *)
Lemma day_add_In (d : list (Z * Q)) (day : Z) (v : Q) (k : Z) (x : Q) :
  NoDup (map fst d) ->
  In (k, x) (day_add d day v) ->
  (k <> day /\ In (k, x) d)
  \/ (k = day
      /\ ((exists total, In (day, total) d /\ x = (total + v)%Q)
          \/ (~ In day (map fst d) /\ x = (0 + v)%Q))).
Proof.
  induction d as [|[k0 t0] d IH]; cbn [day_add map fst]; intros Hnd Hin.
  - destruct Hin as [Hin|[]]. injection Hin as <- <-.
    right. split; [reflexivity|]. right. split; [tauto | reflexivity].
  - inversion Hnd as [|? ? Hk0 Hnd']; subst.
    destruct (Z.eqb_spec k0 day) as [->|Hne].
    + destruct Hin as [Hin|Hin].
      * injection Hin as <- <-. right. split; [reflexivity|].
        left. exists t0. split; [now left | reflexivity].
      * left. split; [|now right].
        intros ->. apply Hk0. apply in_map_iff. now exists (day, x).
    + destruct Hin as [Hin|Hin].
      * injection Hin as <- <-. left. split; [exact Hne | now left].
      * destruct (IH Hnd' Hin) as [[H1 H2]|[-> [[total [H1 H2]]|[H1 H2]]]].
        -- left. split; [exact H1 | now right].
        -- right. split; [reflexivity|]. left. exists total.
           split; [now right | exact H2].
        -- right. split; [reflexivity|]. right. split; [|exact H2].
           intros [H|H]; [congruence | contradiction].
Qed.

Lemma day_total_snoc (d : Z) (seen : list Row) (t : Row) :
  SpikeSpec.day_total d (seen ++ [t])
  = if (date_of (posted_at t) =? d)%Z
    then (SpikeSpec.day_total d seen + Qabs (amount t))%Q
    else SpikeSpec.day_total d seen.
Proof.
  unfold SpikeSpec.day_total. rewrite filter_app. cbn [filter].
  destruct (date_of (posted_at t) =? d)%Z.
  - rewrite map_app, fold_left_app. reflexivity.
  - now rewrite app_nil_r.
Qed.

Lemma day_total_none (d : Z) (seen : list Row) :
  (forall t, In t seen -> date_of (posted_at t) <> d) ->
  SpikeSpec.day_total d seen = 0%Q.
Proof.
  intros H. unfold SpikeSpec.day_total.
  replace (filter _ seen) with (@nil Row); [reflexivity|].
  symmetry. induction seen as [|t seen IH]; [reflexivity|]. cbn [filter].
  destruct (Z.eqb_spec (date_of (posted_at t)) d) as [E|_].
  - exfalso. apply (H t); [now left | exact E].
  - apply IH. intros t' Ht'. apply H. now right.
Qed.

Lemma totals_step (tbl : list (Z * Q)) (seen : list Row) (t : Row) :
  SpikeSpec.totals tbl seen ->
  SpikeSpec.totals (day_add tbl (date_of (posted_at t)) (Qabs (amount t)))
                   (seen ++ [t]).
Proof.
  intros (Hnd & Hall & Hrows).
  set (day := date_of (posted_at t)). set (v := Qabs (amount t)).
  pose proof (day_add_keys tbl day v) as Hkeys.
  split; [|split].
  - destruct Hkeys as [[_ ->]|[Hnin ->]]; [exact Hnd|].
    apply NoDup_app; [exact Hnd | repeat constructor; tauto |].
    intros k Hk [<-|[]]. contradiction.
  - intros t' Ht'. apply in_app_or in Ht'.
    destruct Hkeys as [[Hin ->]|[_ ->]].
    + destruct Ht' as [Ht'|[<-|[]]]; [now apply Hall | exact Hin].
    + apply in_or_app. destruct Ht' as [Ht'|[<-|[]]];
        [left; now apply Hall | right; now left].
  - intros d x Hin. rewrite day_total_snoc. fold day. fold v.
    destruct (day_add_In tbl day v d x Hnd Hin)
      as [[Hne Hold]|[-> [[total [Hold ->]]|[Hnew ->]]]].
    + destruct (Z.eqb_spec day d) as [E|_]; [congruence|].
      destruct (Hrows d x Hold) as [-> [t' [Ht' Hd]]].
      split; [reflexivity|]. exists t'. split; [|exact Hd].
      apply in_or_app. now left.
    + rewrite Z.eqb_refl. destruct (Hrows day total Hold) as [-> _].
      split; [reflexivity|]. exists t. split; [|reflexivity].
      apply in_or_app. right. now left.
    + rewrite Z.eqb_refl. rewrite day_total_none.
      * split; [reflexivity|]. exists t. split; [|reflexivity].
        apply in_or_app. right. now left.
      * intros t' Ht' E. apply Hnew. rewrite <- E. now apply Hall.
Qed.

Lemma by_day_totals (transactions : list Row) :
  SpikeSpec.totals
    (fold_left (fun d t => day_add d (date_of (posted_at t)) (Qabs (amount t)))
               transactions [])
    transactions.
Proof.
  apply (@fold_left_prefix_inv Row (list (Z * Q))
           (fun d t => day_add d (date_of (posted_at t)) (Qabs (amount t)))
           (fun done tbl => SpikeSpec.totals tbl done)).
  - intros done t tbl. apply totals_step.
  - split; [constructor|]. split; [intros t []|intros d v []].
Qed.

(** X10.  Every spike that [daily_spike_anomalies] reports is a day on
    which there is a transaction; its total is the sum of the absolute
    amounts of the transactions of that day, and its score is at least
    the threshold. *)
Theorem daily_spikes_report_the_total_of_a_day :
  forall (transactions : list Row) (window_days : Z) (spike_z : Q)
         (a : DailySpike),
    In a (daily_spike_anomalies transactions window_days spike_z) ->
    sp_total a = SpikeSpec.day_total (sp_day a) transactions
    /\ (exists t, In t transactions /\ date_of (posted_at t) = sp_day a)
    /\ (spike_z <= sp_z a)%Q.
Proof.
  intros transactions window_days spike_z a.
  pose proof (by_day_totals transactions) as (_ & _ & Hrows).
  unfold daily_spike_anomalies.
  set (by_day := fold_left _ transactions []) in *.
  set (table := Py.sorted by_key by_day).
  destruct (Nat.ltb_spec (length (map fst table)) 14) as [|H14];
    [intros []|].
  intros Hin. apply in_flat_map in Hin. destruct Hin as [i [Hi Ha]].
  apply in_seq in Hi. rewrite length_map in Hi, H14.
  unfold spike_at in Ha.
  destruct (Qle_bool spike_z _) eqn:Ez; [|destruct Ha].
  destruct Ha as [<-|[]]. cbn [sp_total sp_day sp_z].
  apply Qle_bool_iff in Ez.
  pose proof (map_nth fst table (0%Z, 0%Q) i) as Hd.
  pose proof (map_nth snd table (0%Z, 0%Q) i) as Hv.
  cbn [fst snd] in Hd, Hv. rewrite Hd, Hv in *.
  assert (Hrow : In (nth i table (0%Z, 0%Q)) by_day).
  { apply (PyFacts.sorted_In by_key). apply nth_In. fold table. lia. }
  destruct (nth i table (0%Z, 0%Q)) as [d v]. cbn [fst snd] in *.
  destruct (Hrows d v Hrow) as [Htot Hex].
  split; [exact Htot|]. split; [exact Hex | exact Ez].
Qed.

Lemma day_fifteen_reports_its_total :
  sp_total SpikeSamples.day_fifteen
  = SpikeSpec.day_total (sp_day SpikeSamples.day_fifteen)
                        SpikeSamples.fortnight
  /\ (exists t, In t SpikeSamples.fortnight
                /\ date_of (posted_at t) = sp_day SpikeSamples.day_fifteen)
  /\ (4 <= sp_z SpikeSamples.day_fifteen)%Q.
Proof.
  apply (@daily_spikes_report_the_total_of_a_day
           SpikeSamples.fortnight 60%Z 4%Q SpikeSamples.day_fifteen).
  vm_compute. left. reflexivity.
Defined.

(** ** Bursts *)

Lemma fold_seq_inv (S : Type) (f : S -> nat -> S) (I : nat -> S -> Prop)
      (n : nat) :
  (forall i s, i < n -> I i s -> I (Datatypes.S i) (f s i)) ->
  forall s, I 0 s -> I n (fold_left f (seq 0 n) s).
Proof.
  intros Hf.
  assert (H : forall len start s,
             start + len <= n -> I start s ->
             I (start + len) (fold_left f (seq start len) s)).
  { induction len as [|len IH]; intros start s Hle Hs; cbn [seq fold_left].
    - now rewrite Nat.add_0_r.
    - replace (start + Datatypes.S len) with (Datatypes.S start + len) by lia.
      apply IH; [lia|]. apply Hf; [lia | exact Hs]. }
  intros s Hs. apply (H n 0 s); [lia | exact Hs].
Qed.

Lemma sorted_nth (l : list Z) :
  StronglySorted (fun a b => Z.leb a b = true) l ->
  forall j i, j <= i < length l -> (nth j l 0 <= nth i l 0)%Z.
Proof.
  induction 1 as [|x l Hs IH Hall]; intros j i Hji; [simpl in Hji; lia|].
  simpl in Hji. destruct j as [|j]; destruct i as [|i]; cbn [nth]; try lia.
  - rewrite Forall_forall in Hall. apply Z.leb_le, Hall, nth_In. lia.
  - apply IH. lia.
Qed.

Lemma hd_slice (l : list Z) (j i : nat) :
  j <= i < length l -> hd 0%Z (slice l j (i + 1)) = nth j l 0%Z.
Proof.
  intros H. unfold slice.
  replace (i + 1 - j) with (Datatypes.S (i - j)) by lia.
  revert j i H. induction l as [|x l IH]; intros j i H; [simpl in H; lia|].
  destruct j as [|j]; [reflexivity|].
  simpl in H. cbn [skipn nth]. destruct i as [|i]; [lia|].
  replace (Datatypes.S i - Datatypes.S j) with (i - j) by lia.
  apply IH. lia.
Qed.

Lemma last_firstn (l : list Z) (k : nat) :
  k < length l -> last (firstn (Datatypes.S k) l) 0%Z = nth k l 0%Z.
Proof.
  revert k. induction l as [|x l IH]; intros k H; [simpl in H; lia|].
  destruct k as [|k]; [destruct l; reflexivity|].
  simpl in H. cbn [nth].
  change (firstn (Datatypes.S (Datatypes.S k)) (x :: l))
    with (x :: firstn (Datatypes.S k) l).
  destruct l as [|y l]; [simpl in H; lia|].
  change (last (x :: firstn (Datatypes.S k) (y :: l)) 0%Z)
    with (last (firstn (Datatypes.S k) (y :: l)) 0%Z).
  apply IH. lia.
Qed.

Lemma nth_skipn (l : list Z) (j k : nat) :
  nth k (skipn j l) 0%Z = nth (j + k) l 0%Z.
Proof.
  revert j. induction l as [|x l IH]; intros j.
  - rewrite skipn_nil. destruct k; destruct j; reflexivity.
  - destruct j as [|j]; [reflexivity|]. cbn [skipn]. apply IH.
Qed.

Lemma last_slice (l : list Z) (j i : nat) :
  j <= i < length l -> last (slice l j (i + 1)) 0%Z = nth i l 0%Z.
Proof.
  intros H. unfold slice.
  replace (i + 1 - j) with (Datatypes.S (i - j)) by lia.
  rewrite last_firstn by (rewrite length_skipn; lia).
  rewrite nth_skipn. f_equal. lia.
Qed.

Lemma slice_map (A B : Type) (f : A -> B) (l : list A) (j i : nat) :
  map f (slice l j i) = slice (map f l) j i.
Proof. unfold slice. now rewrite skipn_map, firstn_map. Qed.

Lemma slice_length (A : Type) (l : list A) (j i : nat) :
  length (slice l j i) <= length l.
Proof.
  unfold slice. rewrite length_firstn, length_skipn. lia.
Qed.

Lemma filter_length_le (A : Type) (f : A -> bool) (l : list A) :
  length (filter f l) <= length l.
Proof.
  induction l as [|x l IH]; simpl; [lia|].
  destruct (f x); simpl; lia.
Qed.

Section Window.
Variable tx : list Row.
Variable window_minutes : Z.
Hypothesis window_nonneg : (0 <= window_minutes)%Z.

(** The inner loop stops at or before [i], on a transaction within the
    window of transaction [i]. *)
Lemma advance_spec (fuel i j : nat) :
  j <= i -> i - j < fuel ->
  let j' := advance tx window_minutes fuel i j in
  j <= j' <= i
  /\ (at_ tx i - at_ tx j' <= window_minutes * MINUTE)%Z.
Proof.
  revert j. induction fuel as [|fuel IH]; intros j Hji Hfuel; [lia|].
  cbn [advance].
  destruct (Z.ltb_spec (window_minutes * MINUTE) (at_ tx i - at_ tx j))
    as [Hlt|Hge].
  - assert (Hne : j <> i).
    { intros ->. unfold MINUTE, SECOND in Hlt. lia. }
    destruct (Nat.leb_spec i (Datatypes.S j)) as [Hle|Hgt].
    + replace (Datatypes.S j) with i by lia.
      split; [lia|]. unfold MINUTE, SECOND. lia.
    + destruct (IH (Datatypes.S j)) as [H1 H2]; [lia | lia |].
      split; [lia | exact H2].
  - split; [lia | exact Hge].
Qed.
End Window.

Lemma by_posted_at_key (a b : Row) :
  by_posted_at a b = Z.leb (posted_at a) (posted_at b).
Proof. reflexivity. Qed.

Lemma burst_loop (transactions : list Row) (amount_max : Q)
      (window_minutes : Z) (count_min : positive) :
  (0 <= window_minutes)%Z ->
  let tx := Py.sorted by_posted_at transactions in
  let st := fold_left (burst_step tx amount_max window_minutes count_min)
                      (seq 0 (length tx)) (0, []) in
  Forall (burst_ok transactions window_minutes count_min) (snd st).
Proof.
  intros HW tx st.
  assert (Htimes : map posted_at tx = Py.sorted Z.leb (map posted_at transactions))
    by apply (PyFacts.sorted_map by_posted_at posted_at Z.leb by_posted_at_key).
  assert (Hsorted : StronglySorted (fun a b => Z.leb a b = true)
                                   (map posted_at tx)).
  { rewrite Htimes.
    apply (@PyFacts.sorted_sorted _ Z.leb Zleb_total Zleb_trans). }
  assert (Hlen : length tx = length transactions)
    by apply PyFacts.sorted_length.
  assert (Hin : forall i, i < length tx ->
                          In (at_ tx i) (map posted_at transactions)).
  { intros i Hi. unfold at_.
    apply (PyFacts.sorted_In Z.leb). rewrite <- Htimes.
    apply nth_In. now rewrite length_map. }
  assert (H : (fst st <= length tx
               /\ Forall (burst_ok transactions window_minutes count_min)
                         (snd st))).
  { subst st.
    apply (@fold_seq_inv (nat * list Burst)
             (burst_step tx amount_max window_minutes count_min)
             (fun i s => fst s <= i
                         /\ Forall (burst_ok transactions window_minutes
                                             count_min) (snd s))).
    - intros i [j out] Hi [Hj Hout]. cbn [fst snd] in Hj, Hout.
      unfold burst_step.
      destruct (@advance_spec tx window_minutes HW (Datatypes.S i) i j)
        as [Hj' Hspan]; [exact Hj | lia |].
      set (j' := advance tx window_minutes (Datatypes.S i) i j) in *.
      set (window := slice tx j' (i + 1)).
      set (small := filter _ window).
      destruct (Nat.leb_spec (Pos.to_nat count_min) (length small))
        as [Hcount|Hfew]; cbn [fst snd].
      + split; [lia|]. apply Forall_app. split; [exact Hout|].
        constructor; [|constructor].
        unfold burst_ok. cbn [bu_count bu_start bu_end].
        change (map posted_at window)
          with (map posted_at (slice tx j' (i + 1))).
        rewrite (slice_map posted_at tx j' (i + 1)).
        rewrite hd_slice, last_slice by (rewrite length_map; lia).
        unfold at_ in Hspan, Hin.
        split; [|split; [|split]].
        * split; [exact Hcount|].
          pose proof (filter_length_le
                        (fun t => Qle_bool (Qabs (amount t)) amount_max)
                        window) as H1.
          pose proof (slice_length tx j' (i + 1)) as H2.
          fold small in H1. fold window in H2. lia.
        * split; [|unfold datetime in *; lia].
          apply (sorted_nth Hsorted). rewrite length_map. lia.
        * apply Hin. lia.
        * apply Hin. lia.
      + split; [lia | exact Hout].
    - split; [cbn; lia | constructor]. }
  tauto.
Qed.

(** X11.  Every burst that [burst_small_charges] reports, for a window of
    zero minutes or more, counts at least [count_min] small charges and no
    more than there are transactions; it starts and ends at the time of a
    transaction, it does not end before it starts, and it is no longer
    than the window. *)
Theorem bursts_are_dense_and_within_the_window :
  forall (transactions : list Row) (amount_max : Q) (window_minutes : Z)
         (count_min : positive) (b : Burst),
    (0 <= window_minutes)%Z ->
    In b (burst_small_charges transactions amount_max window_minutes
                              count_min) ->
    Pos.to_nat count_min <= bu_count b <= length transactions
    /\ (bu_start b <= bu_end b <= bu_start b + window_minutes * MINUTE)%Z
    /\ In (bu_start b) (map posted_at transactions)
    /\ In (bu_end b) (map posted_at transactions).
Proof.
  intros transactions amount_max window_minutes count_min b HW Hb.
  pose proof (burst_loop transactions amount_max count_min HW) as H.
  cbv zeta in H. rewrite Forall_forall in H. apply (H b). exact Hb.
Qed.

Lemma coffee_machine_burst :
  Pos.to_nat 5 <= bu_count BurstSamples.coffee_burst
  <= length BurstSamples.coffee_machine
  /\ (bu_start BurstSamples.coffee_burst <= bu_end BurstSamples.coffee_burst
      <= bu_start BurstSamples.coffee_burst + 30 * MINUTE)%Z
  /\ In (bu_start BurstSamples.coffee_burst)
        (map posted_at BurstSamples.coffee_machine)
  /\ In (bu_end BurstSamples.coffee_burst)
        (map posted_at BurstSamples.coffee_machine).
Proof.
  apply (@bursts_are_dense_and_within_the_window
           BurstSamples.coffee_machine 5%Q 30%Z 5%positive
           BurstSamples.coffee_burst).
  - lia.
  - vm_compute. left. reflexivity.
Defined.

End AnomaliesMore.

(* ================================================================== *)
(** * More on db/repo.py *)
(* ================================================================== *)

Module RepoMore.
Import Str StrFacts Recurring EngineSpec RepoFacts.
Local Open Scope Z_scope.

Lemma max_id_ge (ids : list Z) (x : Z) :
  In x ids -> x <= fold_right Z.max 0 ids.
Proof.
  induction ids as [|y ids IH]; [contradiction|].
  cbn [fold_right]. intros [<-|H]; [lia|]. specialize (IH H). lia.
Qed.

(** The key of a new row is in use by no row. *)
Lemma next_id_fresh (ids : list Z) : ~ In (Repo.next_id ids) ids.
Proof.
  intros H. apply max_id_ge in H. unfold Repo.next_id in H. lia.
Qed.

Lemma find_app_none (A : Type) (f : A -> bool) (l l' : list A) :
  find f l = None -> find f (l ++ l') = find f l'.
Proof.
  induction l as [|x l IH]; [reflexivity|]. cbn [find app].
  destruct (f x); [discriminate | exact IH].
Qed.

(** A merchant that is created gets an id that is not in use. *)
Lemma get_or_create_ids (r : Repo.t) (name : str) :
  NoDup (map Merchant.id (Repo.merchants r)) ->
  NoDup (map Merchant.id
             (Repo.merchants (fst (Repo.get_or_create_merchant r name)))).
Proof.
  intros Hnd. unfold Repo.get_or_create_merchant.
  destruct (find _ (Repo.merchants r)); cbn [fst]; [exact Hnd|].
  cbn [Repo.merchants Repo.set_merchants]. rewrite map_app.
  cbn [map Merchant.id].
  apply NoDup_app; [exact Hnd | repeat constructor; tauto |].
  intros k Hk [<-|[]]. exact (next_id_fresh _ Hk).
Qed.

(** X12.  [get_or_create_merchant] returns a merchant of the table it
    leaves, named by the trimmed, upper-cased argument; it changes the
    merchant table only, by at most one row added at its end; asked again
    for the same name, it returns the same merchant and changes nothing;
    and it keeps names and ids of merchants distinct. *)
Theorem get_or_create_merchant_finds_or_appends_once :
  forall (r : Repo.t) (name : str),
    In (snd (Repo.get_or_create_merchant r name))
       (Repo.merchants (fst (Repo.get_or_create_merchant r name)))
    /\ Merchant.canonical_name (snd (Repo.get_or_create_merchant r name))
       = upper (strip name)
    /\ (fst (Repo.get_or_create_merchant r name) = r
        \/ fst (Repo.get_or_create_merchant r name)
           = Repo.set_merchants
               r (Repo.merchants r ++ [snd (Repo.get_or_create_merchant r name)]))
    /\ Repo.get_or_create_merchant (fst (Repo.get_or_create_merchant r name))
                                   name
       = Repo.get_or_create_merchant r name
    /\ (NoDup (map Merchant.canonical_name (Repo.merchants r)) ->
        NoDup (map Merchant.canonical_name
                   (Repo.merchants (fst (Repo.get_or_create_merchant r name)))))
    /\ (NoDup (map Merchant.id (Repo.merchants r)) ->
        NoDup (map Merchant.id
                   (Repo.merchants (fst (Repo.get_or_create_merchant r name))))).
Proof.
  intros r name. unfold Repo.get_or_create_merchant.
  set (n := upper (strip name)).
  set (f := fun m => str_eqb (Merchant.canonical_name m) n).
  destruct (find f (Repo.merchants r)) as [m|] eqn:E; cbn [fst snd].
  - pose proof (find_some _ _ E) as [Hin Hn].
    apply str_eqb_eq in Hn.
    split; [exact Hin|]. split; [exact Hn|]. split; [now left|].
    split; [now rewrite E|]. split; intros Hnd; exact Hnd.
  - set (m := Merchant.mk (Repo.next_id (map Merchant.id (Repo.merchants r))) n).
    assert (Hfind : find f (Repo.merchants r ++ [m]) = Some m).
    { rewrite (find_app_none f _ [m] E). cbn [find]. unfold f at 1.
      cbn [Merchant.canonical_name m].
      replace (str_eqb n n) with true; [reflexivity|].
      symmetry. now apply str_eqb_eq. }
    split; [apply in_or_app; right; now left|].
    split; [reflexivity|].
    split; [now right|].
    split.
    { cbn [Repo.merchants Repo.set_merchants]. rewrite Hfind.
      reflexivity. }
    cbn [Repo.merchants Repo.set_merchants]. rewrite !map_app.
    cbn [map Merchant.canonical_name Merchant.id m].
    split; intros Hnd.
    + apply NoDup_app; [exact Hnd | repeat constructor; tauto |].
      intros k Hk [<-|[]].
      apply in_map_iff in Hk. destruct Hk as [x [Hx Hin]].
      pose proof (find_none _ _ E x Hin) as Hf. unfold f in Hf.
      apply str_eqb_neq in Hf. contradiction.
    + apply NoDup_app; [exact Hnd | repeat constructor; tauto |].
      intros k Hk [<-|[]]. exact (next_id_fresh _ Hk).
Qed.

Lemma get_or_create_acme_twice :
  NoDup (map Merchant.id
             (Repo.merchants
                (fst (Repo.get_or_create_merchant Samples.erratic
                                                  (chars " acme gym ")))))
  /\ Merchant.canonical_name
       (snd (Repo.get_or_create_merchant Samples.erratic (chars " acme gym ")))
     = chars "ACME GYM".
Proof.
  destruct (get_or_create_merchant_finds_or_appends_once
              Samples.erratic (chars " acme gym "))
    as (_ & Hname & _ & _ & _ & Hids).
  split.
  - apply Hids. repeat constructor. simpl. tauto.
  - rewrite Hname. reflexivity.
Defined.

(** ** Settings *)

Lemma get_set_same (s : Settings.table) (key value : str) :
  Settings.get_setting (Settings.set_setting s key value) key = Some value.
Proof.
  unfold Settings.get_setting.
  induction s as [|[k v] s IH]; cbn [Settings.set_setting find fst].
  - replace (str_eqb key key) with true
      by (symmetry; now apply str_eqb_eq).
    reflexivity.
  - destruct (str_eqb k key) eqn:E; cbn [find fst]; rewrite E.
    + reflexivity.
    + exact IH.
Qed.

Lemma get_set_other (s : Settings.table) (key value key' : str) :
  key' <> key ->
  Settings.get_setting (Settings.set_setting s key value) key'
  = Settings.get_setting s key'.
Proof.
  intros Hne. unfold Settings.get_setting.
  induction s as [|[k v] s IH]; cbn [Settings.set_setting find fst].
  - replace (str_eqb key key') with false; [reflexivity|].
    symmetry. apply str_eqb_neq. congruence.
  - destruct (str_eqb k key) eqn:E; cbn [find fst].
    + apply str_eqb_eq in E. subst k.
      replace (str_eqb key key') with false; [reflexivity|].
      symmetry. apply str_eqb_neq. congruence.
    + destruct (str_eqb k key'); [reflexivity | exact IH].
Qed.

Lemma set_setting_keys (s : Settings.table) (key value : str) :
  (In key (map fst s)
   /\ map fst (Settings.set_setting s key value) = map fst s)
  \/ (~ In key (map fst s)
      /\ map fst (Settings.set_setting s key value) = map fst s ++ [key]).
Proof.
  induction s as [|[k v] s IH]; cbn [Settings.set_setting map fst].
  - right. split; [tauto | reflexivity].
  - destruct (str_eqb k key) eqn:E; cbn [map fst].
    + apply str_eqb_eq in E. left. split; [now left | reflexivity].
    + apply str_eqb_neq in E. destruct IH as [[Hin Heq]|[Hnin Heq]].
      * left. split; [now right | now rewrite Heq].
      * right. split; [|now rewrite Heq].
        intros [H|H]; [congruence | contradiction].
Qed.

(** X13.  Settings round trip: after [set_setting(key, value)],
    [get_setting(key)] returns the value and every other key reads as
    before; the keys stay distinct; and with a salt that is not empty
    stored under "encryption_salt_b64", as [set-passphrase] does, the
    test for enabled encryption holds. *)
Theorem set_setting_then_get_setting :
  forall (s : Settings.table) (key value : str),
    Settings.get_setting (Settings.set_setting s key value) key = Some value
    /\ (forall key' : str,
           key' <> key ->
           Settings.get_setting (Settings.set_setting s key value) key'
           = Settings.get_setting s key')
    /\ (NoDup (map fst s) ->
        NoDup (map fst (Settings.set_setting s key value)))
    /\ (key = chars "encryption_salt_b64" -> value <> [] ->
        Settings.encryption_enabled (Settings.set_setting s key value)
        = true).
Proof.
  intros s key value.
  split; [apply get_set_same|].
  split; [intros key'; apply get_set_other|].
  split.
  - intros Hnd.
    destruct (set_setting_keys s key value) as [[_ ->]|[Hnin ->]];
      [exact Hnd|].
    apply NoDup_app; [exact Hnd | repeat constructor; tauto |].
    intros k Hk [<-|[]]. contradiction.
  - intros -> Hv. unfold Settings.encryption_enabled.
    rewrite get_set_same. destruct value; [congruence|].
    apply orb_true_r.
Qed.

Lemma salt_enables_encryption :
  Settings.get_setting
    (Settings.set_setting [(chars "llm_mode", chars "strict")]
                          (chars "encryption_salt_b64") (chars "c2FsdA=="))
    (chars "llm_mode")
  = Some (chars "strict")
  /\ Settings.encryption_enabled
       (Settings.set_setting [(chars "llm_mode", chars "strict")]
                             (chars "encryption_salt_b64") (chars "c2FsdA=="))
     = true.
Proof.
  destruct (set_setting_then_get_setting
              [(chars "llm_mode", chars "strict")]
              (chars "encryption_salt_b64") (chars "c2FsdA=="))
    as (_ & Hother & _ & Hsalt).
  split.
  - rewrite Hother; [reflexivity | discriminate].
  - apply Hsalt; [reflexivity | discriminate].
Defined.

End RepoMore.

(* ================================================================== *)
(** * More on core/engine.py: the tables after a recompute *)
(* ================================================================== *)

Module RecomputeMore.
Import Str Stats StatsFacts Recurring RecurringFacts EngineSpec RepoFacts.
Import EngineFacts RecomputeSpec RepoMore RecurringMore.
Local Open Scope nat_scope.

Lemma raised_trans (n m : nat) (r1 r2 r3 : Repo.t) :
  raised n r1 r2 -> raised m r2 r3 -> raised (m + n) r1 r3.
Proof.
  intros H1 H2. induction H2 as [r|m r r' ty sev evd mid sid tid _ IH].
  - exact H1.
  - cbn [Nat.add]. apply raised_one. now apply IH.
Qed.

Lemma raised_le_refl (k : nat) (r : Repo.t) : raised_le k r r.
Proof. exists 0. split; [lia | constructor]. Qed.

Lemma raised_le_mono (k k' : nat) (r r' : Repo.t) :
  k <= k' -> raised_le k r r' -> raised_le k' r r'.
Proof. intros Hk [n [Hn H]]. exists n. split; [lia | exact H]. Qed.

Lemma raised_le_trans (k1 k2 : nat) (r1 r2 r3 : Repo.t) :
  raised_le k1 r1 r2 -> raised_le k2 r2 r3 -> raised_le (k1 + k2) r1 r3.
Proof.
  intros [n1 [Hn1 H1]] [n2 [Hn2 H2]]. exists (n2 + n1).
  split; [lia | now apply raised_trans with r2].
Qed.

Lemma raised_le_add_event (r : Repo.t) (ty : Event.type_)
      (sev : Event.severity_) (evd : Event.evidence_)
      (mid sid tid : option Z) :
  raised_le 1 r (Repo.add_event r ty sev evd mid sid tid).
Proof. exists 1. split; [lia | repeat constructor]. Qed.

Lemma raised_le_fold (A : Type) (k : nat) (f : Repo.t -> A -> Repo.t)
      (l : list A) :
  (forall r x, raised_le k r (f r x)) ->
  forall r, raised_le (length l * k) r (fold_left f l r).
Proof.
  intros Hf. induction l as [|x l IH]; intros r; cbn [fold_left length].
  - apply raised_le_refl.
  - cbn [Nat.mul]. apply raised_le_trans with (f r x); [apply Hf | apply IH].
Qed.

Lemma max_of_seq (n : nat) :
  forall a : nat,
    fold_right Z.max 0%Z (map Z.of_nat (seq a n))
    = if n =? 0 then 0%Z else Z.of_nat (a + n - 1).
Proof.
  induction n as [|n IH]; intros a; [reflexivity|].
  cbn [seq map fold_right]. rewrite IH.
  destruct n as [|n]; cbn [Nat.eqb]; lia.
Qed.

(** Raising events changes the event table only, by as many rows as
    there are calls, and goes on with the numbering. *)
Lemma raised_frame (n : nat) (r r' : Repo.t) :
  raised n r r' ->
  Repo.crypto_key r' = Repo.crypto_key r
  /\ Repo.transactions r' = Repo.transactions r
  /\ Repo.merchants r' = Repo.merchants r
  /\ Repo.aliases r' = Repo.aliases r
  /\ Repo.series r' = Repo.series r
  /\ length (Repo.events r') = length (Repo.events r) + n
  /\ (numbered r -> numbered r').
Proof.
  induction 1 as [r|n r r' ty sev evd mid sid tid _ IH].
  - repeat split; try reflexivity; try lia. tauto.
  - destruct IH as (H1 & H2 & H3 & H4 & H5 & H6 & H7).
    unfold Repo.add_event, Repo.set_events.
    cbn [Repo.crypto_key Repo.transactions Repo.merchants Repo.aliases
         Repo.series Repo.events].
    repeat (split; [assumption|]).
    split; [rewrite length_app; cbn [length]; lia|].
    intros Hr. specialize (H7 Hr). unfold numbered in *.
    cbn [Repo.events]. rewrite map_app, length_app. cbn [map length Event.id].
    rewrite seq_app, map_app, H7. f_equal. cbn [seq map]. f_equal.
    unfold Repo.next_id. rewrite max_of_seq.
    destruct (length (Repo.events r')); cbn [Nat.eqb]; lia.
Qed.

Lemma new_subscription_raised (now : datetime) (r : Repo.t)
      (row : Engine.series_row) :
  raised_le 1 r (Engine.new_subscription now r row).
Proof.
  destruct row as [[[m sid] res] tx]. unfold Engine.new_subscription.
  destruct (_ && _); [apply raised_le_add_event | apply raised_le_refl].
Qed.

Lemma price_change_raised (r : Repo.t) (row : Engine.series_row) :
  raised_le 1 r (Engine.price_change r row).
Proof.
  destruct row as [[[m sid] res] tx]. unfold Engine.price_change.
  destruct (5 <=? length tx); [|apply raised_le_refl].
  destruct (Qltb _ _); [apply raised_le_add_event | apply raised_le_refl].
Qed.

Lemma duplicate_at_raised (m : Merchant.t) (sid : Z)
      (tx : list Transaction.t) (r : Repo.t) (i : nat) :
  raised_le 1 r (Engine.duplicate_at m sid tx r i).
Proof.
  unfold Engine.duplicate_at.
  destruct (nth_error tx i); [|apply raised_le_refl].
  destruct (nth_error tx (S i)); [|apply raised_le_refl].
  destruct (Engine.is_duplicate _ _);
    [apply raised_le_add_event | apply raised_le_refl].
Qed.

(** The loop over the pairs runs over at most nine of them. *)
Lemma duplicates_raised (r : Repo.t) (row : Engine.series_row) :
  raised_le 9 r (Engine.duplicates r row).
Proof.
  destruct row as [[[m sid] res] tx]. unfold Engine.duplicates.
  eapply raised_le_mono; [|apply raised_le_fold; intros; apply duplicate_at_raised].
  rewrite length_seq. lia.
Qed.

Lemma events_for_series_raised (now : datetime) (r : Repo.t)
      (rows : list Engine.series_row) :
  raised_le (length rows * 11) r (Engine._events_for_series now r rows).
Proof.
  unfold Engine._events_for_series. apply raised_le_fold.
  intros r' row.
  apply (@raised_le_trans 2 9 r' (Engine.price_change
                                    (Engine.new_subscription now r' row) row));
    [|apply duplicates_raised].
  apply (@raised_le_trans 1 1 r' (Engine.new_subscription now r' row));
    [apply new_subscription_raised | apply price_change_raised].
Qed.

Lemma capped_fold_raised (A : Type) (cap : nat) (f : Repo.t -> A -> Repo.t)
      (l : list A) (r : Repo.t) :
  (forall r x, raised_le 1 r (f r x)) ->
  raised_le cap r (fold_left f (firstn cap l) r).
Proof.
  intros Hf.
  eapply raised_le_mono; [|apply raised_le_fold; exact Hf].
  pose proof (firstn_le_length cap l). lia.
Qed.

Lemma events_for_anomalies_raised (r : Repo.t) :
  raised_le 450 r (Engine._events_for_anomalies r).
Proof.
  unfold Engine._events_for_anomalies.
  apply (@raised_le_mono (200 + 200 + 50) 450); [apply Nat.leb_le; reflexivity|].
  eapply raised_le_trans; [eapply raised_le_trans|];
    apply capped_fold_raised; intros; apply raised_le_add_event.
Qed.

(** The loop over the merchants makes at most one series row for each. *)
Lemma series_rows_length (r0 : Repo.t) (ms : list Merchant.t) :
  length (snd (fold_left Engine.series_step ms (r0, []))) <= length ms.
Proof.
  apply (@fold_left_prefix_inv _ _ Engine.series_step
           (fun done st => length (snd st) <= length done)).
  - intros done m [r rows] H. cbn [snd] in H. rewrite length_app.
    cbn [length]. unfold Engine.series_step.
    destruct (_ <? 3); [cbn [snd]; lia|].
    destruct (detect_recurring _ _ _); [|cbn [snd]; lia].
    destruct (Repo.upsert_series _ _ _ _ _). cbn [snd].
    rewrite length_app. cbn [length]. lia.
  - cbn. lia.
Qed.

Lemma recompute_raised (X : Repo.Externals) (now : datetime)
      (repo : Repo.t) :
  let r0 := ledger (fst (Engine.resolve_merchants X repo
                           Engine.default_fuzzy_threshold)) in
  let st := fold_left Engine.series_step (Repo.list_merchants r0) (r0, []) in
  raised_le (length (snd st) * 11 + 450)
            (fst st) (Engine.recompute X now repo).
Proof.
  intros r0 st. unfold Engine.recompute, Engine.detect_series.
  change (Repo.clear_recurring_and_events
            (fst (Engine.resolve_merchants X repo
                    Engine.default_fuzzy_threshold))) with r0.
  fold st. destruct st as [r2 rows]. cbn [fst snd].
  eapply raised_le_trans;
    [apply events_for_series_raised | apply events_for_anomalies_raised].
Qed.

(** What a recompute leaves, in terms of the state after the loop over
    the merchants. *)
Lemma recompute_tables (X : Repo.Externals) (now : datetime)
      (repo : Repo.t) :
  let r0 := ledger (fst (Engine.resolve_merchants X repo
                           Engine.default_fuzzy_threshold)) in
  let st := fold_left Engine.series_step (Repo.list_merchants r0) (r0, []) in
  let r' := Engine.recompute X now repo in
  Repo.transactions r' = Repo.transactions r0
  /\ Repo.merchants r' = Repo.merchants r0
  /\ Repo.series r' = Repo.series (fst st)
  /\ numbered r'
  /\ length (Repo.events r') <= length (Repo.merchants r0) * 11 + 450.
Proof.
  intros r0 st r'.
  destruct (recompute_raised X now repo) as [n [Hn Hr]].
  fold r0 in Hn, Hr. fold st in Hn, Hr. fold r' in Hr.
  pose proof (series_loop r0 (Repo.list_merchants r0))
    as (HT & HM & HE & _ & _).
  pose proof (series_rows_length r0 (Repo.list_merchants r0)) as Hrows.
  fold st in HT, HM, HE, Hrows.
  unfold Repo.list_merchants in Hrows.
  rewrite PyFacts.sorted_length in Hrows.
  apply raised_frame in Hr.
  destruct Hr as (_ & FT & FM & _ & FS & FL & FN).
  assert (Hnil : Repo.events (fst st) = []).
  { rewrite HE. apply ledger_events. }
  repeat split.
  - congruence.
  - congruence.
  - exact FS.
  - apply FN. unfold numbered. now rewrite Hnil.
  - rewrite FL, Hnil. cbn [length]. nia.
Qed.

(** X14.  After a recompute the events carry the ids 1, 2, 3, ... in the
    order in which they were raised, and there are at most eleven of them
    for each merchant (one detection, one price change and nine pairs of
    the duplicate scan) and 450 from the batch detectors. *)
Theorem recompute_numbers_and_bounds_its_events :
  forall (X : Repo.Externals) (now : datetime) (repo : Repo.t),
    numbered (Engine.recompute X now repo)
    /\ length (Repo.events (Engine.recompute X now repo))
       <= length (Repo.merchants (Engine.recompute X now repo)) * 11 + 450.
Proof.
  intros X now repo.
  destruct (recompute_tables X now repo) as (_ & HM & _ & HN & HL).
  split; [exact HN|]. rewrite HM. exact HL.
Qed.

(** Rows selected from a table with distinct keys have distinct keys. *)
Lemma selected_keys_distinct (Row Key : Type) (key : Row -> Key)
      (keep : Row -> bool) (rows : list Row) :
  NoDup (map key rows) -> NoDup (map key (filter keep rows)).
Proof.
  induction rows as [|x rows IH]; cbn [map filter]; intros H; [constructor|].
  inversion H as [|? ? Hx Hl]; subst.
  destruct (keep x); cbn [map]; [|now apply IH].
  constructor; [|now apply IH].
  intros Hin. apply Hx. apply in_map_iff in Hin.
  destruct Hin as [y [Hy Hin]]. apply filter_In in Hin.
  apply in_map_iff. exists y. tauto.
Qed.

(** One call of [upsert_series], seen from the series table. *)
Lemma upsert_series_table (r : Repo.t) (mid : Z) (res : SeriesResult)
      (last_txn : Z) (status : str) (ok : RecurringSeries.t -> Prop) :
  let r' := fst (Repo.upsert_series r mid res last_txn status) in
  (NoDup (map RecurringSeries.merchant_id (Repo.series r)) ->
   NoDup (map RecurringSeries.merchant_id (Repo.series r')))
  /\ (NoDup (map RecurringSeries.id (Repo.series r)) ->
      NoDup (map RecurringSeries.id (Repo.series r')))
  /\ (Forall ok (Repo.series r) ->
      (forall id,
          ok (RecurringSeries.mk id mid (period_days res) (amount_median res)
                (amount_mad res) (gap_median res) (gap_mad res)
                (confidence res) last_txn (next_expected_at res) status)) ->
      Forall ok (Repo.series r')).
Proof.
  unfold Repo.upsert_series. cbn [fst Repo.series Repo.set_series].
  set (kept := filter _ (Repo.series r)).
  rewrite !map_app. cbn [map RecurringSeries.merchant_id RecurringSeries.id].
  split; [|split].
  - intros H. apply NoDup_app.
    + now apply selected_keys_distinct.
    + repeat constructor. tauto.
    + intros k Hk [<-|[]]. apply in_map_iff in Hk.
      destruct Hk as [rs [Hrs Hin]]. apply filter_In in Hin.
      destruct Hin as [_ Hin]. apply negb_true_iff, Z.eqb_neq in Hin.
      contradiction.
  - intros H. apply NoDup_app.
    + now apply selected_keys_distinct.
    + repeat constructor. tauto.
    + intros k Hk [<-|[]]. exact (next_id_fresh _ Hk).
  - intros H Hnew. apply Forall_app. split.
    + rewrite Forall_forall in *. intros rs Hrs. apply filter_In in Hrs.
      now apply H.
    + constructor; [apply Hnew | constructor].
Qed.

Lemma series_table_loop (r0 : Repo.t) (ms : list Merchant.t) :
  Repo.series r0 = [] ->
  (forall m, In m ms -> In m (Repo.merchants r0)) ->
  let r := fst (fold_left Engine.series_step ms (r0, [])) in
  NoDup (map RecurringSeries.merchant_id (Repo.series r))
  /\ NoDup (map RecurringSeries.id (Repo.series r))
  /\ Forall (series_ok r0) (Repo.series r).
Proof.
  intros Hnil Hms r.
  assert (H : Repo.transactions r = Repo.transactions r0
              /\ NoDup (map RecurringSeries.merchant_id (Repo.series r))
              /\ NoDup (map RecurringSeries.id (Repo.series r))
              /\ Forall (series_ok r0) (Repo.series r)).
  { subst r.
    apply (@fold_left_inv _ _ Engine.series_step
             (fun st =>
                Repo.transactions (fst st) = Repo.transactions r0
                /\ NoDup (map RecurringSeries.merchant_id (Repo.series (fst st)))
                /\ NoDup (map RecurringSeries.id (Repo.series (fst st)))
                /\ Forall (series_ok r0) (Repo.series (fst st)))).
    - intros [r rows] m Hm (HT & H1 & H2 & H3). cbn [fst] in *.
      unfold Engine.series_step.
      pose proof (@tx_length r r0 (Merchant.id m) HT) as Hlen.
      set (tx := rev (Repo.list_transactions_for_merchant
                        r (Merchant.id m) 10000)) in *.
      destruct (length tx <? 3) eqn:E3; [cbn [fst]; tauto|].
      apply Nat.ltb_ge in E3.
      destruct (detect_recurring _ _ 3) as [res|] eqn:Hres;
        [|cbn [fst]; tauto].
      pose proof (upsert_series_frame r (Merchant.id m) res
                    (last (map Transaction.id tx) 0%Z) (chars "active"))
        as (F1 & _).
      pose proof (upsert_series_table r (Merchant.id m) res
                    (last (map Transaction.id tx) 0%Z) (chars "active")
                    (series_ok r0)) as (G1 & G2 & G3).
      destruct (Repo.upsert_series r (Merchant.id m) res
                  (last (map Transaction.id tx) 0%Z) (chars "active"))
        as [r' sid].
      cbn [fst] in *.
      split; [congruence|]. split; [now apply G1|]. split; [now apply G2|].
      apply G3; [exact H3|]. intros id.
      destruct (detect_recurring_period_confidence _ _ _ Hres)
        as (Hp & Hc0 & Hc1).
      unfold series_ok.
      cbn [RecurringSeries.status RecurringSeries.merchant_id
           RecurringSeries.period_days RecurringSeries.confidence].
      split; [reflexivity|]. split.
      { apply (proj1 (limited_three _)). rewrite <- Hlen. exact E3. }
      split; [exists m; split; [now apply Hms | reflexivity]|].
      split; [exact Hp|]. split; assumption.
    - cbn [fst]. rewrite Hnil. repeat split; constructor. }
  tauto.
Qed.

(** X15.  After a recompute the series table holds at most one row for a
    merchant and no id twice; every row is active, belongs to a merchant
    of the merchant table with at least three transactions, has one of the
    candidate periods and a confidence between 0 and 1. *)
Theorem recompute_leaves_one_sound_series_per_merchant :
  forall (X : Repo.Externals) (now : datetime) (repo : Repo.t),
    NoDup (map RecurringSeries.merchant_id
               (Repo.series (Engine.recompute X now repo)))
    /\ NoDup (map RecurringSeries.id
                  (Repo.series (Engine.recompute X now repo)))
    /\ Forall (series_ok (Engine.recompute X now repo))
              (Repo.series (Engine.recompute X now repo)).
Proof.
  intros X now repo.
  destruct (recompute_tables X now repo) as (HT & HM & HS & _ & _).
  set (r0 := ledger (fst (Engine.resolve_merchants X repo
                            Engine.default_fuzzy_threshold))) in *.
  assert (Hnil : Repo.series r0 = []) by reflexivity.
  clearbody r0.
  destruct (@series_table_loop r0 (Repo.list_merchants r0) Hnil)
    as (H1 & H2 & H3).
  { intros m Hm. apply (PyFacts.sorted_In Repo.by_name). exact Hm. }
  rewrite HS. split; [exact H1|]. split; [exact H2|].
  eapply Forall_impl; [|exact H3].
  intros rs (A1 & A2 & A3 & A4). unfold series_ok.
  rewrite (@txn_count_transactions (Engine.recompute X now repo) r0
             (RecurringSeries.merchant_id rs) HT), HM.
  split; [exact A1|]. split; [exact A2|]. split; [exact A3 | exact A4].
Qed.

End RecomputeMore.

(* ================================================================== *)
(** * More on core/engine.py: price changes and locked ledgers *)
(* ================================================================== *)

Module EventsMore.
Import Str Stats StatsFacts Recurring EngineSpec RepoFacts.
Local Open Scope Q_scope.

Lemma In_skipn_In (A : Type) (n : nat) (l : list A) (x : A) :
  In x (skipn n l) -> In x l.
Proof.
  intros H. rewrite <- (firstn_skipn n l). apply in_or_app. now right.
Qed.

Lemma In_removelast_In (A : Type) (l : list A) (x : A) :
  In x (removelast l) -> In x l.
Proof.
  induction l as [|y l IH]; [simpl; tauto|].
  destruct l as [|z l]; [simpl; tauto|].
  change (removelast (y :: z :: l)) with (y :: removelast (z :: l)).
  intros [<-|H]; [now left | right; now apply IH].
Qed.

Lemma removelast_length (A : Type) (l : list A) :
  length (removelast l) = (length l - 1)%nat.
Proof.
  induction l as [|y [|z l] IH]; [reflexivity | reflexivity |].
  change (removelast (y :: z :: l)) with (y :: removelast (z :: l)).
  cbn [length] in *. rewrite IH. lia.
Qed.

Lemma lastn_length (A : Type) (n : nat) (l : list A) :
  length (Engine.lastn n l) = Nat.min n (length l).
Proof. unfold Engine.lastn. rewrite length_skipn. lia. Qed.

Lemma last_In (A : Type) (l : list A) (d : A) : l <> [] -> In (last l d) l.
Proof.
  intros H. destruct (@exists_last _ l H) as [l' [a ->]].
  rewrite last_last. apply in_or_app. right. now left.
Qed.

Lemma max2_ge_r (a b : Q) : b <= Recurring.max2 a b.
Proof.
  unfold Recurring.max2. destruct (Qltb a b) eqn:E; [apply Qle_refl|].
  now apply Qltb_ge in E.
Qed.

(** X16.  No price change is reported for a merchant whose amounts all
    lie within 2 of each other, however many they are: the last amount
    then differs by at most 2 from the median of the amounts before
    it. *)
Theorem price_change_needs_a_difference_above_two :
  forall (repo : Repo.t) (m : Merchant.t) (sid : Z) (res : SeriesResult)
         (tx : list Transaction.t),
    (forall a b : Transaction.t,
        In a tx -> In b tx ->
        Qabs (Transaction.amount a - Transaction.amount b) <= 2) ->
    Engine.price_change repo (m, sid, res, tx) = repo.
Proof.
  intros repo m sid res tx Hband. unfold Engine.price_change.
  destruct (Nat.leb_spec 5 (length tx)) as [H5|_]; [|reflexivity].
  set (prev := map Transaction.amount (Engine.lastn 6 (removelast tx))).
  set (last_ := last (map Transaction.amount tx) 0).
  assert (Hne : prev <> []).
  { intros Hnil. apply (f_equal (@length Q)) in Hnil. unfold prev in Hnil.
    rewrite length_map, lastn_length, removelast_length in Hnil.
    cbn [length] in Hnil. lia. }
  assert (Hlast : exists b, In b tx /\ last_ = Transaction.amount b).
  { assert (Hin : In last_ (map Transaction.amount tx)).
    { apply last_In. destruct tx; [cbn in H5; lia | discriminate]. }
    apply in_map_iff in Hin. destruct Hin as [b [Hb Hin]].
    exists b. split; [exact Hin | now symmetry]. }
  destruct Hlast as [b [Hb Hlast]].
  assert (Hprev : forall x, In x prev -> last_ - 2 <= x /\ x <= last_ + 2).
  { intros x Hx. unfold prev in Hx. apply in_map_iff in Hx.
    destruct Hx as [a [<- Ha]].
    apply In_skipn_In, In_removelast_In in Ha.
    pose proof (Hband a b Ha Hb) as Hab.
    apply Qabs_Qle_condition in Hab. rewrite Hlast. lra. }
  assert (Hlo : last_ - 2 <= median prev).
  { rewrite (median_nonempty Hne). apply np_median_ge; [exact Hne|].
    intros x Hx. now apply Hprev. }
  assert (Hhi : median prev <= last_ + 2).
  { rewrite (median_nonempty Hne). apply np_median_le; [exact Hne|].
    intros x Hx. now apply Hprev. }
  replace (Qltb _ _) with false; [reflexivity|].
  symmetry. apply Qltb_ge.
  apply Qle_trans with 2; [|apply max2_ge_r].
  apply Qabs_Qle_condition. lra.
Qed.

Lemma gym_raises_no_price_change :
  Engine.price_change Samples.two_charges
    (Samples.gym, 1%Z, Samples.weekly,
     [Samples.charge_a; Samples.charge_b; Samples.charge_a; Samples.charge_b;
      Samples.charge_a])
  = Samples.two_charges.
Proof.
  apply (@price_change_needs_a_difference_above_two
           Samples.two_charges Samples.gym 1%Z Samples.weekly).
  intros a b Ha Hb. cbn [In] in Ha, Hb.
  repeat (destruct Ha as [<-|Ha]); repeat (destruct Hb as [<-|Hb]);
    try contradiction; vm_compute; discriminate.
Defined.

Lemma clean_encrypted_marker :
  Normalize.clean_merchant (chars "<encrypted>") = chars "ENCRYPTED".
Proof. vm_compute. reflexivity. Qed.

(** X17.  A repository opened without the key, as every command of the
    command line opens it, reads each encrypted description as the marker
    "<encrypted>": the resolver cleans all of them to the one name
    ENCRYPTED and makes the same choice of merchant for every encrypted
    transaction.  The decryption is never called. *)
Theorem locked_repository_resolves_encrypted_rows_alike :
  forall (X : Repo.Externals) (repo : Repo.t) (t : Transaction.t),
    Repo.crypto_key repo = None ->
    startswith (Transaction.description_raw t) (chars "enc:") = true ->
    cleaned_of X repo t = chars "ENCRYPTED"
    /\ forall (aliases : list MerchantAlias.t) (merchants : list Merchant.t)
              (thr : Q),
         pick X aliases merchants thr repo t
         = snd (Engine.choose X aliases merchants thr repo
                              (chars "ENCRYPTED")).
Proof.
  intros X repo t Hkey Henc.
  assert (H : cleaned_of X repo t = chars "ENCRYPTED").
  { unfold cleaned_of, Repo.decrypt_field, Repo.maybe_decrypt.
    rewrite Hkey, Henc. cbn [negb]. apply clean_encrypted_marker. }
  split; [exact H|].
  intros aliases merchants thr. unfold pick. now rewrite H.
Qed.

Lemma locked_ledger_reads_marker :
  cleaned_of Samples.externals LockedSamples.locked
             LockedSamples.rent
  = chars "ENCRYPTED"
  /\ forall (aliases : list MerchantAlias.t) (merchants : list Merchant.t)
            (thr : Q),
       pick Samples.externals aliases merchants thr LockedSamples.locked
            LockedSamples.rent
       = snd (Engine.choose Samples.externals aliases merchants thr
                            LockedSamples.locked (chars "ENCRYPTED")).
Proof.
  apply (@locked_repository_resolves_encrypted_rows_alike
           Samples.externals LockedSamples.locked LockedSamples.rent).
  - reflexivity.
  - reflexivity.
Defined.

End EventsMore.

(* ================================================================== *)
(** * More on the merchant resolver *)
(* ================================================================== *)

Module ResolverMore.
Import Str Recurring EngineSpec RepoFacts ResolverFacts RecomputeSpec.
Local Open Scope nat_scope.

(** An invariant that speaks of the elements done so far, for a step
    that needs to know that its element is one of the list. *)
Lemma fold_left_prefix_in (A S : Type) (f : S -> A -> S)
      (I : list A -> S -> Prop) (l : list A) :
  (forall done x s, In x l -> I done s -> I (done ++ [x]) (f s x)) ->
  forall s, I [] s -> I l (fold_left f l s).
Proof.
  intros Hf.
  assert (H : forall l' done s,
             (forall x, In x l' -> In x l) -> I done s ->
             I (done ++ l') (fold_left f l' s)).
  { induction l' as [|x l' IH]; intros done s Hsub Hs; cbn [fold_left].
    - now rewrite app_nil_r.
    - replace (done ++ x :: l') with ((done ++ [x]) ++ l')
        by (rewrite <- app_assoc; reflexivity).
      apply IH; [intros y Hy; apply Hsub; now right|].
      apply Hf; [apply Hsub; now left | exact Hs]. }
  intros s Hs. apply (H l [] s); [tauto | exact Hs].
Qed.

Section Step.
Variable X : Repo.Externals.
Variable aliases : list MerchantAlias.t.
Variable merchants : list Merchant.t.
Variable thr : Q.

Lemma choose_some (r : Repo.t) (cleaned : str) :
  cleaned <> [] ->
  snd (Engine.choose X aliases merchants thr r cleaned) <> None.
Proof.
  intros Hne. unfold Engine.choose.
  destruct (Engine.alias_match _ _); [discriminate|].
  destruct (Engine.hint_match _ _); [discriminate|].
  destruct (Engine.fuzzy_match _ _ _ _); [discriminate|].
  destruct cleaned; [congruence|].
  destruct (Repo.get_or_create_merchant _ _). discriminate.
Qed.

(** One round of the loop: the merchant table may grow by a row, and the
    transaction is either left as it is, carrying the choice already, or
    assigned the choice. *)
Lemma resolve_step_cases (r : Repo.t) (u : nat) (t : Transaction.t) :
  exists r1 : Repo.t,
    Repo.crypto_key r1 = Repo.crypto_key r
    /\ Repo.aliases r1 = Repo.aliases r
    /\ Repo.series r1 = Repo.series r
    /\ Repo.events r1 = Repo.events r
    /\ (exists ext, Repo.merchants r1 = Repo.merchants r ++ ext)
    /\ ((Engine.resolve_step X aliases merchants thr (r, u) t
         = (Repo.set_transactions r1 (Repo.transactions r), u)
         /\ Transaction.merchant_id t = pick X aliases merchants thr r t)
        \/ Engine.resolve_step X aliases merchants thr (r, u) t
           = (Repo.set_transactions
                r1 (map (assign (Transaction.id t)
                                (pick X aliases merchants thr r t))
                        (Repo.transactions r)),
              S u)).
Proof.
  replace (Engine.resolve_step X aliases merchants thr (r, u) t)
    with (Engine.resolve_step X aliases merchants thr
            (Repo.set_transactions r (Repo.transactions r), u) t)
    by (now rewrite set_transactions_same).
  rewrite step_set_transactions. cbv zeta.
  exists (fst (Engine.choose X aliases merchants thr r (cleaned_of X r t))).
  assert (Hfields :
            Repo.crypto_key
              (fst (Engine.choose X aliases merchants thr r
                                  (cleaned_of X r t)))
            = Repo.crypto_key r
            /\ Repo.aliases
                 (fst (Engine.choose X aliases merchants thr r
                                     (cleaned_of X r t)))
               = Repo.aliases r
            /\ Repo.series
                 (fst (Engine.choose X aliases merchants thr r
                                     (cleaned_of X r t)))
               = Repo.series r
            /\ Repo.events
                 (fst (Engine.choose X aliases merchants thr r
                                     (cleaned_of X r t)))
               = Repo.events r
            /\ (exists ext,
                   Repo.merchants
                     (fst (Engine.choose X aliases merchants thr r
                                         (cleaned_of X r t)))
                   = Repo.merchants r ++ ext)).
  { destruct (choose_grows X aliases merchants thr r (cleaned_of X r t))
      as [->|[m ->]].
    - repeat split. exists []. now rewrite app_nil_r.
    - repeat split. now exists [m]. }
  destruct Hfields as (H1 & H2 & H3 & H4 & H5).
  repeat (split; [assumption|]).
  destruct (Engine.same_merchant _ _) eqn:E.
  - left. split; [reflexivity|]. now apply same_merchant_eq.
  - right. reflexivity.
Qed.
End Step.

Lemma choose_ids (X : Repo.Externals) (aliases : list MerchantAlias.t)
      (merchants : list Merchant.t) (thr : Q) (r : Repo.t) (cleaned : str) :
  NoDup (map Merchant.id (Repo.merchants r)) ->
  NoDup (map Merchant.id
             (Repo.merchants
                (fst (Engine.choose X aliases merchants thr r cleaned)))).
Proof.
  intros Hnd. unfold Engine.choose.
  destruct (Engine.alias_match _ _); [exact Hnd|].
  destruct (Engine.hint_match _ _); [exact Hnd|].
  destruct (Engine.fuzzy_match _ _ _ _); [exact Hnd|].
  destruct cleaned as [|c cleaned]; [exact Hnd|].
  pose proof (@RepoMore.get_or_create_ids
                r (Normalize.canonical_hint (c :: cleaned)) Hnd) as H.
  destruct (Repo.get_or_create_merchant _ _) as [r' m]. exact H.
Qed.

(** The resolver keeps the ids of the merchants distinct. *)
Lemma resolve_merchants_ids (X : Repo.Externals) (repo : Repo.t) (thr : Q) :
  NoDup (map Merchant.id (Repo.merchants repo)) ->
  NoDup (map Merchant.id
             (Repo.merchants (fst (Engine.resolve_merchants X repo thr)))).
Proof.
  intros Hnd. rewrite resolve_merchants_loop.
  set (A := Repo.list_aliases repo). set (M := Repo.list_merchants repo).
  set (l0 := Repo.list_transactions repo 200000).
  clearbody A M l0.
  apply (@fold_left_inv _ _ (Engine.resolve_step X A M thr)
           (fun st => NoDup (map Merchant.id (Repo.merchants (fst st)))));
    [|exact Hnd].
  intros [r u] t _ H. cbn [fst] in H.
  replace (Engine.resolve_step X A M thr (r, u) t)
    with (Engine.resolve_step X A M thr
            (Repo.set_transactions r (Repo.transactions r), u) t)
    by (now rewrite set_transactions_same).
  rewrite step_set_transactions. cbv zeta.
  pose proof (@choose_ids X A M thr r (cleaned_of X r t) H) as Hc.
  destruct (Engine.same_merchant _ _); exact Hc.
Qed.

Lemma unassigned_assign (i : Z) (c : option Z) (x : Transaction.t) :
  unassigned (assign i c x) = unassigned x.
Proof. unfold assign. destruct (_ =? _)%Z; reflexivity. Qed.

(** What the resolver leaves as it found it. *)
Lemma resolve_merchants_frame (X : Repo.Externals) (repo : Repo.t)
      (thr : Q) :
  let st := Engine.resolve_merchants X repo thr in
  Repo.crypto_key (fst st) = Repo.crypto_key repo
  /\ Repo.aliases (fst st) = Repo.aliases repo
  /\ Repo.series (fst st) = Repo.series repo
  /\ Repo.events (fst st) = Repo.events repo
  /\ (exists ext, Repo.merchants (fst st) = Repo.merchants repo ++ ext)
  /\ map unassigned (Repo.transactions (fst st))
     = map unassigned (Repo.transactions repo)
  /\ snd st <= length (Repo.list_transactions repo 200000).
Proof.
  intros st. subst st. rewrite resolve_merchants_loop.
  set (A := Repo.list_aliases repo). set (M := Repo.list_merchants repo).
  set (l0 := Repo.list_transactions repo 200000).
  clearbody A M l0.
  apply (@fold_left_prefix_inv _ _ (Engine.resolve_step X A M thr)
           (fun done st =>
              Repo.crypto_key (fst st) = Repo.crypto_key repo
              /\ Repo.aliases (fst st) = Repo.aliases repo
              /\ Repo.series (fst st) = Repo.series repo
              /\ Repo.events (fst st) = Repo.events repo
              /\ (exists ext,
                     Repo.merchants (fst st) = Repo.merchants repo ++ ext)
              /\ map unassigned (Repo.transactions (fst st))
                 = map unassigned (Repo.transactions repo)
              /\ snd st <= length done)).
  - intros done t [r u] (H1 & H2 & H3 & H4 & [ext H5] & H6 & H7).
    cbn [fst snd] in *.
    destruct (resolve_step_cases X A M thr r u t)
      as (r1 & G1 & G2 & G3 & G4 & [ext1 G5] & [[-> _]| ->]);
      cbn [fst snd Repo.crypto_key Repo.aliases Repo.series Repo.events
           Repo.merchants Repo.transactions Repo.set_transactions];
      rewrite length_app; cbn [length].
    + repeat (split; [congruence|]).
      split; [exists (ext ++ ext1); rewrite G5, H5; now rewrite app_assoc|].
      split; [exact H6 | lia].
    + repeat (split; [congruence|]).
      split; [exists (ext ++ ext1); rewrite G5, H5; now rewrite app_assoc|].
      split; [|lia].
      rewrite map_map. rewrite <- H6. apply map_ext.
      intros x. apply unassigned_assign.
  - cbn [fst snd length]. repeat split; try reflexivity.
    exists []. now rewrite app_nil_r.
Qed.

(** X18.  [resolve_merchants] changes nothing but assignments: the key,
    the aliases, the series and the events stay, merchants are added at
    the end of their table and none is changed or removed, every
    transaction keeps all its columns but [merchant_id], and the number of
    assignments written is at most the number of transactions. *)
Theorem resolve_merchants_changes_assignments_only :
  forall (X : Repo.Externals) (repo : Repo.t) (thr : Q),
    Repo.crypto_key (fst (Engine.resolve_merchants X repo thr))
    = Repo.crypto_key repo
    /\ Repo.aliases (fst (Engine.resolve_merchants X repo thr))
       = Repo.aliases repo
    /\ Repo.series (fst (Engine.resolve_merchants X repo thr))
       = Repo.series repo
    /\ Repo.events (fst (Engine.resolve_merchants X repo thr))
       = Repo.events repo
    /\ (exists ext,
           Repo.merchants (fst (Engine.resolve_merchants X repo thr))
           = Repo.merchants repo ++ ext)
    /\ map unassigned
           (Repo.transactions (fst (Engine.resolve_merchants X repo thr)))
       = map unassigned (Repo.transactions repo)
    /\ snd (Engine.resolve_merchants X repo thr)
       <= length (Repo.transactions repo).
Proof.
  intros X repo thr.
  destruct (resolve_merchants_frame X repo thr)
    as (H1 & H2 & H3 & H4 & H5 & H6 & H7).
  repeat (split; [assumption|]).
  eapply Nat.le_trans; [exact H7|].
  unfold Repo.list_transactions.
  rewrite length_firstn, PyFacts.sorted_length. apply Nat.le_min_r.
Qed.

Section Assignment.
Variable X : Repo.Externals.
Variable repo : Repo.t.
Hypothesis ids_unique : NoDup (map Transaction.id (Repo.transactions repo)).

(** What the loop keeps true, with the transactions [done]: a row
    differs from the stored one in its merchant only; a row that was
    visited has a merchant unless its cleaned description is empty; a row
    not yet visited is as it was stored. *)
Let visited (done : list Transaction.t) (r : Repo.t) : Prop :=
  Repo.crypto_key r = Repo.crypto_key repo
  /\ (forall x, In x (Repo.transactions r) ->
                exists x0, In x0 (Repo.transactions repo)
                           /\ x = Transaction.with_merchant_id
                                    x0 (Transaction.merchant_id x))
  /\ (forall x, In x (Repo.transactions r) ->
                In (Transaction.id x) (map Transaction.id done) ->
                cleaned_of X repo x <> [] ->
                Transaction.merchant_id x <> None)
  /\ (forall x, In x (Repo.transactions r) ->
                ~ In (Transaction.id x) (map Transaction.id done) ->
                In x (Repo.transactions repo)).

Lemma visited_start : visited [] repo.
Proof.
  unfold visited. split; [reflexivity|]. split; [|split].
  - intros x Hx. exists x. split; [exact Hx|].
    symmetry. apply with_merchant_id_same.
  - intros x _ [].
  - intros x Hx _. exact Hx.
Qed.

Lemma visited_step (aliases : list MerchantAlias.t)
      (merchants : list Merchant.t) (thr : Q)
      (done : list Transaction.t) (t : Transaction.t) (r : Repo.t)
      (u : nat) :
  In t (Repo.transactions repo) ->
  visited done r ->
  visited (done ++ [t])
          (fst (Engine.resolve_step X aliases merchants thr (r, u) t)).
Proof.
  intros Ht (Hkey & Hrow & Hdone & Hrest).
  assert (Hclean : cleaned_of X r t = cleaned_of X repo t).
  { unfold cleaned_of, Repo.decrypt_field. now rewrite Hkey. }
  assert (Hc : cleaned_of X repo t <> [] ->
               pick X aliases merchants thr r t <> None).
  { intros Hne. unfold pick. rewrite Hclean. now apply choose_some. }
  set (c := pick X aliases merchants thr r t) in *.
  assert (Hsplit : forall i : Z,
             In i (map Transaction.id (done ++ [t])) ->
             In i (map Transaction.id done) \/
             (~ In i (map Transaction.id done) /\ i = Transaction.id t)).
  { intros i Hi. rewrite map_app in Hi.
    destruct (in_dec Z.eq_dec i (map Transaction.id done)) as [H|H];
      [now left|].
    right. split; [exact H|].
    apply in_app_or in Hi. destruct Hi as [Hi|[Hi|[]]];
      [contradiction | now symmetry]. }
  assert (Hnot : forall i : Z,
             ~ In i (map Transaction.id (done ++ [t])) ->
             ~ In i (map Transaction.id done) /\ i <> Transaction.id t).
  { intros i Hi. rewrite map_app in Hi. split.
    - intros H. apply Hi. apply in_or_app. now left.
    - intros ->. apply Hi. apply in_or_app. right. now left. }
  destruct (resolve_step_cases X aliases merchants thr r u t)
    as (r1 & G1 & _ & _ & _ & _ & [[-> Hsame]| ->]);
    cbn [fst]; unfold visited;
    cbn [Repo.crypto_key Repo.transactions Repo.set_transactions].
  - split; [congruence|]. split; [exact Hrow|]. split.
    + intros x Hx Hin Hne.
      destruct (Hsplit _ Hin) as [H|[Hnd Hid]]; [now apply Hdone|].
      assert (Hxt : x = t).
      { apply (unique_row (Repo.transactions repo)); try assumption.
        now apply Hrest. }
      subst x. rewrite Hsame. now apply Hc.
    + intros x Hx Hin. apply Hrest; [exact Hx|]. now apply Hnot.
  - split; [congruence|]. split; [|split].
    + intros x' Hx'. apply in_map_iff in Hx'. destruct Hx' as [x [<- Hx]].
      destruct (Hrow x Hx) as [x0 [Hx0 Heq]]. exists x0.
      split; [exact Hx0|]. unfold assign.
      destruct (Transaction.id x =? Transaction.id t)%Z; [|exact Heq].
      rewrite Heq. reflexivity.
    + intros x' Hx' Hin Hne. apply in_map_iff in Hx'.
      destruct Hx' as [x [<- Hx]]. rewrite assign_id in Hin.
      unfold assign in *.
      destruct (Z.eqb_spec (Transaction.id x) (Transaction.id t)) as [E|E].
      * cbn [Transaction.merchant_id Transaction.with_merchant_id].
        apply Hc.
        destruct (Hrow x Hx) as [x0 [Hx0 Heq]].
        assert (Hx0t : x0 = t).
        { apply (unique_row (Repo.transactions repo)); try assumption.
          rewrite <- E, Heq. reflexivity. }
        subst x0. rewrite Heq in Hne. exact Hne.
      * destruct (Hsplit _ Hin) as [H|[_ Hid]]; [|contradiction].
        now apply Hdone.
    + intros x' Hx' Hin. apply in_map_iff in Hx'.
      destruct Hx' as [x [<- Hx]]. rewrite assign_id in Hin.
      destruct (Hnot _ Hin) as [Hnd Hid]. unfold assign.
      destruct (Z.eqb_spec (Transaction.id x) (Transaction.id t)) as [E|E];
        [contradiction|].
      now apply Hrest.
Qed.

Lemma visited_all (thr : Q) :
  visited (Repo.list_transactions repo 200000)
          (fst (Engine.resolve_merchants X repo thr)).
Proof.
  rewrite resolve_merchants_loop.
  pose proof (fun t => @list_transactions_In repo 200000 t) as Hin0.
  set (A := Repo.list_aliases repo). set (M := Repo.list_merchants repo).
  set (l0 := Repo.list_transactions repo 200000) in *.
  clearbody A M l0.
  apply (@fold_left_prefix_in _ _ (Engine.resolve_step X A M thr)
           (fun done st => visited done (fst st))).
  - intros done t [r u] Ht Hv. cbn [fst] in Hv.
    apply visited_step; [now apply Hin0 | exact Hv].
  - apply visited_start.
Qed.
End Assignment.

(** X19.  After [resolve_merchants] every transaction whose cleaned
    description is not empty is assigned to a merchant: the chain of
    alias, hint, fuzzy match and creation always ends in a choice.  The
    ids of the transactions are distinct and there are at most 200000 of
    them, the number that the resolver reads. *)
Theorem resolve_merchants_assigns_every_named_transaction :
  forall (X : Repo.Externals) (repo : Repo.t) (thr : Q) (t : Transaction.t),
    NoDup (map Transaction.id (Repo.transactions repo)) ->
    length (Repo.transactions repo) <= 200000 ->
    In t (Repo.transactions (fst (Engine.resolve_merchants X repo thr))) ->
    cleaned_of X repo t <> [] ->
    Transaction.merchant_id t <> None.
Proof.
  intros X repo thr t Hnd Hlen Ht Hne.
  destruct (@visited_all X repo Hnd thr) as (_ & Hrow & Hdone & _).
  apply Hdone; [exact Ht | | exact Hne].
  destruct (Hrow t Ht) as [x0 [Hx0 Heq]].
  rewrite Heq. cbn [Transaction.id Transaction.with_merchant_id].
  apply in_map. unfold Repo.list_transactions.
  rewrite firstn_all2 by (rewrite PyFacts.sorted_length; exact Hlen).
  apply PyFacts.sorted_In. exact Hx0.
Qed.

Lemma corner_shop_charge_is_assigned :
  Transaction.merchant_id
    (Samples.txn 1 (100 * DAY)%Z (-1 # 1) "Corner Shop" (Some 1%Z))
  <> None.
Proof.
  apply (@resolve_merchants_assigns_every_named_transaction
           Samples.externals Samples.unresolved 92%Q).
  - repeat (constructor; [simpl; intuition discriminate|]). constructor.
  - apply Nat.leb_le. vm_compute. reflexivity.
  - vm_compute. left. reflexivity.
  - vm_compute. discriminate.
Defined.

End ResolverMore.

(* ================================================================== *)
(** * More on core/engine.py: what the events refer to *)
(* ================================================================== *)

Module IntegrityMore.
Import Str Stats Recurring Anomalies AnomalySpec AnomaliesFacts.
Import EngineSpec RepoFacts EngineFacts ResolverFacts RecomputeSpec.
Import RecurringMore ResolverMore.
Local Open Scope nat_scope.

(** An invariant that speaks of the elements done so far, for a step
    that needs to know where in the list its element stands. *)
Lemma fold_left_split_inv (A S : Type) (f : S -> A -> S)
      (I : list A -> S -> Prop) (l : list A) :
  (forall done x rest s,
      l = done ++ x :: rest -> I done s -> I (done ++ [x]) (f s x)) ->
  forall s, I [] s -> I l (fold_left f l s).
Proof.
  intros Hf.
  assert (H : forall l' done s,
             l = done ++ l' -> I done s ->
             I (done ++ l') (fold_left f l' s)).
  { induction l' as [|x l' IH]; intros done s Hl Hs; cbn [fold_left].
    - now rewrite app_nil_r.
    - replace (done ++ x :: l') with ((done ++ [x]) ++ l')
        by (rewrite <- app_assoc; reflexivity).
      apply IH; [rewrite <- app_assoc; exact Hl|].
      apply (Hf done x l'); assumption. }
  intros s Hs. apply (H l [] s); [reflexivity | exact Hs].
Qed.

(** The row that [upsert_series] adds, with the id that it returns. *)
Lemma upsert_series_new (r : Repo.t) (mid : Z) (res : SeriesResult)
      (last_txn : Z) (status : str) :
  exists rs : RecurringSeries.t,
    In rs (Repo.series (fst (Repo.upsert_series r mid res last_txn status)))
    /\ RecurringSeries.id rs
       = snd (Repo.upsert_series r mid res last_txn status)
    /\ RecurringSeries.merchant_id rs = mid.
Proof.
  unfold Repo.upsert_series. cbn [fst snd Repo.series Repo.set_series].
  eexists. split; [apply in_or_app; right; left; reflexivity|].
  split; reflexivity.
Qed.

Lemma upsert_series_kept (r : Repo.t) (mid : Z) (res : SeriesResult)
      (last_txn : Z) (status : str) (rs : RecurringSeries.t) :
  In rs (Repo.series (fst (Repo.upsert_series r mid res last_txn status))) ->
  In rs (Repo.series r) \/ RecurringSeries.merchant_id rs = mid.
Proof.
  unfold Repo.upsert_series. cbn [fst Repo.series Repo.set_series].
  intros H. apply in_app_or in H. destruct H as [H|[<-|[]]].
  - left. apply filter_In in H. tauto.
  - right. reflexivity.
Qed.

Lemma for_merchant_stored (r : Repo.t) (mid : Z) (limit : nat)
      (t : Transaction.t) :
  In t (rev (Repo.list_transactions_for_merchant r mid limit)) ->
  In t (Repo.transactions r).
Proof.
  intros H. apply in_rev in H. unfold Repo.list_transactions_for_merchant in H.
  apply ListFacts.In_firstn in H.
  apply PyFacts.sorted_In, filter_In in H. tauto.
Qed.

Lemma linked_step (r0 : Repo.t) (ms done rest : list Merchant.t)
      (m : Merchant.t) (st : Repo.t * list Engine.series_row) :
  NoDup (map Merchant.id ms) ->
  (forall m', In m' ms -> In m' (Repo.merchants r0)) ->
  ms = done ++ m :: rest ->
  linked r0 done st ->
  linked r0 (done ++ [m]) (Engine.series_step st m).
Proof.
  intros Hnd Hms Hsplit. destruct st as [r rows].
  intros (HT & HM & HE & Hser & Hrows). cbn [fst snd] in *.
  assert (Hm : In m (Repo.merchants r0)).
  { apply Hms. rewrite Hsplit. apply in_or_app. right. now left. }
  assert (Hfresh : ~ In (Merchant.id m) (map Merchant.id done)).
  { rewrite Hsplit, map_app in Hnd. cbn [map] in Hnd.
    apply NoDup_remove_2 in Hnd. intros H. apply Hnd.
    apply in_or_app. now left. }
  assert (Hweak : forall rs, In rs (Repo.series r) ->
                             exists m', In m' (done ++ [m])
                                        /\ Merchant.id m'
                                           = RecurringSeries.merchant_id rs).
  { intros rs Hrs. destruct (Hser rs Hrs) as [m' [Hm' Hid]].
    exists m'. split; [apply in_or_app; now left | exact Hid]. }
  unfold Engine.series_step.
  set (tx := rev (Repo.list_transactions_for_merchant r (Merchant.id m) 10000)).
  assert (Htx : forall t, In t tx -> In t (Repo.transactions r)).
  { intros t. apply for_merchant_stored. }
  destruct (Nat.ltb_spec (length tx) 3) as [_|H3];
    [unfold linked; cbn [fst snd]; repeat split; assumption|].
  destruct (detect_recurring _ _ 3) as [res|];
    [|unfold linked; cbn [fst snd]; repeat split; assumption].
  pose proof (upsert_series_frame r (Merchant.id m) res
                (last (map Transaction.id tx) 0%Z) (chars "active"))
    as (F1 & F2 & F3 & _ & F5).
  pose proof (upsert_series_new r (Merchant.id m) res
                (last (map Transaction.id tx) 0%Z) (chars "active"))
    as [rs0 (N1 & N2 & N3)].
  pose proof (upsert_series_kept r (Merchant.id m) res
                (last (map Transaction.id tx) 0%Z) (chars "active"))
    as Hkept.
  destruct (Repo.upsert_series r (Merchant.id m) res
              (last (map Transaction.id tx) 0%Z) (chars "active"))
    as [r' sid].
  cbn [fst snd] in *. unfold linked. cbn [fst snd].
  split; [congruence|]. split; [congruence|]. split; [congruence|].
  split.
  - intros rs Hrs. destruct (Hkept rs Hrs) as [Hold|Hnew];
      [now apply Hweak|].
    exists m. split; [apply in_or_app; right; now left | now symmetry].
  - intros row Hrow. apply in_app_or in Hrow.
    destruct Hrow as [Hrow|[<-|[]]].
    + specialize (Hrows row Hrow).
      destruct row as [[[m' sid'] res'] tx'].
      destruct Hrows as (R1 & [rs (R2 & R3 & R4)] & R5 & R6).
      unfold row_ok. rewrite F1, F2.
      split; [exact R1|]. split; [|split; [exact R5 | exact R6]].
      exists rs. split; [|split; assumption].
      apply F5; [exact R2|].
      destruct (Hser rs R2) as [m'' [Hm'' Hid]].
      intros Heq. apply Hfresh. rewrite <- Heq, <- Hid. now apply in_map.
    + unfold row_ok. rewrite F1, F2, HM.
      split; [exact Hm|].
      split; [exists rs0; repeat split; assumption|].
      split; [|exact Htx].
      intros Hnil. rewrite Hnil in H3. cbn [length] in H3. lia.
Qed.

Lemma linked_loop (r0 : Repo.t) (ms : list Merchant.t) :
  NoDup (map Merchant.id ms) ->
  (forall m, In m ms -> In m (Repo.merchants r0)) ->
  Repo.series r0 = [] ->
  linked r0 ms (fold_left Engine.series_step ms (r0, [])).
Proof.
  intros Hnd Hms Hnil.
  apply (@fold_left_split_inv _ _ Engine.series_step (linked r0)).
  - intros done m rest st Hsplit. now apply linked_step with ms rest.
  - unfold linked. cbn [fst snd]. rewrite Hnil.
    repeat split; intros x [].
Qed.

Lemma last_id_stored (tx T : list Transaction.t) :
  tx <> [] -> (forall t, In t tx -> In t T) ->
  In (Engine.last_id tx) (map Transaction.id T).
Proof.
  intros Hne Hsub. unfold Engine.last_id.
  assert (H : In (last (map Transaction.id tx) 0%Z) (map Transaction.id tx)).
  { apply EventsMore.last_In. destruct tx; [congruence | discriminate]. }
  apply in_map_iff in H. destruct H as [t [<- Ht]].
  apply in_map. now apply Hsub.
Qed.

Section Refs.
Variable r2 : Repo.t.

(** An event of a series row refers to stored rows. *)
Lemma series_event_refs (m : Merchant.t) (sid : Z) (res : SeriesResult)
      (tx : list Transaction.t) (tid : Z) (id : Z) (ty : Event.type_)
      (sev : Event.severity_) (evd : Event.evidence_) :
  row_ok r2 (m, sid, res, tx) ->
  In tid (map Transaction.id (Repo.transactions r2)) ->
  refers_to_rows r2 (Event.mk id ty sev (Some (Merchant.id m)) (Some sid)
                              (Some tid) evd false).
Proof.
  intros (R1 & [rs (R2 & R3 & R4)] & _ & _) Htid.
  unfold refers_to_rows.
  cbn [Event.txn_id Event.merchant_id Event.series_id].
  split; [|split].
  - intros i H. apply some_eq_z in H. now subst i.
  - intros k H. apply some_eq_z in H. subst k. now apply in_map.
  - intros s H. apply some_eq_z in H. subst s.
    exists rs. split; [exact R2|]. split; [exact R3 | now rewrite R4].
Qed.

Lemma new_subscription_refs (now : datetime) (r : Repo.t)
      (row : Engine.series_row) :
  row_ok r2 row ->
  appends (refers_to_rows r2) r (Engine.new_subscription now r row).
Proof.
  destruct row as [[[m sid] res] tx]. intros Hrow.
  unfold Engine.new_subscription.
  destruct (_ && _); [|apply appends_refl].
  apply appends_add_event. intros id.
  apply series_event_refs with res tx; [exact Hrow|].
  destruct Hrow as (_ & _ & R5 & R6). now apply last_id_stored.
Qed.

Lemma price_change_refs (r : Repo.t) (row : Engine.series_row) :
  row_ok r2 row ->
  appends (refers_to_rows r2) r (Engine.price_change r row).
Proof.
  destruct row as [[[m sid] res] tx]. intros Hrow.
  unfold Engine.price_change.
  destruct (5 <=? length tx); [|apply appends_refl].
  destruct (Qltb _ _); [|apply appends_refl].
  apply appends_add_event. intros id.
  apply series_event_refs with res tx; [exact Hrow|].
  destruct Hrow as (_ & _ & R5 & R6). now apply last_id_stored.
Qed.

Lemma duplicates_refs (r : Repo.t) (row : Engine.series_row) :
  row_ok r2 row ->
  appends (refers_to_rows r2) r (Engine.duplicates r row).
Proof.
  destruct row as [[[m sid] res] tx]. intros Hrow.
  unfold Engine.duplicates. apply appends_fold. intros r' i _.
  unfold Engine.duplicate_at.
  destruct (nth_error tx i); [|apply appends_refl].
  destruct (nth_error tx (S i)) as [b|] eqn:Eb; [|apply appends_refl].
  destruct (Engine.is_duplicate _ _); [|apply appends_refl].
  apply appends_add_event. intros id.
  apply series_event_refs with res tx; [exact Hrow|].
  destruct Hrow as (_ & _ & _ & R6).
  apply in_map, R6. eapply nth_error_In. exact Eb.
Qed.

Lemma events_for_series_refs (now : datetime) (r : Repo.t)
      (rows : list Engine.series_row) :
  (forall row, In row rows -> row_ok r2 row) ->
  appends (refers_to_rows r2) r (Engine._events_for_series now r rows).
Proof.
  intros Hrows. unfold Engine._events_for_series.
  apply appends_fold. intros r' row Hin.
  pose proof (Hrows row Hin) as Hrow.
  eapply appends_trans; [|now apply duplicates_refs].
  eapply appends_trans; [|now apply price_change_refs].
  now apply new_subscription_refs.
Qed.

(** An anomaly of a merchant names one of the rows given. *)
Lemma merchant_anomalies_txn (rows : list Row) (z_thresh : Q)
      (a : MerchantAnomaly) :
  In a (merchant_anomalies rows z_thresh) ->
  exists r, In r rows /\ ma_txn_id a = txn_id r.
Proof.
  unfold merchant_anomalies. intros H. apply in_flat_map in H.
  destruct H as [[k grp] [Hg Ha]].
  apply group_by_merchant_spec in Hg. destruct Hg as [Hgrp _].
  unfold group_anomalies in Ha.
  destruct (length grp <? 8); [contradiction|].
  apply in_flat_map in Ha. destruct Ha as [r [Hr Ha]].
  apply flag_row_In in Ha. destruct Ha as [_ ->].
  exists r. split; [|reflexivity].
  apply ListFacts.In_firstn in Hr. rewrite Hgrp in Hr.
  apply rows_of_In in Hr. tauto.
Qed.

Lemma anomaly_rows_stored (r : Repo.t) (row : Row) :
  In row (Engine.anomaly_rows r) ->
  In (txn_id row) (map Transaction.id (Repo.transactions r)).
Proof.
  unfold Engine.anomaly_rows.
  pose proof (fun t => @list_transactions_In r 200000 t) as Hl.
  set (l := Repo.list_transactions r 200000) in *. clearbody l.
  set (ms := Repo.list_merchants r). clearbody ms.
  intros H. apply in_map_iff in H.
  destruct H as [t [<- Ht]]. cbn [txn_id].
  apply in_map, Hl. exact Ht.
Qed.

Lemma events_for_anomalies_refs (r : Repo.t) :
  Repo.transactions r = Repo.transactions r2 ->
  appends (refers_to_rows r2) r (Engine._events_for_anomalies r).
Proof.
  intros HT. unfold Engine._events_for_anomalies.
  assert (Hnone : forall id ty sev evd,
             refers_to_rows r2 (Event.mk id ty sev None None None evd false)).
  { intros. unfold refers_to_rows.
    cbn [Event.txn_id Event.merchant_id Event.series_id].
    repeat split; intros ? H; discriminate H. }
  eapply appends_trans; [eapply appends_trans|].
  3: { apply appends_fold. intros. apply appends_add_event. intros.
       apply Hnone. }
  2: { apply appends_fold. intros. apply appends_add_event. intros.
       apply Hnone. }
  apply appends_fold. intros r' a Ha. apply appends_add_event. intros id.
  apply ListFacts.In_firstn in Ha. apply merchant_anomalies_txn in Ha.
  destruct Ha as [row [Hrow Hid]]. apply anomaly_rows_stored in Hrow.
  unfold refers_to_rows.
  cbn [Event.txn_id Event.merchant_id Event.series_id].
  split; [|split; intros ? H; discriminate H].
  intros i H. apply some_eq_z in H. subst i.
  rewrite Hid, <- HT. exact Hrow.
Qed.
End Refs.

(** X20.  After a recompute every event refers to rows that are stored:
    its transaction is a transaction of the ledger, its merchant a
    merchant of the merchant table, and its series the stored series of
    that merchant.  The ids of the merchants are distinct, [id] being
    their primary key. *)
Theorem recompute_events_refer_to_stored_rows :
  forall (X : Repo.Externals) (now : datetime) (repo : Repo.t) (e : Event.t),
    NoDup (map Merchant.id (Repo.merchants repo)) ->
    In e (Repo.events (Engine.recompute X now repo)) ->
    refers_to_rows (Engine.recompute X now repo) e.
Proof.
  intros X now repo e Hnd.
  pose proof (resolve_merchants_ids X repo Engine.default_fuzzy_threshold Hnd)
    as Hids.
  unfold Engine.recompute, Engine.detect_series.
  change (Repo.clear_recurring_and_events
            (fst (Engine.resolve_merchants X repo
                    Engine.default_fuzzy_threshold)))
    with (ledger (fst (Engine.resolve_merchants X repo
                         Engine.default_fuzzy_threshold))).
  set (r0 := ledger (fst (Engine.resolve_merchants X repo
                            Engine.default_fuzzy_threshold))).
  assert (Hids0 : NoDup (map Merchant.id (Repo.merchants r0))) by exact Hids.
  assert (Hnil : Repo.series r0 = []) by reflexivity.
  assert (Hev0 : Repo.events r0 = []) by reflexivity.
  clearbody r0. clear Hids.
  assert (Hsorted : NoDup (map Merchant.id (Repo.list_merchants r0))).
  { eapply Permutation_NoDup; [|exact Hids0].
    apply Permutation_map, Permutation_sym, PyFacts.sorted_perm. }
  pose proof (@linked_loop r0 (Repo.list_merchants r0) Hsorted) as Hloop.
  specialize (Hloop (fun m Hm => proj1 (PyFacts.sorted_In Repo.by_name m _) Hm)
                    Hnil).
  destruct (fold_left Engine.series_step (Repo.list_merchants r0) (r0, []))
    as [r2 rows].
  destruct Hloop as (_ & _ & HE & _ & Hrows). cbn [fst snd] in HE, Hrows.
  pose proof (@events_for_series_refs r2 now r2 rows Hrows) as H1.
  pose proof (appends_frame H1) as (FT & _ & _ & _).
  pose proof (@events_for_anomalies_refs
                r2 (Engine._events_for_series now r2 rows) FT) as H2.
  pose proof (appends_trans H1 H2) as H.
  apply appends_frame in H.
  destruct H as (GT & GM & GS & added & Hadd & Hok).
  intros Hin. rewrite Hadd, HE, Hev0 in Hin. cbn [app] in Hin.
  rewrite Forall_forall in Hok. specialize (Hok e Hin).
  unfold refers_to_rows in *. rewrite GT, GM, GS. exact Hok.
Qed.

Lemma detected_event_refers_to_stored_rows :
  refers_to_rows
    (Engine.recompute Samples.externals Samples.now Samples.erratic)
    Samples.detected_event.
Proof.
  apply (@recompute_events_refer_to_stored_rows
           Samples.externals Samples.now Samples.erratic
           Samples.detected_event).
  - repeat constructor. simpl. tauto.
  - vm_compute. left. reflexivity.
Defined.

End IntegrityMore.

(* ================================================================== *)
(** * More on core/engine.py: which series are announced *)
(* ================================================================== *)

Module AnnounceMore.
Import Str Stats Recurring.
Import EngineSpec RepoFacts EngineFacts RecomputeSpec.
Import RecomputeMore IntegrityMore.
Local Open Scope nat_scope.

Lemma raised_keeps (n : nat) (r r' : Repo.t) :
  raised n r r' ->
  forall e, In e (Repo.events r) -> In e (Repo.events r').
Proof.
  induction 1 as [r|n r r' ty sev evd mid sid tid _ IH]; intros e He;
    [exact He|].
  unfold Repo.add_event. cbn [Repo.events Repo.set_events].
  apply in_or_app. left. now apply IH.
Qed.

Lemma raised_le_keeps (k : nat) (r r' : Repo.t) (e : Event.t) :
  raised_le k r r' -> In e (Repo.events r) -> In e (Repo.events r').
Proof. intros [n [_ H]]. now apply (raised_keeps H). Qed.

Lemma for_merchant_ledger (r r0 : Repo.t) (mid : Z) (limit : nat) :
  Repo.transactions r = Repo.transactions r0 ->
  Repo.list_transactions_for_merchant r mid limit
  = Repo.list_transactions_for_merchant r0 mid limit.
Proof. unfold Repo.list_transactions_for_merchant. now intros ->. Qed.

(** A row of the series table after [upsert_series] was there before or
    is the row made. *)
Lemma upsert_series_cases (r : Repo.t) (mid : Z) (res : SeriesResult)
      (last_txn : Z) (status : str) (rs : RecurringSeries.t) :
  In rs (Repo.series (fst (Repo.upsert_series r mid res last_txn status))) ->
  In rs (Repo.series r)
  \/ (RecurringSeries.id rs
      = snd (Repo.upsert_series r mid res last_txn status)
      /\ RecurringSeries.merchant_id rs = mid
      /\ RecurringSeries.last_txn_id rs = last_txn).
Proof.
  unfold Repo.upsert_series. cbn [fst snd Repo.series Repo.set_series].
  intros H. apply in_app_or in H. destruct H as [H|[<-|[]]].
  - left. apply filter_In in H. tauto.
  - right. repeat split.
Qed.

(** The last element of a list that is not empty, under any map. *)
Lemma last_map_In (tx : list Transaction.t) :
  tx <> [] ->
  exists t, In t tx
            /\ last (map Transaction.posted_at tx) 0%Z
               = Transaction.posted_at t
            /\ Engine.last_id tx = Transaction.id t.
Proof.
  intros Hne. destruct (exists_last Hne) as [l [t ->]]. exists t.
  split; [apply in_or_app; right; now left|].
  unfold Engine.last_id. rewrite !map_app. cbn [map].
  rewrite !last_last. split; reflexivity.
Qed.

(** The newest transaction of a history. *)
Lemma history_last (r : Repo.t) (mid : Z) :
  3 <= length (history r mid) ->
  exists t rest,
    Repo.list_transactions_for_merchant r mid 10000 = t :: rest
    /\ last (map Transaction.posted_at (history r mid)) 0%Z
       = Transaction.posted_at t
    /\ Engine.last_id (history r mid) = Transaction.id t.
Proof.
  unfold history.
  destruct (Repo.list_transactions_for_merchant r mid 10000) as [|t rest].
  - cbn [rev length]. lia.
  - intros _. exists t, rest. split; [reflexivity|].
    unfold Engine.last_id. cbn [rev]. rewrite !map_app. cbn [map].
    rewrite !last_last. split; reflexivity.
Qed.

Lemma covered_step (r0 : Repo.t) (st : Repo.t * list Engine.series_row)
      (m : Merchant.t) :
  covered r0 st -> covered r0 (Engine.series_step st m).
Proof.
  destruct st as [r rows]. intros (HT & HE & Hrows & Hser).
  cbn [fst snd] in *. unfold Engine.series_step.
  rewrite (for_merchant_ledger r r0 (Merchant.id m) 10000 HT).
  change (rev (Repo.list_transactions_for_merchant r0 (Merchant.id m) 10000))
    with (history r0 (Merchant.id m)).
  set (tx := history r0 (Merchant.id m)) in *.
  destruct (Nat.ltb_spec (length tx) 3) as [_|H3];
    [unfold covered; cbn [fst snd]; repeat split; assumption|].
  destruct (detect_recurring _ _ 3) as [res|];
    [|unfold covered; cbn [fst snd]; repeat split; assumption].
  pose proof (upsert_series_frame r (Merchant.id m) res
                (last (map Transaction.id tx) 0%Z) (chars "active"))
    as (F1 & F2 & F3 & _).
  pose proof (upsert_series_cases r (Merchant.id m) res
                (last (map Transaction.id tx) 0%Z) (chars "active"))
    as Hcases.
  destruct (Repo.upsert_series r (Merchant.id m) res
              (last (map Transaction.id tx) 0%Z) (chars "active"))
    as [r' sid].
  cbn [fst snd] in *. unfold covered. cbn [fst snd].
  split; [congruence|]. split; [congruence|]. split.
  - intros row Hrow. apply in_app_or in Hrow.
    destruct Hrow as [Hrow|[<-|[]]]; [now apply Hrows|].
    exists m, sid, res. split; [reflexivity | exact H3].
  - intros rs Hrs. destruct (Hcases rs Hrs) as [Hold|(C1 & C2 & C3)].
    + destruct (Hser rs Hold) as (m' & res' & Hin & Hid & Hlast).
      exists m', res'. split; [apply in_or_app; now left|].
      split; assumption.
    + exists m, res. rewrite C1.
      split; [apply in_or_app; right; now left|].
      split; [now symmetry | exact C3].
Qed.

(** The event of a row whose last transaction is recent is there after
    [_events_for_series]. *)
Lemma events_for_series_announce (now : datetime) (m : Merchant.t)
      (sid : Z) (res : SeriesResult) (tx : list Transaction.t)
      (rows : list Engine.series_row) :
  In (m, sid, res, tx) rows ->
  3 <= length tx ->
  (now - last (map Transaction.posted_at tx) 0 <= 90 * DAY)%Z ->
  forall r,
  exists e,
    In e (Repo.events (Engine._events_for_series now r rows))
    /\ Event.type e = Event.new_subscription_detected
    /\ Event.merchant_id e = Some (Merchant.id m)
    /\ Event.series_id e = Some sid
    /\ Event.txn_id e = Some (Engine.last_id tx).
Proof.
  intros Hin H3 Hrecent.
  induction rows as [|row rows IH]; intros r; [destruct Hin|].
  change (Engine._events_for_series now r (row :: rows))
    with (Engine._events_for_series now
            (Engine.duplicates
               (Engine.price_change (Engine.new_subscription now r row) row)
               row) rows).
  destruct Hin as [->|Hin]; [|now apply IH].
  assert (Hnew : exists e,
             In e (Repo.events
                     (Engine.new_subscription now r (m, sid, res, tx)))
             /\ Event.type e = Event.new_subscription_detected
             /\ Event.merchant_id e = Some (Merchant.id m)
             /\ Event.series_id e = Some sid
             /\ Event.txn_id e = Some (Engine.last_id tx)).
  { unfold Engine.new_subscription.
    replace (3 <=? length tx) with true
      by (symmetry; now apply Nat.leb_le).
    replace (now - last (map Transaction.posted_at tx) 0 <=? 90 * DAY)%Z
      with true by (symmetry; now apply Z.leb_le).
    cbn [andb]. unfold Repo.add_event. cbn [Repo.events Repo.set_events].
    eexists. split; [apply in_or_app; right; left; reflexivity|].
    repeat split. }
  destruct Hnew as (e & He & Hfields). exists e. split; [|exact Hfields].
  apply (@raised_le_keeps (length rows * 11)
           (Engine.duplicates
              (Engine.price_change
                 (Engine.new_subscription now r (m, sid, res, tx))
                 (m, sid, res, tx))
              (m, sid, res, tx))); [apply events_for_series_raised|].
  apply (@raised_le_keeps 9
           (Engine.price_change
              (Engine.new_subscription now r (m, sid, res, tx))
              (m, sid, res, tx))); [apply duplicates_raised|].
  apply (@raised_le_keeps 1
           (Engine.new_subscription now r (m, sid, res, tx)));
    [apply price_change_raised | exact He].
Qed.

Section Announced.
Variable now : datetime.
Variable T : list Transaction.t.

Lemma other_types_announce (id : Z) (ty : Event.type_)
      (sev : Event.severity_) (mid sid tid : option Z)
      (evd : Event.evidence_) :
  ty <> Event.new_subscription_detected ->
  announces now T (Event.mk id ty sev mid sid tid evd false).
Proof. intros Hty H. cbn [Event.type] in H. contradiction. Qed.

Lemma events_for_series_announced (r : Repo.t)
      (rows : list Engine.series_row) :
  (forall m sid res tx,
      In (m, sid, res, tx) rows ->
      tx <> [] /\ forall t, In t tx -> In t T) ->
  appends (announces now T) r (Engine._events_for_series now r rows).
Proof.
  intros Hrows. unfold Engine._events_for_series.
  apply appends_fold. intros r' [[[m sid] res] tx] Hin.
  destruct (Hrows m sid res tx Hin) as [Hne Hsub].
  eapply appends_trans.
  2: { unfold Engine.duplicates. apply appends_fold. intros r'' i _.
       unfold Engine.duplicate_at.
       destruct (nth_error tx i); [|apply appends_refl].
       destruct (nth_error tx (S i)); [|apply appends_refl].
       destruct (Engine.is_duplicate _ _); [|apply appends_refl].
       apply appends_add_event. intros id.
       apply other_types_announce. discriminate. }
  eapply appends_trans.
  2: { unfold Engine.price_change.
       destruct (5 <=? length tx); [|apply appends_refl].
       destruct (Qltb _ _); [|apply appends_refl].
       apply appends_add_event. intros id.
       apply other_types_announce. discriminate. }
  unfold Engine.new_subscription.
  destruct (_ && _) eqn:C; [|apply appends_refl].
  apply appends_add_event. intros id _.
  cbn [Event.txn_id].
  apply andb_true_iff in C. destruct C as [_ C]. apply Z.leb_le in C.
  destruct (last_map_In Hne) as (t & Ht & Hp & Hi).
  exists t. rewrite <- Hp, Hi. repeat split; [now apply Hsub | exact C].
Qed.

Lemma events_for_anomalies_announced (r : Repo.t) :
  appends (announces now T) r (Engine._events_for_anomalies r).
Proof.
  unfold Engine._events_for_anomalies.
  eapply appends_trans; [eapply appends_trans|];
    apply appends_fold; intros; apply appends_add_event; intros;
    apply other_types_announce; discriminate.
Qed.
End Announced.

(** X21.  After a recompute every stored series belongs to a merchant
    with transactions, and its [last_txn_id] is the newest of them.  When
    that transaction is no older than 90 days, there is an event "new
    subscription detected" for the series, its merchant and that
    transaction, at every recompute and not at the first only; and each
    event of this type names a transaction that is no older than 90
    days. *)
Theorem recompute_announces_series_charged_in_the_last_90_days :
  forall (X : Repo.Externals) (now : datetime) (repo : Repo.t),
    let r' := Engine.recompute X now repo in
    (forall rs,
        In rs (Repo.series r') ->
        exists t rest,
          Repo.list_transactions_for_merchant
            r' (RecurringSeries.merchant_id rs) 10000 = t :: rest
          /\ RecurringSeries.last_txn_id rs = Transaction.id t
          /\ ((now - Transaction.posted_at t <= 90 * DAY)%Z ->
              exists e,
                In e (Repo.events r')
                /\ Event.type e = Event.new_subscription_detected
                /\ Event.merchant_id e
                   = Some (RecurringSeries.merchant_id rs)
                /\ Event.series_id e = Some (RecurringSeries.id rs)
                /\ Event.txn_id e = Some (Transaction.id t)))
    /\ (forall e, In e (Repo.events r') ->
                  announces now (Repo.transactions r') e).
Proof.
  intros X now repo.
  unfold Engine.recompute, Engine.detect_series.
  change (Repo.clear_recurring_and_events
            (fst (Engine.resolve_merchants X repo
                    Engine.default_fuzzy_threshold)))
    with (ledger (fst (Engine.resolve_merchants X repo
                         Engine.default_fuzzy_threshold))).
  set (r0 := ledger (fst (Engine.resolve_merchants X repo
                            Engine.default_fuzzy_threshold))).
  assert (Hnil : Repo.series r0 = []) by reflexivity.
  assert (Hev0 : Repo.events r0 = []) by reflexivity.
  clearbody r0.
  assert (Hloop : covered r0 (fold_left Engine.series_step
                                        (Repo.list_merchants r0) (r0, []))).
  { apply (@fold_left_inv _ _ Engine.series_step (covered r0)).
    - intros st m _. apply covered_step.
    - unfold covered. cbn [fst snd]. rewrite Hnil.
      split; [reflexivity|]. split; [reflexivity|].
      split; intros ? []. }
  destruct (fold_left Engine.series_step (Repo.list_merchants r0) (r0, []))
    as [r2 rows].
  destruct Hloop as (HT & HE & Hrows & Hser). cbn [fst snd] in *.
  assert (Hsub : forall m sid res tx,
             In (m, sid, res, tx) rows ->
             tx <> [] /\ forall t, In t tx -> In t (Repo.transactions r0)).
  { intros m sid res tx Hin.
    destruct (Hrows _ Hin) as (m' & sid' & res' & Heq & H3).
    injection Heq as -> -> -> ->. split.
    - intros Hnil'. rewrite Hnil' in H3. cbn [length] in H3. lia.
    - intros t. apply for_merchant_stored. }
  pose proof (@events_for_series_announced
                now (Repo.transactions r0) r2 rows Hsub) as H1.
  pose proof (events_for_anomalies_announced
                now (Repo.transactions r0)
                (Engine._events_for_series now r2 rows)) as H2.
  pose proof (appends_frame (appends_trans H1 H2))
    as (GT & _ & GS & added & Hadd & Hok).
  cbv zeta. split.
  - intros rs Hrs. rewrite GS in Hrs.
    destruct (Hser rs Hrs) as (m & res & Hin & Hid & Hlast).
    destruct (Hrows _ Hin) as (m' & sid' & res' & Heq & H3).
    injection Heq as <- _ _.
    destruct (history_last r0 (Merchant.id m) H3)
      as (t & rest & HL & Hp & Hi).
    exists t, rest.
    rewrite (@for_merchant_ledger _ r0 _ 10000 (eq_trans GT HT)), <- Hid.
    split; [exact HL|]. split; [congruence|].
    intros Hrecent. rewrite <- Hp in Hrecent.
    destruct (@events_for_series_announce
                now m (RecurringSeries.id rs) res
                (history r0 (Merchant.id m)) rows Hin H3 Hrecent r2)
      as (e & He & Hty & Hm & Hs & Htx).
    exists e. rewrite <- Hi.
    split; [|repeat split; assumption].
    apply (@raised_le_keeps 450 (Engine._events_for_series now r2 rows));
      [apply events_for_anomalies_raised | exact He].
  - intros e He. rewrite Hadd, HE, Hev0 in He. cbn [app] in He.
    rewrite Forall_forall in Hok. rewrite GT, HT. now apply Hok.
Qed.

End AnnounceMore.

(* ================================================================== *)
(** * More on db/repo.py: the encryption of the stored plaintext *)
(* ================================================================== *)

Module EncryptionMore.
Import Str Encryption.
Local Open Scope nat_scope.

Lemma marked_encrypt_str (seal : sealer) (key n s : str) :
  startswith (encrypt_str seal key n s) (chars "enc:") = true.
Proof. reflexivity. Qed.

Lemma plain_not_marked (t : Transaction.t) :
  needs_encryption t = true ->
  startswith (Transaction.description_raw t) (chars "enc:") = false.
Proof.
  unfold needs_encryption, _is_encrypted.
  destruct (Transaction.description_raw t) as [|c d]; [discriminate|].
  intros H. now apply negb_true_iff in H.
Qed.

Lemma encrypt_row_eq (seal : sealer) (key : option str) (nonce : nat -> str)
      (visited : list Transaction.t) (n : nat) (t : Transaction.t) :
  encrypt_row seal key nonce (visited, n) t
  = if needs_encryption t
    then (visited
            ++ [with_description_raw t
                  (maybe_encrypt seal key (nonce n)
                                 (Transaction.description_raw t))],
          S n)
    else (visited ++ [t], n).
Proof. reflexivity. Qed.

(** Rows that need no encryption are passed over. *)
Lemma encrypt_rows_done (seal : sealer) (key : option str)
      (nonce : nat -> str) (l : list Transaction.t) :
  Forall (fun t => needs_encryption t = false) l ->
  forall visited n,
    fold_left (encrypt_row seal key nonce) l (visited, n)
    = (visited ++ l, n).
Proof.
  induction 1 as [|t l Ht _ IH]; intros visited n; cbn [fold_left].
  - now rewrite app_nil_r.
  - rewrite encrypt_row_eq, Ht, IH, <- app_assoc. reflexivity.
Qed.

Section Migration.
Variable X : Repo.Externals.
Variable seal : sealer.
Variable nonce : nat -> str.
Variable k : str.
Hypothesis opens :
  forall key n s, Repo.decrypt_str X key (encrypt_str seal key n s) = s.

Lemma encrypt_row_reads (t : Transaction.t) (n : str) :
  needs_encryption t = true ->
  Repo.maybe_decrypt X (Some k)
    (maybe_encrypt seal (Some k) n (Transaction.description_raw t))
  = Repo.maybe_decrypt X (Some k) (Transaction.description_raw t).
Proof.
  intros H. unfold Repo.maybe_decrypt. cbn [maybe_encrypt].
  rewrite marked_encrypt_str, (plain_not_marked t H). cbn [negb].
  apply opens.
Qed.

Lemma encrypt_rows (l : list Transaction.t) :
  forall visited n,
  exists new,
    fold_left (encrypt_row seal (Some k) nonce) l (visited, n)
    = (visited ++ new, n + length (filter needs_encryption l))
    /\ map (fun t => Repo.maybe_decrypt X (Some k)
                       (Transaction.description_raw t)) new
       = map (fun t => Repo.maybe_decrypt X (Some k)
                         (Transaction.description_raw t)) l
    /\ map (fun t => with_description_raw t []) new
       = map (fun t => with_description_raw t []) l
    /\ Forall (fun t => needs_encryption t = false) new.
Proof.
  induction l as [|t l IH]; intros visited n.
  - exists []. cbn [fold_left filter length map].
    rewrite app_nil_r, Nat.add_0_r. repeat split. constructor.
  - cbn [fold_left filter]. rewrite encrypt_row_eq.
    destruct (needs_encryption t) eqn:E.
    + set (t' := with_description_raw t
                   (maybe_encrypt seal (Some k) (nonce n)
                                  (Transaction.description_raw t))).
      destruct (IH (visited ++ [t']) (S n)) as [new (H1 & H2 & H3 & H4)].
      exists (t' :: new). rewrite H1, <- app_assoc. cbn [app length map].
      split; [f_equal; lia|]. split; [|split].
      * rewrite H2. f_equal. unfold t'.
        cbn [Transaction.description_raw with_description_raw].
        now apply encrypt_row_reads.
      * rewrite H3. reflexivity.
      * constructor; [reflexivity | exact H4].
    + destruct (IH (visited ++ [t]) n) as [new (H1 & H2 & H3 & H4)].
      exists (t :: new). rewrite H1, <- app_assoc. cbn [app map].
      split; [reflexivity|]. split; [now rewrite H2|].
      split; [now rewrite H3|]. constructor; [exact E | exact H4].
Qed.
End Migration.

(** X22.  [encrypt_existing_plaintext] raises without the key.  With the
    key, and a cipher whose [decrypt_str] opens what [encrypt_str] made, it
    changes no column but [description_raw], every description is read as
    before, no row is left that needs encryption, the count returned is
    the number of rows that needed it, and a second run changes nothing
    and returns 0. *)
Theorem encrypt_existing_plaintext_keeps_what_is_read :
  forall (X : Repo.Externals) (seal : sealer) (nonce : nat -> str)
         (r : Repo.t),
    (forall key n s,
        Repo.decrypt_str X key (encrypt_str seal key n s) = s) ->
    match encrypt_existing_plaintext seal nonce r with
    | None => Repo.crypto_key r = None
    | Some (r', tx_updated) =>
        Repo.crypto_key r <> None
        /\ r' = Repo.set_transactions r (Repo.transactions r')
        /\ map (fun t => with_description_raw t []) (Repo.transactions r')
           = map (fun t => with_description_raw t []) (Repo.transactions r)
        /\ map (readable X r') (Repo.transactions r')
           = map (readable X r) (Repo.transactions r)
        /\ Forall (fun t => needs_encryption t = false)
                  (Repo.transactions r')
        /\ tx_updated = length (filter needs_encryption (Repo.transactions r))
        /\ forall nonce',
             encrypt_existing_plaintext seal nonce' r' = Some (r', 0)
    end.
Proof.
  intros X seal nonce r opens. unfold encrypt_existing_plaintext.
  destruct (Repo.crypto_key r) as [k|] eqn:Ek; [|reflexivity].
  destruct (encrypt_rows X seal nonce k opens (Repo.transactions r) [] 0)
    as [new (H1 & H2 & H3 & H4)].
  rewrite H1. cbn [app Nat.add].
  split; [discriminate|]. split; [reflexivity|].
  cbn [Repo.transactions Repo.set_transactions Repo.crypto_key].
  split; [exact H3|]. split; [|split; [exact H4|split; [reflexivity|]]].
  - unfold readable, Repo.decrypt_field.
    cbn [Repo.crypto_key Repo.set_transactions]. rewrite Ek. exact H2.
  - intros nonce'. rewrite Ek, (encrypt_rows_done seal _ nonce' H4).
    reflexivity.
Qed.

Lemma half_encrypted_ledger_is_read_as_before :
  match encrypt_existing_plaintext EncryptionSamples.plain_seal
          (fun _ => []) EncryptionSamples.half_encrypted with
  | None => Repo.crypto_key EncryptionSamples.half_encrypted = None
  | Some (r', tx_updated) =>
      Repo.crypto_key EncryptionSamples.half_encrypted <> None
      /\ r' = Repo.set_transactions EncryptionSamples.half_encrypted
                (Repo.transactions r')
      /\ map (fun t => with_description_raw t []) (Repo.transactions r')
         = map (fun t => with_description_raw t [])
               (Repo.transactions EncryptionSamples.half_encrypted)
      /\ map (readable EncryptionSamples.externals r')
             (Repo.transactions r')
         = map (readable EncryptionSamples.externals
                         EncryptionSamples.half_encrypted)
               (Repo.transactions EncryptionSamples.half_encrypted)
      /\ Forall (fun t => needs_encryption t = false)
                (Repo.transactions r')
      /\ tx_updated
         = length (filter needs_encryption
                          (Repo.transactions
                             EncryptionSamples.half_encrypted))
      /\ forall nonce',
           encrypt_existing_plaintext EncryptionSamples.plain_seal
             nonce' r' = Some (r', 0)
  end.
Proof.
  apply (@encrypt_existing_plaintext_keeps_what_is_read
           EncryptionSamples.externals EncryptionSamples.plain_seal
           (fun _ => []) EncryptionSamples.half_encrypted).
  intros key n s. reflexivity.
Defined.

End EncryptionMore.

(* ================================================================== *)
(** * core/ingest.py: which column is taken for which role *)
(* ================================================================== *)

Module IngestMore.
Import Str Ingest StrFacts.
Local Open Scope nat_scope.

(** ** Substrings *)

Lemma strip_prefix_app (p : str) :
  forall s r, strip_prefix p s = Some r <-> s = p ++ r.
Proof.
  induction p as [|x p IH]; intros s r; cbn [strip_prefix app].
  - split; [intros H; now apply RecurringMore.some_eq in H | now intros ->].
  - destruct s as [|c s]; [split; discriminate|].
    destruct (Ascii.eqb x c) eqn:E.
    + apply Ascii.eqb_eq in E. subst c. rewrite IH.
      split; [now intros -> | intros H; now injection H].
    + apply Ascii.eqb_neq in E.
      split; [discriminate | intros H; injection H; congruence].
Qed.

Lemma startswith_app (s p : str) :
  startswith s p = true <-> exists w, s = p ++ w.
Proof.
  unfold startswith. split.
  - destruct (strip_prefix p s) as [r|] eqn:E; [|discriminate].
    intros _. exists r. now apply strip_prefix_app.
  - intros [w Hw]. apply strip_prefix_app in Hw. now rewrite Hw.
Qed.

Lemma contains_app (sub : str) :
  forall s, contains sub s = true <-> exists u w, s = u ++ sub ++ w.
Proof.
  induction s as [|c s IH]; cbn [contains].
  - split.
    + destruct sub; [|discriminate]. intros _. now exists [], [].
    + intros (u & w & H). symmetry in H.
      apply app_eq_nil in H. destruct H as [_ H].
      apply app_eq_nil in H. destruct H as [-> _]. reflexivity.
  - rewrite orb_true_iff, startswith_app, IH. split.
    + intros [[w Hw]|(u & w & Hw)].
      * exists [], w. exact Hw.
      * exists (c :: u), w. now rewrite Hw.
    + intros (u & w & Hw). destruct u as [|c' u].
      * left. exists w. exact Hw.
      * right. exists u, w. cbn [app] in Hw. now injection Hw.
Qed.

Lemma contains_trans (a b s : str) :
  contains a b = true -> contains b s = true -> contains a s = true.
Proof.
  rewrite !contains_app. intros (u & w & ->) (u' & w' & ->).
  exists (u' ++ u), (w ++ w'). now rewrite <- !app_assoc.
Qed.

Lemma contains_nonempty (sub s : str) :
  sub <> [] -> contains sub s = true -> s <> [].
Proof.
  intros Hne H ->. cbn [contains] in H. destruct sub; congruence.
Qed.

(** ** The dict of the lower-case names *)

Lemma dict_set_keys (d : list (str * str)) (k v : str) :
  (In k (map fst d) /\ map fst (dict_set d k v) = map fst d)
  \/ (~ In k (map fst d) /\ map fst (dict_set d k v) = map fst d ++ [k]).
Proof.
  induction d as [|[k0 v0] d IH]; cbn [dict_set map fst].
  - right. split; [tauto | reflexivity].
  - destruct (str_eqb k0 k) eqn:E; cbn [map fst].
    + apply str_eqb_eq in E. left. split; [now left | reflexivity].
    + apply str_eqb_neq in E. destruct IH as [[Hin Heq]|[Hnin Heq]].
      * left. split; [now right | now rewrite Heq].
      * right. split; [|now rewrite Heq].
        intros [H|H]; [congruence | contradiction].
Qed.

Lemma dict_set_items (d : list (str * str)) (k v k' v' : str) :
  NoDup (map fst d) ->
  In (k', v') (dict_set d k v) ->
  (k' = k /\ v' = v) \/ (In (k', v') d /\ k' <> k).
Proof.
  induction d as [|[k0 v0] d IH]; cbn [dict_set map fst]; intros Hnd.
  - intros [H|[]]. left. split; congruence.
  - inversion Hnd as [|? ? Hfresh Hnd']; subst.
    destruct (str_eqb k0 k) eqn:E.
    + apply str_eqb_eq in E. subst k0. intros [H|H].
      * left. split; congruence.
      * right. split; [now right|]. intros ->. apply Hfresh.
        change k with (fst (k, v')). now apply in_map.
    + apply str_eqb_neq in E. intros [H|H].
      * right. split; [now left | congruence].
      * destruct (IH Hnd' H) as [?|[? ?]]; [now left|].
        right. split; [now right | assumption].
Qed.

(** The items of the dict after the columns [cols]. *)
Lemma lc_of_items (cols : list str) :
  NoDup (map fst (lc_of cols))
  /\ (forall c, In c cols -> In (lower c) (map fst (lc_of cols)))
  /\ (forall k v, In (k, v) (lc_of cols) ->
                  k = lower v /\ last_of_its_name cols v).
Proof.
  unfold lc_of.
  apply (@RepoFacts.fold_left_prefix_inv _ _
           (fun d c => dict_set d (lower c) c)
           (fun seen d =>
              NoDup (map fst d)
              /\ (forall c, In c seen -> In (lower c) (map fst d))
              /\ (forall k v, In (k, v) d ->
                              k = lower v /\ last_of_its_name seen v))).
  - intros seen c d (Hnd & Hkeys & Hitems).
    pose proof (dict_set_keys d (lower c) c) as Hk.
    split; [|split].
    + destruct Hk as [[_ ->]|[Hnew ->]]; [exact Hnd|].
      apply NoDup_app; [exact Hnd | repeat constructor; intros [] |].
      intros x Hx [<-|[]]. contradiction.
    + intros c' Hc'. apply in_app_or in Hc'.
      destruct Hk as [[Hin ->]|[_ ->]], Hc' as [Hc'|[<-|[]]];
        try (now apply Hkeys); try assumption.
      * apply in_or_app. left. now apply Hkeys.
      * apply in_or_app. right. now left.
    + intros k' v' Hin.
      destruct (dict_set_items d (lower c) c k' v' Hnd Hin)
        as [[-> ->]|[Hold Hne]].
      * split; [reflexivity|]. exists seen, []. split; [reflexivity|].
        intros c' [].
      * destruct (Hitems k' v' Hold) as [-> (before & after & -> & Hlast)].
        split; [reflexivity|]. exists before, (after ++ [c]).
        split; [now rewrite <- app_assoc|].
        intros c' Hc'. apply in_app_or in Hc'.
        destruct Hc' as [Hc'|[<-|[]]]; [now apply Hlast | congruence].
  - split; [constructor|]. split; [intros ? [] | intros ? ? []].
Qed.

Lemma last_of_its_name_In (cols : list str) (c : str) :
  last_of_its_name cols c -> In c cols.
Proof.
  intros (before & after & -> & _). apply in_or_app. right. now left.
Qed.

(** ** The two loops *)

Lemma first_item_some (lc : list (str * str)) (cand v : str) :
  first_item lc cand = Some v ->
  exists k, In (k, v) lc /\ contains cand k = true.
Proof.
  unfold first_item.
  destruct (find _ lc) as [[k v']|] eqn:E; [|discriminate].
  intros H. apply RecurringMore.some_eq in H. cbn [snd] in H. subst v'.
  apply find_some in E. exists k. exact E.
Qed.

Lemma first_item_none (lc : list (str * str)) (cand : str) :
  first_item lc cand = None <->
  forall k, In k (map fst lc) -> contains cand k = false.
Proof.
  unfold first_item. split.
  - destruct (find _ lc) eqn:E; [discriminate|]. intros _ k Hk.
    apply in_map_iff in Hk. destruct Hk as [item [<- Hitem]].
    exact (find_none _ _ E item Hitem).
  - intros H. destruct (find _ lc) as [[k v]|] eqn:E; [|reflexivity].
    apply find_some in E. destruct E as [Hin Hc]. cbn [fst] in Hc.
    rewrite (H k) in Hc; [discriminate|].
    change k with (fst (k, v)). now apply in_map.
Qed.

Lemma first_candidate_some (lc : list (str * str)) (candidates : list str)
      (v : str) :
  first_candidate lc candidates = Some v ->
  exists earlier cand later k,
    candidates = earlier ++ cand :: later
    /\ In (k, v) lc /\ contains cand k = true
    /\ forall cand', In cand' earlier -> first_item lc cand' = None.
Proof.
  induction candidates as [|cand rest IH]; cbn [first_candidate];
    [discriminate|].
  destruct (first_item lc cand) as [orig|] eqn:E.
  - intros H. apply RecurringMore.some_eq in H. subst orig.
    destruct (first_item_some lc cand E) as [k [Hin Hc]].
    exists [], cand, rest, k. repeat split; try assumption. intros ? [].
  - intros H.
    destruct (IH H) as (earlier & cand0 & later & k & -> & Hin & Hc & He).
    exists (cand :: earlier), cand0, later, k.
    repeat split; try assumption.
    intros cand' [<-|H']; [exact E | now apply He].
Qed.

Lemma first_candidate_none (lc : list (str * str)) (candidates : list str) :
  first_candidate lc candidates = None <->
  forall cand, In cand candidates -> first_item lc cand = None.
Proof.
  induction candidates as [|cand rest IH]; cbn [first_candidate].
  - split; [intros _ ? [] | reflexivity].
  - destruct (first_item lc cand) eqn:E.
    + split; [discriminate|]. intros H.
      rewrite (H cand) in E; [discriminate | now left].
    + rewrite IH. split.
      * intros H cand' [<-|H']; [exact E | now apply H].
      * intros H cand' H'. apply H. now right.
Qed.

(** A candidate that no key has may be left out. *)
Lemma first_candidate_skip (lc : list (str * str)) (x : str)
      (later : list str) :
  first_item lc x = None ->
  forall earlier,
    first_candidate lc (earlier ++ x :: later)
    = first_candidate lc (earlier ++ later).
Proof.
  intros Hx. induction earlier as [|a earlier IH]; cbn [app first_candidate].
  - now rewrite Hx.
  - now rewrite IH.
Qed.

(** So may a candidate that has an earlier candidate inside it. *)
Lemma first_candidate_redundant (lc : list (str * str)) (x y : str)
      (later : list str) :
  contains y x = true ->
  forall earlier,
    In y earlier ->
    first_candidate lc (earlier ++ x :: later)
    = first_candidate lc (earlier ++ later).
Proof.
  intros Hyx. induction earlier as [|a earlier IH]; intros Hy; [destruct Hy|].
  cbn [app first_candidate].
  destruct (first_item lc a) eqn:E; [reflexivity|].
  destruct Hy as [->|Hy]; [|now apply IH].
  apply first_candidate_skip. apply first_item_none. intros k Hk.
  destruct (contains x k) eqn:Ex; [|reflexivity].
  pose proof (proj1 (first_item_none lc y) E k Hk) as Hnone.
  pose proof (contains_trans y x k Hyx Ex). congruence.
Qed.

Lemma has_column_false (cols candidates : list str) :
  has_column cols candidates = false <->
  forall cand, In cand candidates ->
               first_item (lc_of cols) cand = None.
Proof.
  destruct (lc_of_items cols) as (_ & Hkeys & Hitems).
  unfold has_column. split.
  - intros H cand Hcand. apply first_item_none. intros k Hk.
    apply in_map_iff in Hk. destruct Hk as [[k' v] [<- Hin]]. cbn [fst].
    destruct (Hitems k' v Hin) as [-> Hlast].
    apply last_of_its_name_In in Hlast.
    destruct (contains cand (lower v)) eqn:E; [|reflexivity].
    assert (Ht : existsb
                   (fun c => existsb (fun cand => contains cand (lower c))
                                     candidates) cols = true).
    { apply existsb_exists. exists v. split; [exact Hlast|].
      apply existsb_exists. now exists cand. }
    congruence.
  - intros H.
    destruct (existsb _ cols) eqn:E; [|reflexivity].
    apply existsb_exists in E. destruct E as [c [Hc E]].
    apply existsb_exists in E. destruct E as [cand [Hcand E]].
    rewrite (proj1 (first_item_none _ cand) (H cand Hcand) (lower c)) in E;
      [discriminate | now apply Hkeys].
Qed.

Lemma guess_col_none (cols candidates : list str) :
  _guess_col cols candidates = None <-> has_column cols candidates = false.
Proof.
  unfold _guess_col. now rewrite first_candidate_none, has_column_false.
Qed.

Lemma guess_col_in (cols candidates : list str) (c : str) :
  Forall (fun cand => cand <> []) candidates ->
  _guess_col cols candidates = Some c ->
  In c cols /\ c <> [].
Proof.
  intros Hne H. unfold _guess_col in H.
  apply first_candidate_some in H.
  destruct H as (earlier & cand & later & k & -> & Hin & Hc & _).
  destruct (lc_of_items cols) as (_ & _ & Hitems).
  destruct (Hitems k c Hin) as [-> Hlast].
  split; [now apply last_of_its_name_In|].
  rewrite Forall_forall in Hne.
  assert (Hcand : cand <> [])
    by (apply Hne, in_or_app; right; now left).
  pose proof (@contains_nonempty cand (lower c) Hcand Hc) as Hl.
  intros ->. apply Hl. reflexivity.
Qed.

(** X23.  [_guess_col] returns a column of [cols], the last one of its
    lower-case name, for the first candidate that the lower-case name of
    any column contains; it returns [None] exactly when no column
    contains any candidate. *)
Theorem guess_col_takes_the_first_candidate_any_column_has :
  forall cols candidates : list str,
    match _guess_col cols candidates with
    | Some c =>
        last_of_its_name cols c
        /\ exists earlier cand later,
             candidates = earlier ++ cand :: later
             /\ contains cand (lower c) = true
             /\ has_column cols earlier = false
    | None => has_column cols candidates = false
    end.
Proof.
  intros cols candidates.
  destruct (_guess_col cols candidates) as [c|] eqn:E.
  - unfold _guess_col in E. apply first_candidate_some in E.
    destruct E as (earlier & cand & later & k & -> & Hin & Hc & He).
    destruct (lc_of_items cols) as (_ & _ & Hitems).
    destruct (Hitems k c Hin) as [-> Hlast].
    split; [exact Hlast|].
    exists earlier, cand, later. split; [reflexivity|].
    split; [exact Hc|]. apply has_column_false. exact He.
  - unfold _guess_col in E. apply has_column_false.
    apply first_candidate_none. exact E.
Qed.

Lemma guess_col_cases (cols candidates : list str) :
  Forall (fun cand => cand <> []) candidates ->
  (_guess_col cols candidates = None
   /\ has_column cols candidates = false)
  \/ (exists c cs,
         _guess_col cols candidates = Some (c :: cs)
         /\ In (c :: cs) cols
         /\ has_column cols candidates = true).
Proof.
  intros Hne. destruct (_guess_col cols candidates) as [col|] eqn:E.
  - right. destruct (guess_col_in cols Hne E) as [Hin Hcol].
    destruct col as [|c cs]; [congruence|]. exists c, cs.
    split; [reflexivity|]. split; [exact Hin|].
    destruct (has_column cols candidates) eqn:H; [reflexivity|].
    apply guess_col_none in H. congruence.
  - left. split; [reflexivity | now apply guess_col_none].
Qed.

Lemma candidates_nonempty :
  Forall (fun cand : str => cand <> []) DATE_CANDIDATES
  /\ Forall (fun cand : str => cand <> []) DESC_CANDIDATES
  /\ Forall (fun cand : str => cand <> []) AMOUNT_CANDIDATES
  /\ Forall (fun cand : str => cand <> []) CURRENCY_CANDIDATES.
Proof. repeat split; repeat constructor; discriminate. Qed.

(** X24.  [detect_schema] raises exactly when no column contains a
    candidate for the date, for the description or for the amount; what
    it returns are columns of the frame, the currency column being
    optional; and the candidate "transaction date" decides nothing, a
    column that contains it being found for "date" already. *)
Theorem detect_schema_raises_exactly_without_a_column_for_a_role :
  forall cols : list str,
    (detect_schema cols = None <->
     has_column cols DATE_CANDIDATES = false
     \/ has_column cols DESC_CANDIDATES = false
     \/ has_column cols AMOUNT_CANDIDATES = false)
    /\ (forall s, detect_schema cols = Some s ->
                  In (date s) cols /\ In (description s) cols
                  /\ In (amount s) cols
                  /\ (currency s = [] \/ In (currency s) cols))
    /\ _guess_col cols DATE_CANDIDATES
       = _guess_col cols [chars "date"; chars "posted"; chars "time"].
Proof.
  intros cols.
  destruct candidates_nonempty as (N1 & N2 & N3 & N4).
  split; [|split].
  - unfold detect_schema.
    destruct (guess_col_cases cols N1) as [[D HD]|(d & ds & D & _ & HD)];
      destruct (guess_col_cases cols N2) as [[E HE]|(e & es & E & _ & HE)];
      destruct (guess_col_cases cols N3) as [[A HA]|(a & az & A & _ & HA)];
      rewrite D; try rewrite E; try rewrite A; rewrite HD, HE, HA;
      (split;
       [ intros H; try discriminate H; auto
       | intros [H|[H|H]]; try discriminate H; reflexivity ]).
  - intros s Hs. unfold detect_schema in Hs.
    destruct (guess_col_cases cols N1) as [[D _]|(d & ds & D & HD & _)];
      destruct (guess_col_cases cols N2) as [[E _]|(e & es & E & HE & _)];
      destruct (guess_col_cases cols N3) as [[A _]|(a & az & A & HA & _)];
      rewrite D in Hs; try rewrite E in Hs; try rewrite A in Hs;
      try discriminate Hs.
    apply RecurringMore.some_eq in Hs. subst s.
    cbn [date description amount currency].
    split; [exact HD|]. split; [exact HE|]. split; [exact HA|].
    destruct (guess_col_cases cols N4) as [[C _]|(c & cs & C & HC & _)];
      rewrite C; [now left | now right].
  - unfold _guess_col, DATE_CANDIDATES.
    apply (@first_candidate_redundant
             (lc_of cols) (chars "transaction date") (chars "date")
             [chars "time"] eq_refl [chars "date"; chars "posted"]).
    now left.
Qed.

End IngestMore.

(* ================================================================== *)
(** * The order of the doubles *)
(* ================================================================== *)

Module Float64Facts.
Import SpecFloat PrimFloat FloatOps FloatAxioms Float64.
Local Open Scope Z_scope.

Ltac by_keys :=
  eexists; split; [reflexivity|]; split; split; intros ?H;
  try discriminate; try reflexivity; lia.

(** The comparison of two numbers is the comparison of their keys. *)
Lemma SFcompare_key (x y : spec_float) :
  proper x -> proper y ->
  exists c, SFcompare x y = Some c
            /\ (c = Lt <-> key_lt (key x) (key y))
            /\ (c = Gt <-> key_lt (key y) (key x)).
Proof.
  intros Hx Hy.
  destruct x as [sx|sx| |sx mx ex], y as [sy|sy| |sy my ey];
    try (exfalso; apply Hx; reflexivity);
    try (exfalso; apply Hy; reflexivity); cbn;
    try (destruct sx); try (destruct sy); cbn;
    try by_keys.
  - destruct (Z.compare_spec ex ey) as [He|He|He]; [|by_keys|by_keys].
    change (Pos.compare_cont Eq mx my) with (Pos.compare mx my).
    destruct (Pos.compare_spec mx my) as [Hm|Hm|Hm]; cbn; by_keys.
  - destruct (Z.compare_spec ex ey) as [He|He|He]; [|by_keys|by_keys].
    change (Pos.compare_cont Eq mx my) with (Pos.compare mx my).
    destruct (Pos.compare_spec mx my) as [Hm|Hm|Hm]; cbn; by_keys.
Qed.

Ltac open_keys x y :=
  destruct (key (Prim2SF x)) as [[?c ?e] ?m];
  destruct (key (Prim2SF y)) as [[?c ?e] ?m];
  unfold key_lt, key_le in *.

Lemma number_proper (x : float) :
  is_number x = true <-> proper (Prim2SF x).
Proof.
  unfold is_number. rewrite eqb_spec. unfold SFeqb. split.
  - intros H Hn. rewrite Hn in H. discriminate H.
  - intros Hp. destruct (SFcompare_key Hp Hp) as [c (-> & Hlt & Hgt)].
    destruct c; [reflexivity | exfalso | exfalso].
    + assert (K : key_lt (key (Prim2SF x)) (key (Prim2SF x)))
        by (now apply Hlt).
      destruct (key (Prim2SF x)) as [[c e] m]. unfold key_lt in K. lia.
    + assert (K : key_lt (key (Prim2SF x)) (key (Prim2SF x)))
        by (now apply Hgt).
      destruct (key (Prim2SF x)) as [[c e] m]. unfold key_lt in K. lia.
Qed.

Lemma leb_key (x y : float) :
  (x <=? y)%float = true
  <-> proper (Prim2SF x) /\ proper (Prim2SF y)
      /\ key_le (key (Prim2SF x)) (key (Prim2SF y)).
Proof.
  rewrite leb_spec. unfold SFleb. split.
  - intros H.
    assert (Hx : proper (Prim2SF x))
      by (intros Hn; rewrite Hn in H; discriminate H).
    assert (Hy : proper (Prim2SF y))
      by (intros Hn; rewrite Hn in H; destruct (Prim2SF x); discriminate H).
    split; [exact Hx|]. split; [exact Hy|].
    destruct (SFcompare_key Hx Hy) as [c (Hc & Hlt & Hgt)].
    rewrite Hc in H. open_keys x y.
    destruct c; try discriminate H.
    + assert (~ (c0 < c1 \/ c0 = c1 /\ (e < e0 \/ e = e0 /\ m < m0)))
        by (intros K; apply Hlt in K; discriminate K).
      assert (~ (c1 < c0 \/ c1 = c0 /\ (e0 < e \/ e0 = e /\ m0 < m)))
        by (intros K; apply Hgt in K; discriminate K).
      lia.
    + assert (c0 < c1 \/ c0 = c1 /\ (e < e0 \/ e = e0 /\ m < m0))
        by (now apply Hlt).
      lia.
  - intros (Hx & Hy & Hle).
    destruct (SFcompare_key Hx Hy) as [c (-> & Hlt & Hgt)].
    destruct c; try reflexivity. exfalso.
    assert (K : key_lt (key (Prim2SF y)) (key (Prim2SF x)))
      by (now apply Hgt).
    open_keys x y. lia.
Qed.

Lemma ltb_key (x y : float) :
  (x <? y)%float = true
  <-> proper (Prim2SF x) /\ proper (Prim2SF y)
      /\ key_lt (key (Prim2SF x)) (key (Prim2SF y)).
Proof.
  rewrite ltb_spec. unfold SFltb. split.
  - intros H.
    assert (Hx : proper (Prim2SF x))
      by (intros Hn; rewrite Hn in H; discriminate H).
    assert (Hy : proper (Prim2SF y))
      by (intros Hn; rewrite Hn in H; destruct (Prim2SF x); discriminate H).
    split; [exact Hx|]. split; [exact Hy|].
    destruct (SFcompare_key Hx Hy) as [c (Hc & Hlt & Hgt)].
    rewrite Hc in H. destruct c; try discriminate H. now apply Hlt.
  - intros (Hx & Hy & Hk).
    destruct (SFcompare_key Hx Hy) as [c (-> & Hlt & Hgt)].
    apply Hlt in Hk. now rewrite Hk.
Qed.

(** [<=] on doubles is transitive, and total on numbers. *)
Lemma le_trans (a b c : float) : le a b -> le b c -> le a c.
Proof.
  unfold le. rewrite !leb_key. intros (Ha & Hb & H1) (_ & Hc & H2).
  split; [exact Ha|]. split; [exact Hc|].
  destruct (key (Prim2SF a)) as [[c1 e1] m1].
  destruct (key (Prim2SF b)) as [[c2 e2] m2].
  destruct (key (Prim2SF c)) as [[c3 e3] m3].
  unfold key_le in *. lia.
Qed.

Lemma le_total (a b : float) :
  is_number a = true -> is_number b = true -> le a b \/ le b a.
Proof.
  unfold le. rewrite !leb_key, !number_proper. intros Ha Hb.
  assert (K : key_le (key (Prim2SF a)) (key (Prim2SF b))
              \/ key_le (key (Prim2SF b)) (key (Prim2SF a))).
  { open_keys a b. lia. }
  destruct K as [K|K]; [left | right]; repeat split; assumption.
Qed.

Lemma le_number (a b : float) :
  le a b -> is_number a = true /\ is_number b = true.
Proof.
  unfold le. rewrite leb_key, !number_proper. tauto.
Qed.

End Float64Facts.

(* ================================================================== *)
(** * Sorting what can be compared *)
(* ================================================================== *)

Module SortFacts.

Section On.
Variable A : Type.
Variable leb : A -> A -> bool.
Variable P : A -> Prop.
Hypothesis leb_total :
  forall a b, P a -> P b -> leb a b = true \/ leb b a = true.
Hypothesis leb_trans :
  forall a b c, leb a b = true -> leb b c = true -> leb a c = true.

Lemma insert_sorted_on (x : A) (l : list A) :
  P x -> Forall P l ->
  StronglySorted (fun a b => leb a b = true) l ->
  StronglySorted (fun a b => leb a b = true) (Py.insert leb x l).
Proof.
  intros Hx HP Hs. induction Hs as [|y l Hs IH Hall]; cbn [Py.insert].
  - constructor; constructor.
  - inversion HP as [|? ? Hy HP']; subst.
    destruct (leb x y) eqn:E.
    + constructor; [now constructor|].
      constructor; [exact E|].
      eapply Forall_impl; [|exact Hall].
      intros z Hz. now apply leb_trans with y.
    + constructor; [now apply IH|].
      assert (Hyx : leb y x = true)
        by (destruct (leb_total Hx Hy); [congruence | assumption]).
      apply Forall_forall. intros z Hz.
      apply (Permutation_in _ (PyFacts.insert_perm leb x l)) in Hz.
      destruct Hz as [<-|Hz]; [exact Hyx|].
      rewrite Forall_forall in Hall. now apply Hall.
Qed.

Lemma sorted_sorted_on (l : list A) :
  Forall P l ->
  StronglySorted (fun a b => leb a b = true) (Py.sorted leb l).
Proof.
  induction 1 as [|x l Hx HP IH]; cbn [Py.sorted].
  - constructor.
  - apply insert_sorted_on; [exact Hx | | exact IH].
    apply Forall_forall. intros z Hz.
    apply (proj1 (PyFacts.sorted_In leb z l)) in Hz.
    rewrite Forall_forall in HP. now apply HP.
Qed.
End On.




End SortFacts.

(* ================================================================== *)
(** * core/stats.py in doubles: median and MAD *)
(* ================================================================== *)

Module Stats64Facts.
Import SpecFloat PrimFloat FloatOps FloatAxioms.
Import Float64 Float64Facts SortFacts Stats64 ScoreSpec.
Local Open Scope float_scope.

Lemma sorted_numbers (l : list float) :
  numbers l -> StronglySorted le (Py.sorted leb l).
Proof.
  intros Hl.
  apply (@sorted_sorted_on float leb (fun x => is_number x = true)).
  - intros a b Ha Hb. now apply le_total.
  - intros a b c. apply le_trans.
  - exact Hl.
Qed.

Lemma no_nan (l : list float) : numbers l -> existsb is_nan l = false.
Proof.
  induction 1 as [|x l Hx Hl IH]; cbn [existsb]; [reflexivity|].
  rewrite IH. unfold is_nan. unfold is_number in Hx. now rewrite Hx.
Qed.

Lemma np_median_middle (l : list float) :
  numbers l -> np_median l = middle (Py.sorted leb l).
Proof. intros Hl. unfold np_median. now rewrite (no_nan Hl). Qed.

(** What [np.median] returns is a median of the data. *)
Lemma np_median_is_median (l : list float) :
  numbers l -> is_median l (np_median l).
Proof.
  intros Hl. exists (Py.sorted leb l). split; [apply PyFacts.sorted_perm|].
  split; [|now apply np_median_middle].
  apply StronglySorted_Sorted. now apply sorted_numbers.
Qed.

Lemma mad_is_scaled_mad (l : list float) :
  l <> [] -> numbers l ->
  (forall m, is_median l m -> numbers (map (fun a => abs (a - m)) l)) ->
  is_scaled_mad l (mad l).
Proof.
  intros Hne Hl Hdev. unfold mad, mad_scaled.
  destruct l as [|x l]; [congruence|].
  pose proof (np_median_is_median Hl) as Hmed.
  exists (np_median (x :: l)),
         (np_median (map (fun a => abs (a - np_median (x :: l))) (x :: l))).
  split; [exact Hmed|]. split; [|reflexivity].
  apply np_median_is_median. now apply Hdev.
Qed.







End Stats64Facts.

(* ================================================================== *)
(** * core/anomalies.py in doubles: which rows are flagged *)
(* ================================================================== *)

Module Anomalies64Facts.
Import Str StrFacts PrimFloat Float64 Stats64 Stats64Facts Anomalies64 ScoreSpec.
Local Open Scope float_scope.

Lemma group_append_keys64 (d : list (str * list Row)) (k : str) (t : Row)
      (x : str) :
  In x (map fst (group_append d k t)) -> In x (map fst d) \/ x = k.
Proof.
  induction d as [|[k' rows] d IH]; simpl.
  - intros [<-|[]]. now right.
  - destruct (str_eqb k' k); simpl.
    + intros [<-|H]; left; [now left | now right].
    + intros [<-|H]; [left; now left|].
      destruct (IH H); [left; now right | now right].
Qed.

Lemma group_append_NoDup64 (d : list (str * list Row)) (k : str) (t : Row) :
  NoDup (map fst d) -> NoDup (map fst (group_append d k t)).
Proof.
  induction d as [|[k' rows] d IH]; simpl; intros Hnd.
  - repeat constructor. intros [].
  - inversion Hnd as [|? ? Hk' Hnd']; subst.
    destruct (str_eqb k' k) eqn:E; simpl.
    + now constructor.
    + apply str_eqb_neq in E. constructor; [|now apply IH].
      intros H. apply group_append_keys64 in H. destruct H; congruence.
Qed.

(** The entries after [by_m[k].append(t)]. *)
Lemma group_append_In64 (d : list (str * list Row)) (k : str) (t : Row)
      (k' : str) (rows' : list Row) :
  NoDup (map fst d) ->
  In (k', rows') (group_append d k t) <->
  (k' <> k /\ In (k', rows') d)
  \/ (k' = k
      /\ exists rows, rows' = rows ++ [t]
                      /\ (In (k, rows) d \/ (rows = [] /\ ~ In k (map fst d)))).
Proof.
  induction d as [|[k0 rows0] d IH]; intros Hnd; simpl.
  - split.
    + intros [H|[]]. injection H as <- <-. right. split; [reflexivity|].
      exists []. split; [reflexivity|]. right. split; [reflexivity | tauto].
    + intros [[_ []]|[-> [rows [-> [[]|[-> _]]]]]]. now left.
  - inversion Hnd as [|? ? Hk0 Hnd']; subst.
    specialize (IH Hnd').
    destruct (str_eqb k0 k) eqn:E.
    + apply str_eqb_eq in E. subst k0. simpl. split.
      * intros [H|H].
        -- injection H as <- <-. right. split; [reflexivity|].
           exists rows0. split; [reflexivity|]. left. now left.
        -- left. split; [|now right].
           intros ->. apply Hk0. apply in_map_iff. now exists (k, rows').
      * intros [[Hne [H|H]]|[-> [rows [-> [[H|H]|[_ Hout]]]]]].
        -- injection H as <- <-. congruence.
        -- now right.
        -- injection H as <-. now left.
        -- exfalso. apply Hk0. apply in_map_iff. now exists (k, rows).
        -- exfalso. apply Hout. now left.
    + apply str_eqb_neq in E. simpl. rewrite IH. split.
      * intros [H|[[Hne H]|[-> [rows [-> [H|[-> Hout]]]]]]].
        -- injection H as <- <-. left. split; [assumption | now left].
        -- left. split; [assumption | now right].
        -- right. split; [reflexivity|]. exists rows.
           split; [reflexivity|]. left. now right.
        -- right. split; [reflexivity|]. exists [].
           split; [reflexivity|]. right. split; [reflexivity|].
           intros [H|H]; [congruence | contradiction].
      * intros [[Hne [H|H]]|[-> [rows [-> [[H|H]|[-> Hout]]]]]].
        -- now left.
        -- right. left. now split.
        -- injection H as -> _. congruence.
        -- right. right. split; [reflexivity|]. exists rows.
           split; [reflexivity|]. now left.
        -- right. right. split; [reflexivity|]. exists [].
           split; [reflexivity|]. right. split; [reflexivity|]. tauto.
Qed.

Lemma rows_of_snoc64 (k : str) (seen : list Row) (t : Row) :
  rows_of k (seen ++ [t])
  = rows_of k seen ++ (if str_eqb (merchant t) k then [t] else []).
Proof. unfold rows_of. rewrite filter_app. reflexivity. Qed.

Lemma grouped_step64 (d : list (str * list Row)) (seen : list Row) (t : Row) :
  grouped d seen -> grouped (group_append d (merchant t) t) (seen ++ [t]).
Proof.
  intros [Hnd Hd]. split; [now apply group_append_NoDup64|].
  intros k rows.
  rewrite (@group_append_In64 d (merchant t) t k rows Hnd), rows_of_snoc64.
  destruct (str_eqb (merchant t) k) eqn:E.
  - apply str_eqb_eq in E. subst k. split.
    + intros [[Hne _]|[_ [rows0 [-> [H|[-> Hout]]]]]]; [congruence| |].
      * apply Hd in H. destruct H as [-> _].
        split; [reflexivity | now destruct (rows_of (merchant t) seen)].
      * split; [|discriminate]. f_equal.
        destruct (rows_of (merchant t) seen) as [|r rs] eqn:Er;
          [reflexivity|].
        exfalso. apply Hout. apply in_map_iff.
        exists (merchant t, r :: rs). split; [reflexivity|].
        apply Hd. split; [now rewrite Er | discriminate].
    + intros [-> _]. right. split; [reflexivity|].
      exists (rows_of (merchant t) seen). split; [reflexivity|].
      destruct (rows_of (merchant t) seen) as [|r rs] eqn:Er.
      * right. split; [reflexivity|]. intros Hin.
        apply in_map_iff in Hin. destruct Hin as [[k rows] [Hk Hin]].
        simpl in Hk. subst k. apply Hd in Hin. destruct Hin as [-> Hne].
        congruence.
      * left. apply Hd. split; [now rewrite Er | discriminate].
  - apply str_eqb_neq in E. rewrite app_nil_r. split.
    + intros [[Hne H]|[-> _]]; [now apply Hd | congruence].
    + intros H. left. split; [|now apply Hd].
      intros ->. now apply E.
Qed.

Lemma grouped_fold64 (transactions : list Row) :
  forall d seen,
    grouped d seen ->
    grouped (fold_left (fun d t => group_append d (merchant t) t)
                       transactions d)
            (seen ++ transactions).
Proof.
  induction transactions as [|t transactions IH]; intros d seen Hg; simpl.
  - now rewrite app_nil_r.
  - replace (seen ++ t :: transactions) with ((seen ++ [t]) ++ transactions)
      by (rewrite <- app_assoc; reflexivity).
    apply IH. now apply grouped_step64.
Qed.

(** The groups are the merchants that occur, each with its rows in
    stored order. *)
Lemma group_by_merchant_spec64 (transactions : list Row) (k : str)
      (rows : list Row) :
  In (k, rows) (group_by_merchant transactions)
  <-> rows = rows_of k transactions /\ rows <> [].
Proof.
  assert (H0 : grouped [] []).
  { split; [constructor|]. intros k' rows'. simpl. split; [tauto|].
    intros [-> H]. now apply H. }
  destruct (grouped_fold64 transactions H0) as [_ H]. apply H.
Qed.

Lemma rows_of_In64 (k : str) (transactions : list Row) (r : Row) :
  In r (rows_of k transactions) <-> In r transactions /\ merchant r = k.
Proof. unfold rows_of. now rewrite filter_In, str_eqb_eq. Qed.

Lemma robust_z_is_z_score (x med mad_val : float) :
  robust_z x med mad_val = z_score x med mad_val.
Proof. unfold robust_z, z_score. destruct (1e-9 <? mad_val); reflexivity. Qed.

Lemma flag_row_In64 (z_thresh : float) (m : str) (med m_mad : float)
      (r : Row) (e : MerchantAnomaly) :
  In e (flag_row z_thresh m med m_mad r)
  <-> (z_thresh <=? abs (z_score (abs (amount r)) med m_mad)) = true
      /\ e = mkMerchantAnomaly m (txn_id r) (amount r)
               (z_score (abs (amount r)) med m_mad) med m_mad.
Proof.
  unfold flag_row. cbv zeta. rewrite robust_z_is_z_score.
  destruct (z_thresh <=? abs (z_score (abs (amount r)) med m_mad)).
  - cbn [In]. split.
    + intros [<-|[]]. now split.
    + intros [_ ->]. now left.
  - split; [intros [] | intros [H _]; discriminate H].
Qed.

(** C7.  The detector flags exactly the transactions [r] whose merchant
    has at least 8 rows, that are among the first 80 of these rows in
    stored order, and whose robust z-score [z] of the absolute amount
    against the baseline of the merchant satisfies [|z| >= z_thresh] (4.0
    by default), all in the arithmetic of doubles.  The baseline is a
    median and a scaled MAD of the absolute amounts of the rows, in the
    words of the specification, when these amounts and their deviations
    are numbers.  So nothing is flagged for a merchant with fewer than 8
    rows, and no row beyond the first 80. *)
Theorem merchant_anomalies_flags_exactly :
  forall (transactions : list Row) (z_thresh : float),
    (forall e : MerchantAnomaly,
        In e (merchant_anomalies transactions z_thresh)
        <-> exists r : Row,
            let rows := rows_of (merchant r) transactions in
            let med := median (magnitudes rows) in
            let m_mad := mad (magnitudes rows) in
            let z := z_score (abs (amount r)) med m_mad in
            In r transactions
            /\ (8 <= length rows)%nat
            /\ In r (firstn 80 rows)
            /\ (z_thresh <=? abs z) = true
            /\ e = mkMerchantAnomaly (merchant r) (txn_id r) (amount r) z
                     med m_mad)
    /\ (forall amounts : list float,
           amounts <> [] -> numbers amounts ->
           (forall m, is_median amounts m ->
                      numbers (map (fun a => abs (a - m)) amounts)) ->
           is_median amounts (median amounts)
           /\ is_scaled_mad amounts (mad amounts)).
Proof.
  intros transactions z_thresh. split.
  - intros e. unfold merchant_anomalies. rewrite in_flat_map. split.
    + intros [[k rows] [Hg He]].
      apply group_by_merchant_spec64 in Hg. destruct Hg as [Hrows _].
      unfold group_anomalies in He.
      destruct (length rows <? 8)%nat eqn:E8; [contradiction|].
      apply Nat.ltb_ge in E8.
      apply in_flat_map in He. destruct He as [r [Hr He]].
      apply flag_row_In64 in He. destruct He as [Hz ->].
      assert (Hin : In r rows) by (eapply ListFacts.In_firstn; eassumption).
      rewrite Hrows in Hin. apply rows_of_In64 in Hin.
      destruct Hin as [Hin Hk].
      exists r. cbv zeta. unfold magnitudes.
      rewrite Hk, <- Hrows. repeat split; assumption.
    + intros [r [Hin [H8 [H80 [Hz ->]]]]].
      set (rows := rows_of (merchant r) transactions) in *.
      exists (merchant r, rows). split.
      * apply group_by_merchant_spec64. split; [reflexivity|].
        intros Hnil. rewrite Hnil in H8. cbn [length] in H8. lia.
      * unfold group_anomalies.
        replace (length rows <? 8)%nat with false
          by (symmetry; apply Nat.ltb_ge; assumption).
        apply in_flat_map. exists r. split; [assumption|].
        apply flag_row_In64. split; [assumption | reflexivity].
  - intros amounts Hne Hnum Hdev.
    assert (Hm : median amounts = np_median amounts)
      by (destruct amounts; [congruence | reflexivity]).
    rewrite Hm. split.
    + now apply np_median_is_median.
    + now apply mad_is_scaled_mad.
Qed.

(** At the threshold the rounding decides: the score of the charge of
    92.55 is 4 in exact arithmetic, and 3.999999999999999 in doubles, so
    nothing is flagged. *)
Lemma score_at_the_threshold_is_rounded :
  merchant_anomalies Samples64.at_the_threshold 4 = []
  /\ map Anomalies.ma_txn_id
         (Anomalies.merchant_anomalies Samples64.at_the_threshold_exact 4%Q)
     = [9%Z].
Proof. split; vm_compute; reflexivity. Qed.

End Anomalies64Facts.

(* ================================================================== *)
(** * core/recurring.py: the result and the range of [datetime] *)
(* ================================================================== *)

Module CheckedFacts.
Import Str Stats StatsFacts Recurring RecurringFacts DetectSpec.
Import CalendarFacts EngineSpec RepoFacts EngineFacts Datetime SeriesSpec.
Local Open Scope Q_scope.

(** The checked detector returns what the detector computes, unless the
    next expected date is no [datetime]. *)
Lemma detect_recurring_checked (dates : list datetime) (amounts : list Q)
      (min_points : Z) :
  Checked.detect_recurring dates amounts min_points
  = match detect_recurring dates amounts min_points with
    | None => Returns None
    | Some r =>
        if in_range (next_expected_at r) then Returns (Some r)
        else OverflowError
    end.
Proof.
  unfold Checked.detect_recurring, detect_recurring.
  destruct (Z.of_nat (length dates) <? min_points)%Z; [reflexivity|].
  cbv zeta.
  destruct (day_gaps (map fst (Py.sorted by_date (combine dates amounts))))
    as [|g gaps]; [reflexivity|].
  unfold Datetime.add_days, Recurring.add_days. cbv zeta.
  cbn [next_expected_at].
  destruct (in_range _); reflexivity.
Qed.

















(** ** The loop of [recompute] *)

Lemma returns_eq (A : Type) (a b : A) : Returns a = Returns b -> a = b.
Proof. intros H. now injection H. Qed.


(** One round of the checked loop does what the loop does, or raises. *)
Lemma series_step_cases (st : Repo.t * list Engine.series_row)
      (m : Merchant.t) :
  Checked.series_step (Returns st) m = Returns (Engine.series_step st m)
  \/ Checked.series_step (Returns st) m = OverflowError.
Proof.
  destruct st as [r rows]. unfold Checked.series_step, Engine.series_step.
  destruct (length _ <? 3)%nat; [now left|].
  rewrite detect_recurring_checked.
  destruct (detect_recurring _ _ 3) as [res|]; [|now left].
  destruct (in_range (next_expected_at res)); [|now right].
  left. destruct (Repo.upsert_series _ _ _ _ _). reflexivity.
Qed.


Lemma series_loop_raised (ms : list Merchant.t) :
  fold_left Checked.series_step ms OverflowError = OverflowError.
Proof. induction ms as [|m ms IH]; [reflexivity | exact IH]. Qed.

Lemma series_loop_cases (ms : list Merchant.t)
      (st : Repo.t * list Engine.series_row) :
  fold_left Checked.series_step ms (Returns st)
  = Returns (fold_left Engine.series_step ms st)
  \/ fold_left Checked.series_step ms (Returns st) = OverflowError.
Proof.
  revert st. induction ms as [|m ms IH]; intros st; [now left|].
  cbn [fold_left]. destruct (series_step_cases st m) as [-> | ->].
  - apply IH.
  - right. apply series_loop_raised.
Qed.


(** [recompute] returns what the unchecked model computes, or raises. *)
Lemma recompute_cases (X : Repo.Externals) (now : datetime) (repo : Repo.t) :
  Checked.recompute X now repo = Returns (Engine.recompute X now repo)
  \/ Checked.recompute X now repo = OverflowError.
Proof.
  unfold Checked.recompute, Engine.recompute, Engine.detect_series.
  set (r0 := Repo.clear_recurring_and_events _).
  destruct (series_loop_cases (Repo.list_merchants r0) (r0, [])) as [-> | ->];
    [left | now right].
  destruct (fold_left Engine.series_step _ _). reflexivity.
Qed.





End CheckedFacts.

(* ================================================================== *)
(** * core/engine.py: the "possible duplicate" events of a recompute *)
(* ================================================================== *)

Module DuplicateFacts.
Import Str Recurring EngineSpec RepoFacts EngineFacts RecomputeSpec.
Import DuplicateSpec Datetime.
Local Open Scope nat_scope.

(** ** Lists in order *)

Lemma sorted_snoc (A : Type) (R : A -> A -> Prop) (l : list A) (x : A) :
  StronglySorted R l -> Forall (fun y => R y x) l ->
  StronglySorted R (l ++ [x]).
Proof.
  induction 1 as [|y l Hs IH Hall]; intros Hx; cbn [app].
  - constructor; constructor.
  - inversion Hx as [|? ? Hyx Hx']; subst. constructor.
    + now apply IH.
    + apply Forall_app. split; [exact Hall|].
      constructor; [exact Hyx | constructor].
Qed.

Lemma sorted_rev (A : Type) (R : A -> A -> Prop) (l : list A) :
  StronglySorted R l -> StronglySorted (fun x y => R y x) (rev l).
Proof.
  induction 1 as [|x l Hs IH Hall]; cbn [rev]; [constructor|].
  apply sorted_snoc; [exact IH|]. now apply Forall_rev.
Qed.

(** Two arrangements of the same elements, one in order and the other
    strictly so, are the same list. *)
Lemma sorted_unique (A : Type) (R R' : A -> A -> Prop) (l1 l2 : list A) :
  (forall x y, R x y -> R' y x -> False) ->
  Permutation l1 l2 -> StronglySorted R l1 -> StronglySorted R' l2 ->
  l1 = l2.
Proof.
  intros Hirr. revert l2.
  induction l1 as [|x l1 IH]; intros l2 Hp H1 H2.
  - apply Permutation_nil in Hp. now subst.
  - destruct l2 as [|y l2];
      [apply Permutation_sym, Permutation_nil in Hp; discriminate|].
    inversion H1 as [|? ? H1' F1]; inversion H2 as [|? ? H2' F2]; subst.
    rewrite Forall_forall in F1, F2.
    assert (E : x = y).
    { assert (Hx : In x (y :: l2))
        by (apply (Permutation_in _ Hp); now left).
      assert (Hy : In y (x :: l1))
        by (apply (Permutation_in _ (Permutation_sym Hp)); now left).
      destruct Hx as [Hx|Hx]; [now symmetry|].
      destruct Hy as [Hy|Hy]; [exact Hy|].
      exfalso. exact (Hirr x y (F1 y Hy) (F2 x Hx)). }
    subst y. f_equal. apply IH; [|assumption|assumption].
    now apply Permutation_cons_inv with x.
Qed.

Lemma newest_first_total (a b : Transaction.t) :
  Repo.newest_first a b = true \/ Repo.newest_first b a = true.
Proof.
  unfold Repo.newest_first.
  destruct (Z.leb_spec (Transaction.posted_at b) (Transaction.posted_at a));
    [now left | right; apply Z.leb_le; lia].
Qed.

Lemma newest_first_trans (a b c : Transaction.t) :
  Repo.newest_first a b = true -> Repo.newest_first b c = true ->
  Repo.newest_first a c = true.
Proof.
  unfold Repo.newest_first. rewrite !Z.leb_le. lia.
Qed.

(** The transactions of a merchant as the loop reads them are its last
    [limit] charges in the order of time. *)
Lemma listed_charges (r : Repo.t) (mid : Z) (limit : nat)
      (l : list Transaction.t) :
  charges_of r mid l ->
  rev (Repo.list_transactions_for_merchant r mid limit)
  = skipn (length l - limit) l.
Proof.
  intros [Hperm Hsorted]. unfold Repo.list_transactions_for_merchant.
  set (F := filter (Repo.has_merchant mid) (Repo.transactions r)) in *.
  assert (E : Py.sorted Repo.newest_first F = rev l).
  { apply sorted_unique
      with (R := fun x y => Repo.newest_first x y = true)
           (R' := fun x y => earlier y x).
    - intros x y Hle Hlt. unfold Repo.newest_first in Hle.
      apply Z.leb_le in Hle. unfold earlier in Hlt. lia.
    - apply perm_trans with F; [apply PyFacts.sorted_perm|].
      apply perm_trans with l; [exact Hperm | apply Permutation_rev].
    - apply (@PyFacts.sorted_sorted _ Repo.newest_first
                                    newest_first_total newest_first_trans).
    - now apply sorted_rev. }
  rewrite E, firstn_rev, rev_involutive. reflexivity.
Qed.

(** ** Events that name another transaction *)

Lemma in_history (r : Repo.t) (mid : Z) (t : Transaction.t) :
  In t (history r mid) ->
  In t (Repo.transactions r) /\ Repo.has_merchant mid t = true.
Proof.
  unfold history, Repo.list_transactions_for_merchant. intros H.
  apply in_rev, ListFacts.In_firstn in H.
  apply (proj1 (PyFacts.sorted_In Repo.newest_first t _)) in H.
  now apply filter_In in H.
Qed.

Lemma has_merchant_id (mid mid' : Z) (t : Transaction.t) :
  Repo.has_merchant mid t = true -> Repo.has_merchant mid' t = true ->
  mid = mid'.
Proof.
  unfold Repo.has_merchant. destruct (Transaction.merchant_id t) as [k|];
    [|discriminate].
  rewrite !Z.eqb_eq. congruence.
Qed.

Lemma filter_misses (b : Transaction.t) (l : list Event.t) :
  Forall (misses b) l -> filter (duplicate_of b) l = [].
Proof.
  induction 1 as [|e l He Hl IH]; cbn [filter]; [reflexivity|].
  unfold misses in He. now rewrite He.
Qed.

Section Pair.
Variable b : Transaction.t.

Lemma new_subscription_misses (now : datetime) (r : Repo.t)
      (row : Engine.series_row) :
  appends (misses b) r (Engine.new_subscription now r row).
Proof.
  destruct row as [[[m sid] res] tx]. unfold Engine.new_subscription.
  destruct (_ && _); [|apply appends_refl].
  apply appends_add_event. intros id. reflexivity.
Qed.

Lemma price_change_misses (r : Repo.t) (row : Engine.series_row) :
  appends (misses b) r (Engine.price_change r row).
Proof.
  destruct row as [[[m sid] res] tx]. unfold Engine.price_change.
  destruct (5 <=? length tx); [|apply appends_refl].
  destruct (Stats.Qltb _ _); [|apply appends_refl].
  apply appends_add_event. intros id. reflexivity.
Qed.

(** A pair whose later transaction is not [b]. *)
Lemma duplicate_at_misses (m : Merchant.t) (sid : Z)
      (tx : list Transaction.t) (r : Repo.t) (i : nat) :
  (forall b', nth_error tx (S i) = Some b' ->
              Transaction.id b' <> Transaction.id b) ->
  appends (misses b) r (Engine.duplicate_at m sid tx r i).
Proof.
  intros Hother. unfold Engine.duplicate_at.
  destruct (nth_error tx i); [|apply appends_refl].
  destruct (nth_error tx (S i)) as [b'|]; [|apply appends_refl].
  destruct (Engine.is_duplicate _ _); [|apply appends_refl].
  apply appends_add_event. intros id. unfold misses, duplicate_of.
  cbn [Event.type Event.txn_id Event.type_eqb andb].
  apply Z.eqb_neq. now apply Hother.
Qed.

Lemma duplicates_misses (r : Repo.t) (m : Merchant.t) (sid : Z)
      (res : SeriesResult) (tx : list Transaction.t) :
  (forall b', In b' tx -> Transaction.id b' <> Transaction.id b) ->
  appends (misses b) r (Engine.duplicates r (m, sid, res, tx)).
Proof.
  intros Hother. unfold Engine.duplicates. apply appends_fold.
  intros r' i _. apply duplicate_at_misses.
  intros b' Hb'. apply Hother. eapply nth_error_In. exact Hb'.
Qed.

Lemma events_for_anomalies_misses (r : Repo.t) :
  appends (misses b) r (Engine._events_for_anomalies r).
Proof.
  unfold Engine._events_for_anomalies.
  eapply appends_trans; [eapply appends_trans|];
    apply appends_fold; intros; apply appends_add_event; intros;
    reflexivity.
Qed.

(** The rows of the other merchants add no event that names [b]. *)
Lemma other_rows_miss (now : datetime) (r0 : Repo.t) (mid : Z)
      (rows : list Engine.series_row) :
  NoDup (map Transaction.id (Repo.transactions r0)) ->
  In b (Repo.transactions r0) ->
  Repo.has_merchant mid b = true ->
  (forall row, In row rows ->
               exists m sid res,
                 row = (m, sid, res, history r0 (Merchant.id m))
                 /\ Merchant.id m <> mid) ->
  forall r, appends (misses b) r (Engine._events_for_series now r rows).
Proof.
  intros Hids Hb Hmid Hrows r. unfold Engine._events_for_series.
  apply appends_fold. intros r' row Hin.
  destruct (Hrows row Hin) as (m & sid & res & -> & Hne).
  eapply appends_trans; [eapply appends_trans|].
  - apply new_subscription_misses.
  - apply price_change_misses.
  - apply duplicates_misses. intros b' Hb' Hid.
    apply in_history in Hb'. destruct Hb' as [Hstored Hm].
    pose proof (ResolverFacts.unique_row _ b' b Hids Hstored Hb Hid) as E.
    subst b'. apply Hne. exact (has_merchant_id _ _ _ Hm Hmid).
Qed.

(** One event that names [b] among events that do not. *)
Lemma one_hit (r1 r2 r4 : Repo.t) (sev : Event.severity_)
      (evd : Event.evidence_) (mid sid : option Z) :
  Repo.events r1 = [] ->
  appends (misses b) r1 r2 ->
  appends (misses b)
          (Repo.add_event r2 Event.possible_duplicate sev evd mid sid
                          (Some (Transaction.id b))) r4 ->
  exists e,
    filter (duplicate_of b) (Repo.events r4) = [e]
    /\ Event.severity e = sev
    /\ Event.merchant_id e = mid
    /\ Event.series_id e = sid
    /\ Event.evidence e = evd.
Proof.
  intros Hnil H12 H34.
  apply appends_frame in H12. destruct H12 as (_ & _ & _ & A1 & E1 & F1).
  apply appends_frame in H34. destruct H34 as (_ & _ & _ & A2 & E2 & F2).
  unfold Repo.add_event in E2. cbn [Repo.events Repo.set_events] in E2.
  rewrite E2, E1, Hnil. cbn [app]. rewrite !filter_app.
  rewrite (filter_misses F1), (filter_misses F2). cbn [filter app].
  unfold duplicate_of at 1. cbn [Event.type Event.txn_id Event.type_eqb andb].
  rewrite Z.eqb_refl. eexists. split; [reflexivity|].
  repeat split.
Qed.

Lemma nth_pair (pre post : list Transaction.t) (a : Transaction.t) :
  nth_error (pre ++ a :: b :: post) (length pre) = Some a
  /\ nth_error (pre ++ a :: b :: post) (S (length pre)) = Some b.
Proof.
  induction pre as [|x pre IH]; [split; reflexivity | exact IH].
Qed.

(** With distinct ids, [b] is the later transaction of one pair only. *)
Lemma later_unique (tx : list Transaction.t) (i0 i : nat)
      (b' : Transaction.t) :
  NoDup (map Transaction.id tx) ->
  nth_error tx (S i0) = Some b ->
  i <> i0 ->
  nth_error tx (S i) = Some b' ->
  Transaction.id b' <> Transaction.id b.
Proof.
  intros Hnd H0 Hne Hi Hid. apply Hne.
  assert (E : nth_error (map Transaction.id tx) (S i)
              = nth_error (map Transaction.id tx) (S i0))
    by (rewrite !nth_error_map, Hi, H0; cbn [option_map]; now f_equal).
  assert (Hlt : S i < length (map Transaction.id tx)).
  { rewrite length_map. apply nth_error_Some. rewrite Hi. discriminate. }
  pose proof (proj1 (NoDup_nth_error _) Hnd (S i) (S i0) Hlt E) as H.
  now injection H.
Qed.

(** The scan of the row of the merchant: one event for the pair, among
    events that do not name [b]. *)
Lemma own_row_hits (m : Merchant.t) (sid : Z) (res : SeriesResult)
      (tx pre post : list Transaction.t) (a : Transaction.t) (r : Repo.t) :
  tx = pre ++ a :: b :: post ->
  length post <= 8 ->
  NoDup (map Transaction.id tx) ->
  Engine.is_duplicate a b = true ->
  exists r',
    appends (misses b) r r'
    /\ appends (misses b)
         (Repo.add_event r' Event.possible_duplicate Event.warn
            (Event.ev_duplicate (Engine.charge_of a) (Engine.charge_of b))
            (Some (Merchant.id m)) (Some sid) (Some (Transaction.id b)))
         (Engine.duplicates r (m, sid, res, tx)).
Proof.
  intros Htx Hpost Hnd Hdup.
  destruct (nth_pair pre post a) as [Ha Hb]. rewrite <- Htx in Ha, Hb.
  assert (Hlen : length tx = length pre + 2 + length post).
  { rewrite Htx, length_app. cbn [length]. lia. }
  unfold Engine.duplicates. cbv zeta.
  set (i0 := length pre) in *.
  replace (length tx - 1 - (length tx - 10))
    with ((i0 - (length tx - 10)) + S (length tx - 1 - S i0)) by lia.
  rewrite seq_app. replace (length tx - 10 + (i0 - (length tx - 10))) with i0
    by lia.
  cbn [seq]. rewrite fold_left_app. cbn [fold_left].
  set (r' := fold_left (Engine.duplicate_at m sid tx)
                       (seq (length tx - 10) (i0 - (length tx - 10))) r).
  exists r'. split.
  - apply appends_fold. intros r1 i Hi. apply duplicate_at_misses.
    intros b' Hb'. apply in_seq in Hi.
    apply (@later_unique tx i0 i b' Hnd Hb); [lia | exact Hb'].
  - replace (Engine.duplicate_at m sid tx r' i0)
      with (Repo.add_event r' Event.possible_duplicate Event.warn
              (Event.ev_duplicate (Engine.charge_of a) (Engine.charge_of b))
              (Some (Merchant.id m)) (Some sid) (Some (Transaction.id b)))
      by (unfold Engine.duplicate_at; now rewrite Ha, Hb, Hdup).
    apply appends_fold. intros r1 i Hi. apply duplicate_at_misses.
    intros b' Hb'. apply in_seq in Hi.
    apply (@later_unique tx i0 i b' Hnd Hb); [lia | exact Hb'].
Qed.

End Pair.

(** ** The rows of the loop *)

Lemma one_row_each_step (ms done rest : list Merchant.t) (m : Merchant.t)
      (st : Repo.t * list Engine.series_row) :
  NoDup (map Merchant.id ms) ->
  ms = done ++ m :: rest ->
  one_row_each done st ->
  one_row_each (done ++ [m]) (Engine.series_step st m).
Proof.
  intros Hms Hsplit. destruct st as [r rows]. intros [Hnd Hincl].
  cbn [snd] in Hnd, Hincl.
  assert (Hweak : incl (map row_id rows) (map Merchant.id (done ++ [m]))).
  { intros x Hx. rewrite map_app. apply in_or_app. left. now apply Hincl. }
  unfold Engine.series_step.
  destruct (length _ <? 3); [split; assumption|].
  destruct (detect_recurring _ _ 3) as [res|]; [|split; assumption].
  destruct (Repo.upsert_series _ _ _ _ _) as [r' sid].
  unfold one_row_each. cbn [snd]. rewrite map_app. cbn [map].
  change (row_id (m, sid, res,
                  rev (Repo.list_transactions_for_merchant
                         r (Merchant.id m) 10000)))
    with (Merchant.id m).
  split.
  - apply NoDup_app; [exact Hnd | repeat constructor; intros [] |].
    intros x Hx [<-|[]]. apply Hincl in Hx.
    rewrite Hsplit, map_app in Hms. cbn [map] in Hms.
    apply NoDup_remove_2 in Hms. apply Hms, in_or_app. now left.
  - intros x Hx. apply in_app_or in Hx. destruct Hx as [Hx|[<-|[]]].
    + now apply Hweak.
    + rewrite map_app. apply in_or_app. right. now left.
Qed.

Lemma one_row_each_loop (r0 : Repo.t) (ms : list Merchant.t) :
  NoDup (map Merchant.id ms) ->
  one_row_each ms (fold_left Engine.series_step ms (r0, [])).
Proof.
  intros Hnd.
  apply (@IntegrityMore.fold_left_split_inv
           _ _ Engine.series_step one_row_each).
  - intros done m rest st Hsplit. now apply one_row_each_step with ms rest.
  - split; [constructor | intros x []].
Qed.

Lemma covered_loop (r0 : Repo.t) (ms : list Merchant.t) :
  Repo.series r0 = [] ->
  covered r0 (fold_left Engine.series_step ms (r0, [])).
Proof.
  intros Hnil.
  apply (@fold_left_inv _ _ Engine.series_step (covered r0)).
  - intros st m _. apply AnnounceMore.covered_step.
  - unfold covered. cbn [fst snd]. rewrite Hnil.
    split; [reflexivity|]. split; [reflexivity|]. split; intros ? [].
Qed.

Lemma events_for_series_app (now : datetime) (r : Repo.t)
      (rows1 rows2 : list Engine.series_row) (row : Engine.series_row) :
  Engine._events_for_series now r (rows1 ++ row :: rows2)
  = Engine._events_for_series
      now
      (Engine.duplicates
         (Engine.price_change
            (Engine.new_subscription
               now (Engine._events_for_series now r rows1) row) row) row)
      rows2.
Proof.
  unfold Engine._events_for_series. rewrite fold_left_app. reflexivity.
Qed.

Lemma limit_above_ten : 10 <= 10000.
Proof. apply Nat.leb_le. vm_compute. reflexivity. Qed.

(** After the loop over the merchants of a cleared repository, the event
    generation raises one event for the pair [a], [b]. *)
Lemma series_events_flag_pair (now : datetime) (r0 : Repo.t)
      (m : Merchant.t) (pre post : list Transaction.t)
      (a b : Transaction.t) :
  NoDup (map Merchant.id (Repo.merchants r0)) ->
  NoDup (map Transaction.id (Repo.transactions r0)) ->
  Repo.series r0 = [] ->
  Repo.events r0 = [] ->
  In m (Repo.merchants r0) ->
  charges_of r0 (Merchant.id m) (pre ++ a :: b :: post) ->
  1 <= length pre + length post ->
  length post <= 8 ->
  Engine.is_duplicate a b = true ->
  forall st,
    st = fold_left Engine.series_step (Repo.list_merchants r0) (r0, []) ->
    exists e,
      filter (duplicate_of b)
             (Repo.events
                (Engine._events_for_anomalies
                   (Engine._events_for_series now (fst st) (snd st))))
      = [e]
      /\ Event.severity e = Event.warn
      /\ Event.merchant_id e = Some (Merchant.id m)
      /\ Event.evidence e
         = Event.ev_duplicate (Engine.charge_of a) (Engine.charge_of b).
Proof.
  intros Hmids Htids Hnil Hev0 Hm Hcharges Hthree Hpost Hdup st Hst.
  set (L := pre ++ a :: b :: post) in *.
  assert (HL : length L = length pre + 2 + length post).
  { unfold L. rewrite length_app. cbn [length]. lia. }
  (* the history of the merchant *)
  pose proof (listed_charges 10000 Hcharges) as Hhist.
  change (rev (Repo.list_transactions_for_merchant r0 (Merchant.id m) 10000))
    with (history r0 (Merchant.id m)) in Hhist.
  pose proof limit_above_ten as Hlim.
  set (lim := 10000) in Hhist, Hlim. clearbody lim.
  set (k := length L - lim) in *.
  assert (Hk : k <= length pre) by lia.
  assert (Htx : history r0 (Merchant.id m) = skipn k pre ++ a :: b :: post).
  { rewrite Hhist. unfold L. rewrite skipn_app.
    replace (k - length pre) with 0 by lia. reflexivity. }
  assert (H3 : 3 <= length (history r0 (Merchant.id m))).
  { rewrite Hhist, length_skipn. lia. }
  destruct Hcharges as [Hperm _].
  assert (HndL : NoDup (map Transaction.id L)).
  { eapply Permutation_NoDup; [apply Permutation_map; exact Hperm|].
    now apply RecomputeMore.selected_keys_distinct. }
  assert (Hndtx : NoDup (map Transaction.id (history r0 (Merchant.id m)))).
  { rewrite Hhist. rewrite <- (firstn_skipn k L), map_app in HndL.
    now apply NoDup_app_remove_l in HndL. }
  assert (Hb : In b (Repo.transactions r0)
               /\ Repo.has_merchant (Merchant.id m) b = true).
  { apply filter_In. apply (Permutation_in _ (Permutation_sym Hperm)).
    unfold L. apply in_or_app. right. right. now left. }
  assert (Hcount : 3 <= txn_count r0 (Merchant.id m)).
  { unfold txn_count. rewrite (Permutation_length Hperm). lia. }
  (* the loop over the merchants *)
  assert (Hsorted : NoDup (map Merchant.id (Repo.list_merchants r0))).
  { eapply Permutation_NoDup; [|exact Hmids].
    apply Permutation_map, Permutation_sym, PyFacts.sorted_perm. }
  pose proof (series_loop r0 (Repo.list_merchants r0))
    as (_ & _ & HE & _ & Hdone).
  pose proof (@covered_loop r0 (Repo.list_merchants r0) Hnil)
    as (_ & _ & Hrows & Hser).
  pose proof (@one_row_each_loop r0 (Repo.list_merchants r0) Hsorted)
    as [Hone _].
  rewrite <- Hst in HE, Hdone, Hrows, Hser, Hone. clear Hst.
  destruct st as [r2 rows]. cbn [fst snd] in *.
  assert (Hactive : has_active_series r2 (Merchant.id m)).
  { apply Hdone; [|exact Hcount].
    apply (PyFacts.sorted_In Repo.by_name). exact Hm. }
  destruct Hactive as (rs & Hrs & Hmid & _).
  destruct (Hser rs Hrs) as (m' & res & Hin & Hid & _).
  rewrite Hmid in Hid. rewrite Hid in Hin.
  apply in_split in Hin. destruct Hin as (rows1 & rows2 & Hsplit).
  assert (Hothers : forall row,
             In row (rows1 ++ rows2) ->
             exists m1 sid res1,
               row = (m1, sid, res1, history r0 (Merchant.id m1))
               /\ Merchant.id m1 <> Merchant.id m).
  { intros row Hrow.
    assert (Hrow' : In row rows).
    { rewrite Hsplit. apply in_app_or in Hrow. apply in_or_app.
      destruct Hrow; [now left | right; now right]. }
    destruct (Hrows row Hrow') as (m1 & sid & res1 & -> & _).
    exists m1, sid, res1. split; [reflexivity|]. intros E.
    rewrite Hsplit, map_app in Hone. cbn [map] in Hone.
    apply NoDup_remove_2 in Hone. apply Hone. rewrite <- map_app.
    change (row_id (m', RecurringSeries.id rs, res,
                    history r0 (Merchant.id m)))
      with (Merchant.id m').
    rewrite Hid, <- E.
    change (Merchant.id m1)
      with (row_id (m1, sid, res1, history r0 (Merchant.id m1))).
    now apply in_map. }
  (* the events *)
  rewrite Hsplit, events_for_series_app.
  set (rA := Engine._events_for_series now r2 rows1).
  set (row := (m', RecurringSeries.id rs, res, history r0 (Merchant.id m))).
  set (rB := Engine.price_change (Engine.new_subscription now rA row) row).
  assert (HA : appends (misses b) r2 rA).
  { apply other_rows_miss with r0 (Merchant.id m);
      [exact Htids | tauto | tauto |].
    intros x Hx. apply Hothers, in_or_app. now left. }
  assert (HB : appends (misses b) rA rB).
  { eapply appends_trans;
      [apply new_subscription_misses | apply price_change_misses]. }
  destruct (@own_row_hits b m' (RecurringSeries.id rs) res
              (history r0 (Merchant.id m)) (skipn k pre) post a rB
              Htx Hpost Hndtx Hdup) as (rC & HC & HD).
  fold row in HD.
  assert (HF : appends (misses b) (Engine.duplicates rB row)
                       (Engine._events_for_anomalies
                          (Engine._events_for_series
                             now (Engine.duplicates rB row) rows2))).
  { eapply appends_trans; [|apply events_for_anomalies_misses].
    apply other_rows_miss with r0 (Merchant.id m);
      [exact Htids | tauto | tauto |].
    intros x Hx. apply Hothers, in_or_app. now right. }
  set (rG := Engine._events_for_anomalies _) in *.
  destruct (@one_hit b r2 rC rG Event.warn
              (Event.ev_duplicate (Engine.charge_of a) (Engine.charge_of b))
              (Some (Merchant.id m')) (Some (RecurringSeries.id rs)))
    as (e & He & Hsev & Hmer & _ & Hevd).
  - now rewrite HE.
  - exact (appends_trans HA (appends_trans HB HC)).
  - exact (appends_trans HD HF).
  - exists e. rewrite Hid in Hmer. repeat split; assumption.
Qed.

Lemma resolved_ids (X : Repo.Externals) (repo : Repo.t) (thr : Q) :
  map Transaction.id
      (Repo.transactions (fst (Engine.resolve_merchants X repo thr)))
  = map Transaction.id (Repo.transactions repo).
Proof.
  destruct (ResolverMore.resolve_merchants_frame X repo thr)
    as (_ & _ & _ & _ & _ & Hmap & _).
  apply (f_equal (map Transaction.id)) in Hmap.
  rewrite !map_map in Hmap. exact Hmap.
Qed.

(** C2.  A recompute that returns leaves no event that names a merchant
    with fewer than three transactions: the event generation is not run
    over such a merchant, and a merchant with exactly two transactions,
    two hours apart and of equal amounts, gets no "possible duplicate".
    For a merchant of the merchant table whose transactions, listed by
    time, contain besides others the consecutive transactions [a] and
    [b], [b] two hours after [a] and of the same amount, with at most
    eight transactions after [b], the recompute leaves exactly one
    "possible duplicate" that names [b]: it has the severity "warn", the
    merchant, and [a] and [b] as its evidence.  The ids of the merchants
    and of the transactions are distinct, being primary keys. *)
Theorem duplicate_event_for_pair_from_three_transactions :
  forall (X : Repo.Externals) (now : datetime) (repo r' : Repo.t),
    Checked.recompute X now repo = Returns r' ->
    (forall mid : Z,
        txn_count r' mid < 3 ->
        Forall (fun e => Event.merchant_id e <> Some mid) (Repo.events r'))
    /\ (forall (m : Merchant.t) (pre post : list Transaction.t)
               (a b : Transaction.t),
           NoDup (map Merchant.id (Repo.merchants repo)) ->
           NoDup (map Transaction.id (Repo.transactions repo)) ->
           In m (Repo.merchants r') ->
           charges_of r' (Merchant.id m) (pre ++ a :: b :: post) ->
           1 <= length pre + length post ->
           length post <= 8 ->
           Transaction.posted_at b
           = (Transaction.posted_at a + 7200000000)%Z ->
           Transaction.amount b == Transaction.amount a ->
           exists e : Event.t,
             filter (duplicate_of b) (Repo.events r') = [e]
             /\ Event.severity e = Event.warn
             /\ Event.merchant_id e = Some (Merchant.id m)
             /\ Event.evidence e
                = Event.ev_duplicate
                    (Transaction.posted_at a, Transaction.amount a,
                     Transaction.id a)
                    (Transaction.posted_at b, Transaction.amount b,
                     Transaction.id b)).
Proof.
  intros X now repo r' Hr'.
  assert (E : r' = Engine.recompute X now repo).
  { pose proof (CheckedFacts.recompute_cases X now repo) as Hcases.
    set (checked := Checked.recompute X now repo) in *.
    set (stored := Engine.recompute X now repo) in *.
    clearbody checked stored.
    destruct Hcases as [H|H]; rewrite H in Hr'; [|discriminate].
    apply CheckedFacts.returns_eq in Hr'. now symmetry. }
  clear Hr'. subst r'. split.
  - intros mid Hlt. apply Forall_forall. intros e He.
    exact (@recompute_no_event_below_three X now repo mid e Hlt He).
  - intros m pre post a b Hmids Htids Hm [Hperm Hsorted] Hthree Hpost
           Htime Hamount.
    pose proof (RecomputeMore.recompute_tables X now repo) as Htab.
    cbv zeta in Htab. destruct Htab as (HT & HM & _).
    rewrite HM in Hm. rewrite HT in Hperm. clear HT HM.
    pose proof (ResolverMore.resolve_merchants_ids
                  X repo Engine.default_fuzzy_threshold Hmids) as Hmids0.
    pose proof (resolved_ids X repo Engine.default_fuzzy_threshold)
      as Htids0.
    rewrite <- Htids0 in Htids. clear Htids0 Hmids.
    assert (Hdup : Engine.is_duplicate a b = true)
      by (apply is_duplicate_two_hours; [exact Htime | exact Hamount]).
    unfold Engine.recompute, Engine.detect_series.
    change (Repo.clear_recurring_and_events
              (fst (Engine.resolve_merchants X repo
                      Engine.default_fuzzy_threshold)))
      with (ledger (fst (Engine.resolve_merchants X repo
                           Engine.default_fuzzy_threshold))).
    change (Repo.merchants (fst (Engine.resolve_merchants X repo
                                   Engine.default_fuzzy_threshold)))
      with (Repo.merchants
              (ledger (fst (Engine.resolve_merchants X repo
                              Engine.default_fuzzy_threshold))))
      in Hmids0.
    change (Repo.transactions (fst (Engine.resolve_merchants X repo
                                      Engine.default_fuzzy_threshold)))
      with (Repo.transactions
              (ledger (fst (Engine.resolve_merchants X repo
                              Engine.default_fuzzy_threshold))))
      in Htids.
    set (r0 := ledger (fst (Engine.resolve_merchants X repo
                              Engine.default_fuzzy_threshold))) in *.
    assert (Hnil : Repo.series r0 = []) by reflexivity.
    assert (Hev0 : Repo.events r0 = []) by reflexivity.
    clearbody r0.
    destruct (fold_left Engine.series_step (Repo.list_merchants r0) (r0, []))
      as [r2 rows] eqn:Hst.
    exact (@series_events_flag_pair
             now r0 m pre post a b Hmids0 Htids Hnil Hev0 Hm
             (conj Hperm Hsorted) Hthree Hpost Hdup (r2, rows)
             (eq_sym Hst)).
Qed.

Lemma duplicate_event_samples :
  (exists r' : Repo.t,
      Checked.recompute Samples.externals Samples.now Samples.two_charges
      = Returns r'
      /\ txn_count r' 1 = 2
      /\ Forall (fun e => Event.merchant_id e <> Some 1%Z) (Repo.events r'))
  /\ (exists (r' : Repo.t) (e : Event.t),
         Checked.recompute Samples.externals Samples.now
                           SamplesDuplicate.three_charges
         = Returns r'
         /\ txn_count r' 1 = 3
         /\ filter (duplicate_of SamplesDuplicate.charged_again)
                   (Repo.events r')
            = [e]
         /\ Event.severity e = Event.warn
         /\ Event.merchant_id e = Some 1%Z).
Proof.
  split.
  - assert (Hr : Checked.recompute Samples.externals Samples.now
                                   Samples.two_charges
                 = Returns (Engine.recompute
                              Samples.externals Samples.now
                              Samples.two_charges))
      by (vm_compute; reflexivity).
    eexists. split; [exact Hr|].
    split; [vm_compute; reflexivity|].
    apply (proj1 (@duplicate_event_for_pair_from_three_transactions
                    Samples.externals Samples.now Samples.two_charges _ Hr)).
    vm_compute. lia.
  - assert (Hr : Checked.recompute Samples.externals Samples.now
                                   SamplesDuplicate.three_charges
                 = Returns (Engine.recompute
                              Samples.externals Samples.now
                              SamplesDuplicate.three_charges))
      by (vm_compute; reflexivity).
    destruct (proj2 (@duplicate_event_for_pair_from_three_transactions
                       Samples.externals Samples.now
                       SamplesDuplicate.three_charges _ Hr)
                    (Merchant.mk 1 (chars "ACME GYM"))
                    [SamplesDuplicate.first_charge] []
                    SamplesDuplicate.charged SamplesDuplicate.charged_again)
      as (e & He & Hsev & Hmid & _).
    + vm_compute. repeat constructor. intros [].
    + vm_compute. repeat constructor; cbn [In]; lia.
    + vm_compute. left. reflexivity.
    + split.
      * vm_compute. apply Permutation_refl.
      * repeat constructor; vm_compute; reflexivity.
    + cbn [length]. lia.
    + cbn [length]. lia.
    + vm_compute. reflexivity.
    + reflexivity.
    + eexists. exists e. split; [exact Hr|].
      split; [vm_compute; reflexivity|].
      split; [exact He|]. split; [exact Hsev | exact Hmid].
Defined.

End DuplicateFacts.
